(** * Genetic algorithm for polynomial fitting: a shallow embedding

    The development embeds the sequential implementation (the GA
    operators [fitness], [crossover], [mutation], [selection] and the
    generation loop of [main]) and the coordinator of the MPI variant
    ([findMinimum] and the gather in its [main]).

    Conventions.
    - A C [int] is a [Z]; signed overflow is undefined behaviour in the
      source and the sizes involved are small compile-time constants, so
      no wrap-around is modelled.  Integer division and remainder are the
      truncating ones ([Z.quot], [Z.rem]); a zero divisor is undefined.
    - The operators are embedded twice.  In the first embedding a
      [float] or [double] is an exact rational [Q] ([INFINITY] is a
      separate constructor of [efloat]): it carries the properties of
      indices, order, draws and control, which do not depend on how a
      value is rounded.  Module [IEEE] embeds [fitness], [mutation] and
      the random number functions once more with the arithmetic of the
      source, IEEE 754 single and double precision with rounding,
      infinities and NaN: it carries the claims about the values that
      are stored.
    - A heap array is a [list]; an access outside the list is undefined
      behaviour and makes the embedded function return [None], as does a
      division by zero and a loop that does not end.
    - The constants of [config.h] are the fields of [Config].
    - [rand()] and [random()] read from explicit streams of draws.
    - The C++ library call [std::sort] is an implementation
      ([StdSortFn]) that meets the contract of the standard ([StdSort]);
      the sort of GNU libstdc++ is given as one implementation.  The
      expression [sqrt((-2.0*log(S))/S)] of the C maths library is a
      parameter of the normal deviate generator.
    - An MPI receive from rank [i] yields what rank [i] sends; the MPI
      main is a function from the environment of one process to the
      events it causes and its exit. *)

From Stdlib Require Import ZArith QArith Qabs Qpower Lia Lqa String.
From Stdlib Require SpecFloat.
From stdpp Require Import base tactics option list sorting.

Local Open Scope Z_scope.

(** ** Undefined-behaviour monad and array accesses *)

Definition rd {A} (buf : list A) (i : Z) : option A :=
  if 0 <=? i then buf !! Z.to_nat i else None.

Definition wr {A} (buf : list A) (i : Z) (v : A) : option (list A) :=
  if (0 <=? i) && (i <? Z.of_nat (length buf))
  then Some (<[Z.to_nat i := v]> buf) else None.

(** [for (i = lo; i < hi; i += step) body]: the test is the source's; the
    fuel is an upper bound of the trip count for every [step >= 1]. *)
Fixpoint for_fuel {St} (fuel : nat) (i hi step : Z)
    (body : Z → St → option St) (s : St) : option St :=
  match fuel with
  | O => if i <? hi then None else Some s
  | S fuel' =>
      if i <? hi
      then s' ← body i s; for_fuel fuel' (i + step) hi step body s'
      else Some s
  end.

Definition for_ {St} (lo hi step : Z) (body : Z → St → option St) (s : St)
    : option St :=
  for_fuel (Z.to_nat (hi - lo)) lo hi step body s.

(** C's [%] on [int] and [long]; [/] by a non-zero literal is [Z.quot]. *)
Definition c_rem (a b : Z) : option Z :=
  if b =? 0 then None else Some (Z.rem a b).

(** Conversion of a floating value to [int]: truncation toward zero. *)
Definition Qtrunc (q : Q) : Z := Z.quot (Qnum q) (Z.pos (Qden q)).

Definition Qltb (x y : Q) : bool := negb (Qle_bool y x).

(** ** config.h *)

Record Config := {
  POPULATION_SIZE : Z;
  INDIVIDUAL_LEN : Z;
  N_POINTS : Z;
  mu_individuals : Q;
  sigma_individuals : Q;
  mu_genes : Q;
  sigma_genes : Q;
  maxGenerationNumber : Z;
  maxConstIter : Z;
  targetErr : Q;
  RAND_MAX : positive
}.

(** One value of [rand()] or [random()]. *)
Definition draw (s : list Z) : option (Z * list Z) :=
  match s with
  | r :: s' => Some (r, s')
  | [] => None
  end.

Section Operators.
Context (cfg : Config).

Abbreviation P := (POPULATION_SIZE cfg).
Abbreviation L := (INDIVIDUAL_LEN cfg).
Abbreviation NP := (N_POINTS cfg).

(** ** fitness *)

(** [f_approx] after the loop over [order]. *)
Definition f_approx_loop (individuals points : list Q) (i pt : Z) : option Q :=
  for_ 0 L 1 (λ order f_approx,
    c ← rd individuals (i * L + order);
    x ← rd points pt;
    Some (f_approx + c * Qpower x order)%Q) 0%Q.

(** [sumError] after the loop over [pt]. *)
Definition sumError_loop (individuals points : list Q) (i : Z) : option Q :=
  for_ 0 NP 1 (λ pt sumError,
    f_approx ← f_approx_loop individuals points i pt;
    y ← rd points (NP + pt);
    Some (sumError + Qpower (f_approx - y) 2)%Q) 0%Q.

Definition fitness (individuals points current_fitnesses : list Q)
    : option (list Q) :=
  for_ 0 P 1 (λ i current_fitnesses,
    sumError ← sumError_loop individuals points i;
    wr current_fitnesses i sumError) current_fitnesses.

(** ** crossover *)

Definition crossover_child_loop (oldPopulation : list Q)
    (i parent1_i parent2_i crosspoint : Z) (newPopulation : list Q)
    : option (list Q) :=
  for_ 0 L 1 (λ j newPopulation,
    if j <? crosspoint then
      a ← rd oldPopulation (parent1_i * L + j);
      newPopulation ← wr newPopulation (i + j) a;
      b ← rd oldPopulation (parent2_i * L + j);
      wr newPopulation (i + j + L) b
    else
      a ← rd oldPopulation (parent2_i * L + j);
      newPopulation ← wr newPopulation (i + j) a;
      b ← rd oldPopulation (parent1_i * L + j);
      wr newPopulation (i + j + L) b) newPopulation.

(** One pass of the second loop of [crossover]: three draws of
    [random()], then the loop over the genes. *)
Definition crossover_pair (oldPopulation : list Q) (i : Z)
    (st : list Q * list Z) : option (list Q * list Z) :=
  let '(newPopulation, rnd) := st in
  '(r1, rnd) ← draw rnd;
  m1 ← c_rem r1 (Z.quot P 2);
  let parent1_i := m1 * L in
  '(r2, rnd) ← draw rnd;
  m2 ← c_rem r2 (Z.quot P 2);
  let parent2_i := m2 * L in
  '(r3, rnd) ← draw rnd;
  m3 ← c_rem r3 (L - 2);
  let crosspoint := m3 + 1 in
  newPopulation ←
    crossover_child_loop oldPopulation i parent1_i parent2_i crosspoint
      newPopulation;
  Some (newPopulation, rnd).

Definition crossover (oldPopulation newPopulation : list Q) (rnd : list Z)
    : option (list Q * list Z) :=
  newPopulation ←
    for_ 0 (Z.quot P 2 * L) 1 (λ i newPopulation,
      v ← rd oldPopulation i;
      wr newPopulation i v) newPopulation;
  for_ (Z.quot P 2 * L) (P * L) (2 * L)
    (crossover_pair oldPopulation) (newPopulation, rnd).

(** ** Random numbers: frand, stdrand, nrand *)

Definition frand (rnd : list Z) : option (Q * list Z) :=
  '(r, rnd) ← draw rnd;
  Some (r # RAND_MAX cfg, rnd).

(** The rejection loop of the Box-Muller transform.  Every pass takes two
    draws; the stream of draws is the fuel.  [libm_factor S] stands for
    [sqrt((-2.0*log(S))/S)]. *)
Context (libm_factor : Q → Q).

Fixpoint stdrand (rnd : list Z) : option (Q * list Z) :=
  match rnd with
  | r1 :: r2 :: rnd' =>
      let U1 := r1 # RAND_MAX cfg in
      let U2 := r2 # RAND_MAX cfg in
      let V1 := (-1 + 2 * U1)%Q in
      let V2 := (-1 + 2 * U2)%Q in
      let S := (Qpower V1 2 + Qpower V2 2)%Q in
      if Qle_bool 1 S then stdrand rnd'
      else Some ((V1 * libm_factor S)%Q, rnd')
  | _ => None
  end.

Definition nrand (mu sigma : Q) (rnd : list Z) : option (Q * list Z) :=
  '(X, rnd) ← stdrand rnd;
  Some ((mu + sigma * X)%Q, rnd).

(** ** mutation *)

(** The value added to a mutated gene, for the value [f] of [frand()]. *)
Definition mutation_delta (f : Q) : Q := ((1 # 100) * (2 * f - 1))%Q.

Definition mutation_gene (i mutNumber j : Z) (st : list Q * list Z)
    : option (list Q * list Z) :=
  let '(individuals, rnd) := st in
  let idx := i * L + j in
  '(g, rnd) ← nrand (mu_genes cfg) (sigma_genes cfg) rnd;
  if Qltb g (inject_Z mutNumber) then
    '(f, rnd) ← frand rnd;
    old ← rd individuals idx;
    individuals ← wr individuals idx (old + mutation_delta f)%Q;
    Some (individuals, rnd)
  else Some (individuals, rnd).

Definition mutation_individual (i : Z) (st : list Q * list Z)
    : option (list Q * list Z) :=
  let '(individuals, rnd) := st in
  '(m, rnd) ← nrand (mu_individuals cfg) (sigma_individuals cfg) rnd;
  let mutNumber := Qtrunc m in
  for_ 0 L 1 (mutation_gene i mutNumber) (individuals, rnd).

Definition mutation (individuals : list Q) (rnd : list Z)
    : option (list Q * list Z) :=
  for_ 1 P 1 mutation_individual (individuals, rnd).

End Operators.

(** ** std::sort

    The contract of [std::sort(first, last, comp)]: for a comparator that
    is a strict weak ordering, the range is rearranged (a permutation) so
    that no element compares less than an element before it.  The order of
    equivalent elements is left open by the contract. *)

Record StrictWeakOrder {A} (comp : A → A → bool) : Prop := {
  swo_irrefl : ∀ x, comp x x = false;
  swo_trans : ∀ x y z, comp x y = true → comp y z = true → comp x z = true;
  swo_equiv_trans : ∀ x y z,
    comp x y = false → comp y x = false →
    comp y z = false → comp z y = false →
    comp x z = false ∧ comp z x = false
}.

(** [sorted_by comp l]: no later element is [comp]-less than an earlier. *)
Definition sorted_by {A} (comp : A → A → bool) (l : list A) : Prop :=
  StronglySorted (λ x y, comp y x = false) l.

(** An implementation of [std::sort], and the contract it meets. *)
Class StdSortFn := {
  std_sort : ∀ {A}, (A → A → bool) → list A → list A
}.

Class StdSort `{StdSortFn} : Type := {
  std_sort_perm : ∀ A (comp : A → A → bool) l,
    StrictWeakOrder comp → std_sort comp l ≡ₚ l;
  std_sort_sorted : ∀ A (comp : A → A → bool) l,
    StrictWeakOrder comp → sorted_by comp (std_sort comp l)
}.

(** ** selection *)

(** [pair<float,int>] - take fitness as sorting key. *)
Definition myCmpPair (p1 p2 : Q * Z) : bool := Qltb p1.1 p2.1.

Section Selection.
Context (cfg : Config) `{StdSort}.

Abbreviation P := (POPULATION_SIZE cfg).
Abbreviation L := (INDIVIDUAL_LEN cfg).

(** The array [pairs] after the first loop. *)
Definition selection_pairs (fitnesses : list Q) : option (list (Q * Z)) :=
  for_ 0 P 1 (λ i pairs,
    f ← rd fitnesses i;
    wr pairs i (f, i)) (replicate (Z.to_nat P) (0%Q, 0)).

(** The reordering loop, for the sorted array [pairs]. *)
Definition selection_reorder (population : list Q) (pairs : list (Q * Z))
    (newPopulation : list Q) : option (list Q) :=
  for_ 0 P 1 (λ i newPopulation,
    for_ 0 L 1 (λ j newPopulation,
      p ← rd pairs i;
      v ← rd population (p.2 * L + j);
      wr newPopulation (i * L + j) v) newPopulation) newPopulation.

Definition selection (population fitnesses newPopulation : list Q)
    : option (list Q) :=
  pairs ← selection_pairs fitnesses;
  let pairs := std_sort myCmpPair pairs in
  selection_reorder population pairs newPopulation.

End Selection.

(** ** The generation loop of main *)

(** A [float] variable that can hold [INFINITY]. *)
Inductive efloat := Fin (q : Q) | PInf.

(** [a > t] *)
Definition ef_gtb (a : efloat) (t : Q) : bool :=
  match a with
  | Fin q => Qltb t q
  | PInf => true
  end.

(** [fabs(a - b) < eps] *)
Definition ef_close (a b : efloat) (eps : Q) : bool :=
  match a, b with
  | Fin x, Fin y => Qltb (Qabs (x - y)) eps
  | _, _ => false
  end.


Record GAState := {
  population : list Q;
  newPopulation : list Q;
  current_fitnesses : list Q;
  generationNumber : Z;
  noChangeIter : Z;
  bestFitness : efloat;
  previousBestFitness : efloat;
  random_s : list Z;   (* the draws of random() still to come *)
  rand_s : list Z      (* the draws of rand() still to come *)
}.

(** What main prints at the end. *)
Record Report := {
  rep_solution : list Q;      (* c0 .. c3 *)
  rep_bestFitness : efloat;
  rep_generations : Z
}.

Inductive Outcome :=
| Rejected (code : Z)        (* return -1 before any allocation *)
| Completed (r : Report)
| Undefined.                 (* undefined behaviour on the way *)

(** A fresh array of [n] elements; its content is indeterminate. *)
Definition new_array (indeterminate : Q) (n : Z) : list Q :=
  replicate (Z.to_nat n) indeterminate.

(** The [fscanf] loop of [readData]: the pairs of the file are stored at
    [k] and [POINTS_CNT + k]. *)
Fixpoint readData_loop (pairs : list (Q * Q)) (POINTS_CNT k : Z)
    (points : list Q) : option (list Q) :=
  match pairs with
  | [] => Some points
  | (x, y) :: pairs' =>
      points ← wr points k x;
      points ← wr points (POINTS_CNT + k) y;
      readData_loop pairs' POINTS_CNT (k + 1) points
  end.

(** [readData]: [file] is [None] when the file cannot be opened, and
    then the result is the NULL pointer, [Some None]. *)
Definition readData (file : option (list (Q * Q))) (POINTS_CNT : Z)
    (indeterminate : Q) : option (option (list Q)) :=
  let points := new_array indeterminate (2 * POINTS_CNT) in
  match file with
  | Some pairs =>
      points ← readData_loop pairs POINTS_CNT 0 points;
      Some (Some points)
  | None => Some None
  end.

(** The arrays of the populations are allocated with this factor. *)
Definition sizeof_float : Z := 4.

Section Loop.
Context (cfg : Config) (libm_factor : Q → Q) `{StdSort}.

(** The body of the [while] loop. *)
Definition ga_generation (points : list Q) (st : GAState) : option GAState :=
  let generationNumber' := generationNumber st + 1 in
  '(crossed, random_s') ←
    crossover cfg (population st) (newPopulation st) (random_s st);
  let tmp := population st in
  let population1 := crossed in
  let newPopulation1 := tmp in
  '(population2, rand_s') ← mutation cfg libm_factor population1 (rand_s st);
  fitnesses ← fitness cfg population2 points (current_fitnesses st);
  best ← rd fitnesses 0;
  let bestFitness' := Fin best in
  let noChangeIter' :=
    if ef_close bestFitness' (previousBestFitness st) (1 # 100)
    then noChangeIter st + 1 else 0 in
  let tmp := population2 in
  population3 ← selection cfg population2 fitnesses newPopulation1;
  Some {| population := population3;
          newPopulation := tmp;
          current_fitnesses := fitnesses;
          generationNumber := generationNumber';
          noChangeIter := noChangeIter';
          bestFitness := bestFitness';
          previousBestFitness := bestFitness';
          random_s := random_s';
          rand_s := rand_s' |}.

(** The condition of the [while] loop. *)
Definition ga_continue (st : GAState) : bool :=
  (generationNumber st <? maxGenerationNumber cfg)
  && ef_gtb (bestFitness st) (targetErr cfg)
  && (noChangeIter st <? maxConstIter cfg).

Fixpoint ga_loop (fuel : nat) (points : list Q) (st : GAState)
    : option GAState :=
  if ga_continue st then
    match fuel with
    | O => None
    | S fuel' => st' ← ga_generation points st; ga_loop fuel' points st'
    end
  else Some st.

(** [n] passes of the body of the loop, one after the other. *)
Fixpoint ga_generations (n : nat) (points : list Q) (st : GAState)
    : option GAState :=
  match n with
  | O => Some st
  | S n' => st' ← ga_generations n' points st; ga_generation points st'
  end.

Definition init_population (population : list Q) (rnd : list Z)
    : option (list Q * list Z) :=
  for_ 0 (POPULATION_SIZE cfg * INDIVIDUAL_LEN cfg) 1 (λ i '(pop, rnd),
    '(r, rnd) ← draw rnd;
    pop ← wr pop i ((r # RAND_MAX cfg) * 10 - 5)%Q;
    Some (pop, rnd)) (population, rnd).

Definition main_run (points : list Q) (indeterminate : Q)
    (random_s0 rand_s0 : list Z) : option Report :=
  let cap := POPULATION_SIZE cfg * INDIVIDUAL_LEN cfg * sizeof_float in
  let population0 := new_array indeterminate cap in
  let newPopulation0 := new_array indeterminate cap in
  let current_fitnesses0 := new_array indeterminate (POPULATION_SIZE cfg) in
  '(population0, rand_s0) ← init_population population0 rand_s0;
  st ← ga_loop (Z.to_nat (maxGenerationNumber cfg)) points
        {| population := population0;
           newPopulation := newPopulation0;
           current_fitnesses := current_fitnesses0;
           generationNumber := 0;
           noChangeIter := 0;
           bestFitness := PInf;
           previousBestFitness := PInf;
           random_s := random_s0;
           rand_s := rand_s0 |};
  c0 ← rd (population st) 0;
  c1 ← rd (population st) 1;
  c2 ← rd (population st) 2;
  c3 ← rd (population st) 3;
  Some {| rep_solution := [c0; c1; c2; c3];
          rep_bestFitness := bestFitness st;
          rep_generations := generationNumber st |}.

Definition main (argc : Z) (file : option (list (Q * Q))) (indeterminate : Q)
    (random_s0 rand_s0 : list Z) : Outcome :=
  if negb (argc =? 2) then Rejected (-1)
  else
    match readData file (N_POINTS cfg) indeterminate with
    | None => Undefined
    | Some None => Rejected (-1)
    | Some (Some points) =>
        match main_run points indeterminate random_s0 rand_s0 with
        | Some r => Completed r
        | None => Undefined
        end
    end.

End Loop.

(** ** The MPI variant: findMinimum and the gather of main *)

(** The four values a process obtains from [computeGA]. *)
Record RunResult := {
  solution_o : list Q;
  bestFitness_o : Q;
  time_o : Q;
  genNumber_o : Z
}.

(** returns index of minimal value in the input array *)
Definition findMinimum (array : list Q) (arrayLen : Z) : option Z :=
  min0 ← rd array 0;
  '(_, minIdx) ←
    for_ 1 arrayLen 1 (λ i '(min, minIdx),
      a ← rd array i;
      if Qltb a min then Some (a, i) else Some (min, minIdx)) (min0, 0);
  Some minIdx.

(** The arrays of the master process. *)
Record Gathered := {
  solution_all : list Q;
  bestFitness_all : list Q;
  time_all : list Q;
  genNumber_all : list Z
}.

Inductive Event :=
| EvStderr (msg : string)
| EvMPI_Init
| EvMPI_Comm_size
| EvMPI_Comm_rank
| EvMPI_Abort (err : Z)
| EvReadData
| EvComputeGA (rank : Z)
| EvPrintLocal (rank : Z) (fitness : Q) (generations : Z) (time : Q)
| EvRecv (source tag : Z)
| EvSend (dest tag : Z)
| EvPrintGlobal (rank : Z) (r : RunResult)
| EvMPI_Finalize.

Inductive Exit :=
| Return (code : Z)
| Aborted              (* MPI_Abort in my_abort *)
| UndefinedBehaviour.

(** What the process finds around it. *)
Record MPIEnv := {
  argc : Z;
  MPI_Init_ok : bool;
  MPI_Comm_size_ok : bool;
  MPI_Comm_rank_ok : bool;
  commSize : Z;
  commRank : Z;
  input_file : option (list (Q * Q));
  indeterminate : Q
}.

Section MPI.
Context (cfg : Config).
(** [computeGA] is defined in the CUDA part; here it is the function that
    gives, for the points and the rank, the results it stores. *)
Context (computeGA : list Q → Z → RunResult).

Abbreviation L := (INDIVIDUAL_LEN cfg).

(** [MPI_Recv(&buf[at], count, ...)] of the values [data]. *)
Definition recv_into (buf : list Q) (at_ count : Z) (data : list Q)
    : option (list Q) :=
  for_ 0 count 1 (λ k buf,
    v ← rd data k;
    wr buf (at_ + k) v) buf.

(** The receive loop of the master; [sent i] is what rank [i] sends. *)
Definition recv_loop (commSize : Z) (sent : Z → RunResult) (g : Gathered)
    : option Gathered :=
  for_ 1 commSize 1 (λ i g,
    sol ← recv_into (solution_all g) (i * L) L (solution_o (sent i));
    fit ← wr (bestFitness_all g) i (bestFitness_o (sent i));
    tim ← wr (time_all g) i (time_o (sent i));
    gen ← wr (genNumber_all g) i (genNumber_o (sent i));
    Some {| solution_all := sol; bestFitness_all := fit;
            time_all := tim; genNumber_all := gen |}) g.

(** copy your own results *)
Definition copy_own (masterProcess : Z) (own : RunResult) (g : Gathered)
    : option Gathered :=
  sol ← for_ 0 L 1 (λ i sol,
           v ← rd (solution_o own) i;
           wr sol (masterProcess + i) v) (solution_all g);
  fit ← wr (bestFitness_all g) masterProcess (bestFitness_o own);
  tim ← wr (time_all g) masterProcess (time_o own);
  gen ← wr (genNumber_all g) masterProcess (genNumber_o own);
  Some {| solution_all := sol; bestFitness_all := fit;
          time_all := tim; genNumber_all := gen |}.

Definition master_gather (commSize : Z) (indet : Q) (own : RunResult)
    (sent : Z → RunResult) : option Gathered :=
  let masterProcess := 0 in
  let g := {| solution_all := new_array indet (L * commSize);
              bestFitness_all := new_array indet commSize;
              time_all := new_array indet commSize;
              genNumber_all := replicate (Z.to_nat commSize) 0 |} in
  g ← recv_loop commSize sent g;
  copy_own masterProcess own g.

(** find best solution amongst obtained results and print it *)
Definition best_of (commSize : Z) (g : Gathered) : option (Z * RunResult) :=
  bestSolution ← findMinimum (bestFitness_all g) commSize;
  sol ← for_ 0 L 1 (λ i out,
           v ← rd (solution_all g) (bestSolution * L + i);
           Some (out ++ [v])) [];
  fit ← rd (bestFitness_all g) bestSolution;
  gen ← rd (genNumber_all g) bestSolution;
  tim ← rd (time_all g) bestSolution;
  Some (bestSolution,
        {| solution_o := sol; bestFitness_o := fit;
           time_o := tim; genNumber_o := gen |}).

(** The master's result for the results of all the ranks. *)
Definition global_result (commSize : Z) (indet : Q) (sent : Z → RunResult)
    : option (Z * RunResult) :=
  g ← master_gather commSize indet (sent 0) sent;
  best_of commSize g.

Definition recv_events (commSize : Z) : list Event :=
  i ← seqZ 1 (commSize - 1);
  [EvRecv i 11; EvRecv i 22; EvRecv i 33; EvRecv i 44].

Definition send_events : list Event :=
  [EvSend 0 11; EvSend 0 22; EvSend 0 33; EvSend 0 44].

(** The part of main after the check of the number of processes. *)
Definition mpi_main_run (env : MPIEnv) : list Event * Exit :=
  match readData (input_file env) (N_POINTS cfg) (indeterminate env) with
  | None => ([EvReadData], UndefinedBehaviour)
  | Some None =>
      ([EvReadData; EvStderr "Error while opening the file"], Return (-1))
  | Some (Some points) =>
      let own := computeGA points (commRank env) in
      let pre :=
        [EvReadData; EvComputeGA (commRank env);
         EvPrintLocal (commRank env) (bestFitness_o own)
           (genNumber_o own) (time_o own)] in
      if commRank env =? 0 then
        match
          g ← master_gather (commSize env) (indeterminate env) own
                 (computeGA points);
          best_of (commSize env) g
        with
        | Some (rank, r) =>
            (pre ++ recv_events (commSize env)
                 ++ [EvPrintGlobal rank r; EvMPI_Finalize], Return 0)
        | None => (pre ++ recv_events (commSize env), UndefinedBehaviour)
        end
      else (pre ++ send_events ++ [EvMPI_Finalize], Return 0)
  end.

Definition mpi_main (env : MPIEnv) : list Event * Exit :=
  if negb (argc env =? 2) then
    ([EvStderr "Usage: $mpirun -np N ./gpu inputFile"], Return (-1))
  else if negb (MPI_Init_ok env) then
    ([EvMPI_Init; EvStderr "MPI error"; EvMPI_Abort (-1)], Aborted)
  else if negb (MPI_Comm_size_ok env) then
    ([EvMPI_Init; EvMPI_Comm_size; EvStderr "MPI error"; EvMPI_Abort (-1)],
     Aborted)
  else if negb (MPI_Comm_rank_ok env) then
    ([EvMPI_Init; EvMPI_Comm_size; EvMPI_Comm_rank; EvStderr "MPI error";
      EvMPI_Abort (-1)], Aborted)
  else
    let pre := [EvMPI_Init; EvMPI_Comm_size; EvMPI_Comm_rank] in
    if commSize env >? 4 then
      (pre ++ [EvStderr "Cannot run with more than 4 processes!"], Return (-1))
    else
      let '(evs, ex) := mpi_main_run env in (pre ++ evs, ex).

End MPI.

(** * The vocabulary of the properties *)

(** ** Views of the arrays *)

(** The individual [i] of a population array, and the points of the
    array [points] (the x values first, then the y values). *)
Definition genes_of (cfg : Config) (individuals : list Q) (i : Z) : list Q :=
  take (Z.to_nat (INDIVIDUAL_LEN cfg))
       (drop (Z.to_nat (i * INDIVIDUAL_LEN cfg)) individuals).

Definition point_set (cfg : Config) (points : list Q) : list (Q * Q) :=
  zip (take (Z.to_nat (N_POINTS cfg)) points)
      (take (Z.to_nat (N_POINTS cfg)) (drop (Z.to_nat (N_POINTS cfg)) points)).

(** ** The score of an individual *)

Definition Qsum (l : list Q) : Q := foldr Qplus 0%Q l.

(** The value of the polynomial with the coefficients [genes], lowest
    order first, at [x]. *)
Definition poly_value (genes : list Q) (x : Q) : Q :=
  Qsum (imap (λ k g, g * Qpower x (Z.of_nat k))%Q genes).

(** Score = sum over all points of (sum over k of gene[k]*x^k - y)^2. *)
Definition score (genes : list Q) (pts : list (Q * Q)) : Q :=
  Qsum (map (λ p, Qpower (poly_value genes p.1 - p.2) 2) pts).

(** ** The draws and what mutation adds *)

(** The draws of [rand()] lie between 0 and [RAND_MAX]. *)
Definition rand_range (cfg : Config) (rnd : list Z) : Prop :=
  Forall (λ r, 0 <= r <= Z.pos (RAND_MAX cfg)) rnd.

(** The draws of [random()] are not negative. *)
Definition random_range (rnd : list Z) : Prop :=
  Forall (λ r, 0 <= r < 2 ^ 31) rnd.

(** [g'] is [g], or [g] plus the value made from a draw that is [good]. *)
Definition changed_by (cfg : Config) (good : Z → Prop) (g g' : Q) : Prop :=
  g' = g ∨
  ∃ r, good r ∧ g' = (g + mutation_delta (r # RAND_MAX cfg))%Q.

Section Vocabulary.
Context (cfg : Config).
Abbreviation P := (POPULATION_SIZE cfg).
Abbreviation L := (INDIVIDUAL_LEN cfg).

(** What the loops of [mutation] keep true: [b0] is the array at the call,
    [from] the first index not yet visited, [good] a property of the
    draws that are still to come. *)
Definition mutation_inv (good : Z → Prop) (b0 : list Q) (from : Z)
    (st : list Q * list Z) : Prop :=
  Forall good st.2 ∧
  length st.1 = length b0 ∧
  (∀ idx, idx < L ∨ from <= idx → rd st.1 idx = rd b0 idx) ∧
  (∀ idx g g', rd b0 idx = Some g → rd st.1 idx = Some g' →
     changed_by cfg good g g').

(** ** crossover *)

(** The two children stored at [i] and [i + L]: before the crosspoint
    [c] the first child reads the offset [p1] and the second [p2], from
    the crosspoint on the other way round. *)
Definition children_at (old b : list Q) (i p1 p2 c : Z) : Prop :=
  ∀ j, 0 <= j < L →
    rd b (i + j) = rd old ((if j <? c then p1 else p2) * L + j) ∧
    rd b (i + j + L) = rd old ((if j <? c then p2 else p1) * L + j).

(** One pass of the second loop: what the three draws decide. *)
Definition pair_made (old b : list Q) (i : Z) : Prop :=
  ∃ r1 r2 r3 : Z,
    let m1 := Z.rem r1 (Z.quot P 2) in
    let m2 := Z.rem r2 (Z.quot P 2) in
    let crosspoint := Z.rem r3 (L - 2) + 1 in
    0 <= m1 < Z.quot P 2 ∧ 0 <= m2 < Z.quot P 2 ∧
    1 <= crosspoint <= L - 2 ∧
    children_at old b i (m1 * L) (m2 * L) crosspoint.

(** ** selection *)

(** [order] lists, for every position of the output, the index of the
    individual of the input that is stored there. *)
Definition reordered_by (order : list Z) (population out : list Q) : Prop :=
  ∀ i k j, 0 <= i < P → rd order i = Some k → 0 <= j < L →
    rd out (i * L + j) = rd population (k * L + j).

(** ** The loop *)

(** The arrays of the loop hold a whole population. *)
Definition buffers_fit (st : GAState) : Prop :=
  P * L <= Z.of_nat (length (population st)) ∧
  P * L <= Z.of_nat (length (newPopulation st)).

(** ** The gather *)



End Vocabulary.

(** The fitness values do not decrease along [order]. *)
Definition nondecreasing_along (order : list Z) (fitnesses : list Q) : Prop :=
  ∀ i i' k k' f f', 0 <= i < i' →
    rd order i = Some k → rd order i' = Some k' →
    rd fitnesses k = Some f → rd fitnesses k' = Some f' → (f <= f')%Q.



(** For a comparator [comp]: [x] is not after [y]. *)
Definition not_after {A} (comp : A → A → bool) (x y : A) : Prop :=
  comp y x = false.

#[export] Instance not_after_dec {A} (comp : A → A → bool) x y :
  Decision (not_after comp x y) :=
  decide (comp y x = false).

(** ** The Box-Muller rejection loop *)

(** ** The messages of a trace *)

(** The tags of the receives from [source], and of the sends, in the
    order of the trace. *)
Definition recv_tags (source : Z) (trace : list Event) : list Z :=
  omap (λ ev, match ev with
              | EvRecv s t => if s =? source then Some t else None
              | _ => None
              end) trace.

Definition send_tags (trace : list Event) : list Z :=
  omap (λ ev, match ev with EvSend _ t => Some t | _ => None end) trace.

(** The process has a file name on its command line, the three MPI calls
    at the start of main succeed, and the file holds at most [N_POINTS]
    pairs. *)
Definition mpi_started (cfg : Config) (env : MPIEnv) : Prop :=
  argc env = 2 ∧ MPI_Init_ok env = true ∧ MPI_Comm_size_ok env = true ∧
  MPI_Comm_rank_ok env = true ∧
  ∃ pairs, input_file env = Some pairs ∧
           Z.of_nat (length pairs) <= N_POINTS cfg.

(** ** Implementations of std::sort *)

(** A merge sort. *)
#[local] Instance merge_StdSort : StdSortFn := {|
  std_sort A comp l := merge_sort (not_after comp) l
|}.

(** [std::sort] as GNU libstdc++ implements it ([bits/stl_algo.h] and
    [bits/stl_heap.h]; the makefile builds with g++): an introsort loop
    that partitions around a median of three until the ranges hold at
    most 16 elements, with a heap sort when the depth limit is reached,
    then an insertion sort.  The functions are the library's, on the
    array as a list; [None] where an iterator leaves the range (the
    library requires a strict weak ordering of its caller). *)
Section Libstdcxx.
Context {A : Type} (comp : A → A → bool).

























End Libstdcxx.


(** ** Data of the concrete runs *)

(** A configuration with the given sizes; the deviates of [nrand] have
    standard deviation 0, so that a run does not depend on the value of
    [libm_factor]. *)
Definition sized_config (population_size individual_len n_points : Z)
    (mu_ind : Q) : Config :=
  {| POPULATION_SIZE := population_size;
     INDIVIDUAL_LEN := individual_len;
     N_POINTS := n_points;
     mu_individuals := mu_ind;
     sigma_individuals := 0;
     mu_genes := 0;
     sigma_genes := 0;
     maxGenerationNumber := 10;
     maxConstIter := 5;
     targetErr := 0;
     RAND_MAX := 2147483647 |}.

(** The array that holds its own index at every index. *)
Definition index_array (n : Z) : list Q := inject_Z <$> seqZ 0 n.

(** The state before the first generation of a run with 4 individuals of
    4 genes and the single point (1, 0): the individual at index 1 is the
    polynomial 0, which passes through the point. *)
Definition unranked_state : GAState :=
  {| population := [1; 0; 0; 0;  0; 0; 0; 0;  2; 0; 0; 0;  3; 0; 0; 0]%Q
                   ++ replicate 48 0%Q;
     newPopulation := replicate 64 0%Q;
     current_fitnesses := replicate 4 0%Q;
     generationNumber := 0;
     noChangeIter := 0;
     bestFitness := PInf;
     previousBestFitness := PInf;
     random_s := replicate 6 0;
     rand_s := replicate 60 1073741823 |}.

(** Three processes with the fitness values 0.5, 0.1 and 0.9. *)
Definition three_workers (rank : Z) : RunResult :=
  if rank =? 0 then
    {| solution_o := [1; 1; 1; 1]%Q; bestFitness_o := 5 # 10;
       time_o := 3; genNumber_o := 100 |}
  else if rank =? 1 then
    {| solution_o := [1; 2; 3; 4]%Q; bestFitness_o := 1 # 10;
       time_o := 2; genNumber_o := 70 |}
  else
    {| solution_o := [0; 2; 0; 4]%Q; bestFitness_o := 9 # 10;
       time_o := 4; genNumber_o := 120 |}.

(** A configuration that allows no generation. *)
Definition no_generation_config : Config :=
  {| POPULATION_SIZE := 4;
     INDIVIDUAL_LEN := 4;
     N_POINTS := 1;
     mu_individuals := 0;
     sigma_individuals := 0;
     mu_genes := 0;
     sigma_genes := 0;
     maxGenerationNumber := 0;
     maxConstIter := 5;
     targetErr := 0;
     RAND_MAX := 2147483647 |}.

(** Three processes: the master and two workers, all with the same file
    of one point. *)
Definition process_of_three (rank : Z) : MPIEnv :=
  {| argc := 2; MPI_Init_ok := true; MPI_Comm_size_ok := true;
     MPI_Comm_rank_ok := true; commSize := 3; commRank := rank;
     input_file := Some [(1, 0)%Q]; indeterminate := 0 |}.

(** * The operators in IEEE 754 arithmetic

    The operators whose results depend on how the machine rounds, once
    more, with the arithmetic of the source: [float] is IEEE 754 binary32
    and [double] binary64, with round to nearest, ties to even, on the
    values of the Standard Library's [SpecFloat]; every operation is
    carried out in the type C++ gives it and every assignment to a
    [float] rounds.  The functions of the C maths library are parameters
    ([Libm]), except [sqrt], which IEEE 754 fixes. *)
Module IEEE.

Import SpecFloat.

Definition float : Type := spec_float.    (* binary32 *)
Definition double : Type := spec_float.   (* binary64 *)

(** The operations on [float]. *)
Definition f_add : float → float → float := SFadd 24 128.
Definition f_sub : float → float → float := SFsub 24 128.
Definition f_mul : float → float → float := SFmul 24 128.
Definition f_div : float → float → float := SFdiv 24 128.

(** The operations on [double]. *)
Definition d_add : double → double → double := SFadd 53 1024.
Definition d_mul : double → double → double := SFmul 53 1024.
Definition d_div : double → double → double := SFdiv 53 1024.
Definition d_sqrt : double → double := SFsqrt 53 1024.

(** [a < b] and [a >= b]; both are false when an operand is NaN. *)
Definition ltb (a b : spec_float) : bool := SFltb a b.
Definition geb (a b : spec_float) : bool := SFleb b a.

(** The value of [x] in the format of precision [prec]. *)
Definition round_to (prec emax : Z) (x : spec_float) : spec_float :=
  match x with
  | S754_finite s m e => binary_round prec emax s m e
  | _ => x
  end.

(** The conversions: [float] to [double] is exact, [double] to [float]
    rounds. *)
Definition to_double (x : float) : double := round_to 53 1024 x.
Definition to_float (x : double) : float := round_to 24 128 x.

(** [int] to [float] and to [double]. *)
Definition of_int (z : Z) : float := binary_normalize 24 128 z 0 false.
Definition d_of_int (z : Z) : double := binary_normalize 53 1024 z 0 false.

(** [float] to [int]: the fraction is dropped; there is no defined
    result for a NaN, an infinity or a value outside of [int]. *)
Definition to_int (x : float) : option Z :=
  match x with
  | S754_zero _ => Some 0
  | S754_finite s m e =>
      let z := cond_Zopp s (if 0 <=? e then Z.pos m * 2 ^ e
                            else Z.pos m / 2 ^ (- e)) in
      if (- 2 ^ 31 <=? z) && (z <? 2 ^ 31) then Some z else None
  | _ => None
  end.

(** The literal [0.01]: the [double] nearest to 1/100. *)
Definition d_0_01 : double := d_div (d_of_int 1) (d_of_int 100).

(** The functions of the C maths library that the operators call:
    [pow(x, n)] for a [double] [x] and an [int] [n] (C++ converts both
    arguments of [pow(float, int)] to [double]), and [log] on [float]. *)
Record Libm := {
  pow : double → Z → double;
  log : float → float
}.

(** The constants of [config.h] that are passed to [nrand], as the
    [float] values of its parameters. *)
Record Noise := {
  mu_individuals : float;
  sigma_individuals : float;
  mu_genes : float;
  sigma_genes : float
}.

Section Operators.
Context (cfg : Config) (libm : Libm) (noise : Noise).

Abbreviation P := (POPULATION_SIZE cfg).
Abbreviation L := (INDIVIDUAL_LEN cfg).
Abbreviation NP := (N_POINTS cfg).

(** ** fitness *)

(** [f_approx += individuals[i*INDIVIDUAL_LEN + order] * pow(points[pt],
    order)]: product and sum in [double], stored as [float]. *)
Definition f_approx_loop (individuals points : list float) (i pt : Z)
    : option float :=
  for_ 0 L 1 (λ order f_approx,
    c ← rd individuals (i * L + order);
    x ← rd points pt;
    Some (to_float (d_add (to_double f_approx)
                      (d_mul (to_double c) (pow libm (to_double x) order)))))
    (of_int 0).

(** [sumError += pow(f_approx - points[N_POINTS+pt], 2)]: the difference
    in [float], its square and the sum in [double], stored as [float]. *)
Definition sumError_loop (individuals points : list float) (i : Z)
    : option float :=
  for_ 0 NP 1 (λ pt sumError,
    f_approx ← f_approx_loop individuals points i pt;
    y ← rd points (NP + pt);
    Some (to_float (d_add (to_double sumError)
                      (pow libm (to_double (f_sub f_approx y)) 2))))
    (of_int 0).

Definition fitness (individuals points current_fitnesses : list float)
    : option (list float) :=
  for_ 0 P 1 (λ i current_fitnesses,
    sumError ← sumError_loop individuals points i;
    wr current_fitnesses i sumError) current_fitnesses.

(** ** Random numbers: frand, stdrand, nrand *)

(** [float(rand())/RAND_MAX] *)
Definition frand (rnd : list Z) : option (float * list Z) :=
  '(r, rnd) ← draw rnd;
  Some (f_div (of_int r) (of_int (Z.pos (RAND_MAX cfg))), rnd).

(** [V1 = -1.0 + 2.0*U1], in [double], stored as [float]. *)
Definition box_V (r : Z) : float :=
  let U := f_div (of_int r) (of_int (Z.pos (RAND_MAX cfg))) in
  to_float (d_add (d_of_int (-1)) (d_mul (d_of_int 2) (to_double U))).

(** [S = pow(V1,2) + pow(V2,2)], in [double], stored as [float]. *)
Definition box_S (r1 r2 : Z) : float :=
  to_float (d_add (pow libm (to_double (box_V r1)) 2)
                  (pow libm (to_double (box_V r2)) 2)).

(** [X1 = V1 * sqrt((-2.0*log(S))/S)], in [double] but for [log], stored
    as [float]. *)
Definition box_X (r1 r2 : Z) : float :=
  let S := box_S r1 r2 in
  to_float (d_mul (to_double (box_V r1))
              (d_sqrt (d_div (d_mul (d_of_int (-2)) (to_double (log libm S)))
                             (to_double S)))).

(** The rejection loop of the Box-Muller transform.  Every pass takes two
    draws; the stream of draws is the fuel.  The loop goes on while
    [S >= 1], so that it ends also when [S] is a NaN. *)
Fixpoint stdrand (rnd : list Z) : option (float * list Z) :=
  match rnd with
  | r1 :: r2 :: rnd' =>
      if geb (box_S r1 r2) (of_int 1) then stdrand rnd'
      else Some (box_X r1 r2, rnd')
  | _ => None
  end.

Definition nrand (mu sigma : float) (rnd : list Z)
    : option (float * list Z) :=
  '(X, rnd) ← stdrand rnd;
  Some (f_add mu (f_mul sigma X), rnd).

(** ** mutation *)

(** [0.01*(2*frand()-1)] for the value [f] of [frand()]: [2*f-1] in
    [float], the product in [double]. *)
Definition mutation_delta (f : float) : double :=
  d_mul d_0_01 (to_double (f_sub (f_mul (of_int 2) f) (of_int 1))).

(** [g += delta] on a [float] [g]. *)
Definition add_delta (g : float) (delta : double) : float :=
  to_float (d_add (to_double g) delta).

Definition mutation_gene (i mutNumber j : Z) (st : list float * list Z)
    : option (list float * list Z) :=
  let '(individuals, rnd) := st in
  let idx := i * L + j in
  '(g, rnd) ← nrand (mu_genes noise) (sigma_genes noise) rnd;
  if ltb g (of_int mutNumber) then
    '(f, rnd) ← frand rnd;
    old ← rd individuals idx;
    individuals ← wr individuals idx (add_delta old (mutation_delta f));
    Some (individuals, rnd)
  else Some (individuals, rnd).

Definition mutation_individual (i : Z) (st : list float * list Z)
    : option (list float * list Z) :=
  let '(individuals, rnd) := st in
  '(m, rnd) ← nrand (mu_individuals noise) (sigma_individuals noise) rnd;
  mutNumber ← to_int m;
  for_ 0 L 1 (mutation_gene i mutNumber) (individuals, rnd).

Definition mutation (individuals : list float) (rnd : list Z)
    : option (list float * list Z) :=
  for_ 1 P 1 mutation_individual (individuals, rnd).

End Operators.

(** ** The vocabulary of the properties *)

Section Vocabulary.
Context (cfg : Config) (libm : Libm).

(** The individual [i] of a population array, and the points of the
    array [points]. *)
Definition genes_of (individuals : list float) (i : Z) : list float :=
  take (Z.to_nat (INDIVIDUAL_LEN cfg))
       (drop (Z.to_nat (i * INDIVIDUAL_LEN cfg)) individuals).

Definition point_set (points : list float) : list (float * float) :=
  zip (take (Z.to_nat (N_POINTS cfg)) points)
      (take (Z.to_nat (N_POINTS cfg)) (drop (Z.to_nat (N_POINTS cfg)) points)).

(** The polynomial of the genes at [x], accumulated in single precision
    from the lowest order on. *)
Definition poly_step (x f_approx : float) (order : Z) (c : float) : float :=
  to_float (d_add (to_double f_approx)
              (d_mul (to_double c) (pow libm (to_double x) order))).

Definition poly_float (genes : list float) (x : float) : float :=
  fold_left (λ f_approx kc, poly_step x f_approx kc.1 kc.2)
            (imap (λ k c, (Z.of_nat k, c)) genes) (of_int 0).

(** The squared residuals of the genes, accumulated in single precision
    in the order of the points. *)
Definition score_step (genes : list float) (sumError : float)
    (p : float * float) : float :=
  to_float (d_add (to_double sumError)
              (pow libm (to_double (f_sub (poly_float genes p.1) p.2)) 2)).

Definition score_float (genes : list float) (pts : list (float * float))
    : float :=
  fold_left (score_step genes) pts (of_int 0).

(** A stretch of draws that is a sequence of pairs with [S >= 1]. *)
Fixpoint all_rejected (l : list Z) : Prop :=
  match l with
  | [] => True
  | r1 :: r2 :: l' =>
      geb (box_S cfg libm r1 r2) (of_int 1) = true ∧ all_rejected l'
  | _ => False
  end.

(** [g'] is [g], or [g] plus the delta made from a draw [r] that is
    [good], rounded to [float]. *)
Definition changed_by (good : Z → Prop) (g g' : float) : Prop :=
  g' = g ∨
  ∃ r, good r ∧
    g' = add_delta g (mutation_delta
                        (f_div (of_int r) (of_int (Z.pos (RAND_MAX cfg))))).

(** What the loops of [mutation] keep true: [b0] is the array at the call,
    [from] the first index not yet visited, [good] a property of the
    draws that are still to come. *)
Definition mutation_inv (good : Z → Prop) (b0 : list float) (from : Z)
    (st : list float * list Z) : Prop :=
  Forall good st.2 ∧
  length st.1 = length b0 ∧
  (∀ idx, idx < INDIVIDUAL_LEN cfg ∨ from <= idx → rd st.1 idx = rd b0 idx) ∧
  (∀ idx g g', rd b0 idx = Some g → rd st.1 idx = Some g' →
     changed_by good g g').

End Vocabulary.

(** [x] is a number: a zero or a finite value. *)
Definition is_number (x : spec_float) : Prop :=
  match x with
  | S754_zero _ | S754_finite _ _ _ => True
  | _ => False
  end.

(** The number that a finite [x] stands for. *)
Definition exact (x : spec_float) : Q :=
  match x with
  | S754_finite s m e => (inject_Z (cond_Zopp s (Z.pos m)) * Qpower 2 e)%Q
  | _ => 0%Q
  end.

(** [x] is a NaN or has the sign [s]. *)
Definition sign_or_nan (s : bool) (x : spec_float) : Prop :=
  match x with
  | S754_nan => True
  | S754_zero s' | S754_infinity s' | S754_finite s' _ _ => s' = s
  end.

(** [x] is a NaN or has a clear sign bit: it does not compare less than
    zero, and is not the negative zero. *)
Definition not_negative (x : spec_float) : Prop := sign_or_nan false x.

(** [x] is a number whose magnitude is at most the value of [c]. *)
Definition at_most (x c : spec_float) : Prop :=
  is_number x ∧ (Qabs (exact x) <= exact c)%Q.

(** The conversion of the [int] [z] to [float] does not round it down, as
    it is for 32767 and for 2147483647, which becomes 2^31. *)
Definition not_rounded_down (z : Z) : Prop :=
  (inject_Z z <= exact (of_int z))%Q.

(** ** The vocabulary of the rounding bounds *)

(** The round or the sticky bit of a shifted mantissa is set. *)
Definition inexact (mrs : shr_record) : bool := shr_r mrs || shr_s mrs.

(** [y] is [x] after [k] halvings: the mantissa is divided by [2 ^ k],
    and a round or sticky bit is set only when something was cut off or
    was set before. *)
Definition halved (k : Z) (x y : shr_record) : Prop :=
  0 <= shr_m y ∧ shr_m y = shr_m x / 2 ^ k ∧
  (inexact y = true → shr_m x `mod` 2 ^ k ≠ 0 ∨ inexact x = true).

(** What the rounding to nearest can add to a mantissa. *)
Definition slack (lx : location) : Z := if lx is loc_Exact then 0 else 1.

(** [m * 2 ^ e <= M * 2 ^ E], compared at the lower of the two
    exponents. *)
Definition le_scaled (m e M E : Z) : Prop :=
  m * 2 ^ (e - Z.min e E) <= M * 2 ^ (E - Z.min e E).

(** [x] is a number of magnitude at most [M * 2 ^ E]. *)
Definition bounded_by (x : spec_float) (M E : Z) : Prop :=
  match x with
  | S754_zero _ => True
  | S754_finite _ m e => le_scaled (Z.pos m) e M E
  | _ => False
  end.

(** ** A stand-in for [pow] in the concrete runs *)

(** The power [x^n] for an [int] [n >= 0], rounded once to [double]; for
    the arguments of the concrete runs the power is a [double], so that
    it is what every [pow] that is correct to less than one unit in the
    last place returns. *)
Definition pow_rounded (x : double) (n : Z) : double :=
  if n <=? 0 then d_of_int 1
  else
    match x with
    | S754_finite s m e =>
        binary_normalize 53 1024 (cond_Zopp s (Z.pos m) ^ n) (e * n) false
    | S754_zero s => S754_zero (s && Z.odd n)
    | S754_infinity s => S754_infinity (s && Z.odd n)
    | S754_nan => S754_nan
    end.

(** ** The data of the concrete runs *)

(** The maths library of the runs: [pow_rounded], and for [log] the
    [float] nearest to the logarithm of 0.25, which is the only argument
    the runs pass to it. *)
Definition run_libm : Libm :=
  {| pow := pow_rounded;
     log := λ _, S754_finite true 11629080 (-23) |}.

(** Every individual is to have 5 genes mutated at most, and every gene
    is below that number: the deviates have standard deviation 0. *)
Definition run_noise : Noise :=
  {| mu_individuals := of_int 5;
     sigma_individuals := of_int 0;
     mu_genes := of_int 0;
     sigma_genes := of_int 0 |}.

(** The genes 1, 2^-24, -2^-24, 0: the polynomial takes the value 1 at
    1. *)
Definition cancelling_genes : list float :=
  [of_int 1; S754_finite false 1 (-24); S754_finite true 1 (-24); of_int 0].

End IEEE.

(** * Properties *)

(** ** Array accesses *)

Lemma rd_Some {A} (buf : list A) i v :
  rd buf i = Some v ↔ 0 <= i ∧ buf !! Z.to_nat i = Some v.
Proof.
  unfold rd. destruct (Z.leb_spec 0 i).
  - split; [by intros | by intros [_ ?]].
  - split; [discriminate | intros [? _]; lia].
Qed.

Lemma rd_in_range {A} (buf : list A) i :
  0 <= i < Z.of_nat (length buf) → is_Some (rd buf i).
Proof.
  intros Hi. unfold rd. destruct (Z.leb_spec 0 i); [|lia].
  apply lookup_lt_is_Some. lia.
Qed.


Lemma wr_Some {A} (buf : list A) i v buf' :
  wr buf i v = Some buf' ↔
  0 <= i < Z.of_nat (length buf) ∧ buf' = <[Z.to_nat i := v]> buf.
Proof.
  unfold wr.
  destruct (Z.leb_spec 0 i), (Z.ltb_spec i (Z.of_nat (length buf))); simpl;
    split; intros HH; try (destruct HH; lia); try discriminate.
  - inversion HH. split; [lia | done].
  - destruct HH as [_ ->]. done.
Qed.

Lemma wr_in_range {A} (buf : list A) i v :
  0 <= i < Z.of_nat (length buf) → wr buf i v = Some (<[Z.to_nat i := v]> buf).
Proof. intros. by apply wr_Some. Qed.

Lemma wr_length {A} (buf : list A) i v buf' :
  wr buf i v = Some buf' → length buf' = length buf.
Proof. intros [_ ->]%wr_Some. apply length_insert. Qed.

Lemma rd_wr_eq {A} (buf : list A) i v buf' :
  wr buf i v = Some buf' → rd buf' i = Some v.
Proof.
  intros [Hi ->]%wr_Some. apply rd_Some. split; [lia|].
  apply list_lookup_insert_eq. lia.
Qed.

Lemma rd_wr_ne {A} (buf : list A) i j v buf' :
  wr buf i v = Some buf' → i ≠ j → rd buf' j = rd buf j.
Proof.
  intros [Hi ->]%wr_Some Hne. unfold rd.
  destruct (Z.leb_spec 0 j); [|done].
  apply list_lookup_insert_ne. lia.
Qed.

(** Two arrays that agree at every index are equal. *)
Lemma rd_ext {A} (l1 l2 : list A) :
  (∀ i, rd l1 i = rd l2 i) → l1 = l2.
Proof.
  intros Hrd. apply list_eq. intros n.
  specialize (Hrd (Z.of_nat n)). unfold rd in Hrd.
  destruct (Z.leb_spec 0 (Z.of_nat n)); [|lia].
  by rewrite Nat2Z.id in Hrd.
Qed.

Lemma rd_ext_length {A} (l1 l2 : list A) :
  length l1 = length l2 →
  (∀ i, 0 <= i < Z.of_nat (length l1) → rd l1 i = rd l2 i) →
  l1 = l2.
Proof.
  intros Hlen Hrd. apply rd_ext. intros i.
  destruct (decide (0 <= i < Z.of_nat (length l1))) as [Hi|Hi]; [by apply Hrd|].
  unfold rd. destruct (Z.leb_spec 0 i); [|done].
  rewrite !lookup_ge_None_2; [done | lia | lia].
Qed.

(** ** Comparisons on Q *)

Lemma Qltb_lt x y : Qltb x y = true ↔ (x < y)%Q.
Proof.
  unfold Qltb. rewrite negb_true_iff, <- not_true_iff_false, Qle_bool_iff.
  split; [apply Qnot_le_lt | apply Qlt_not_le].
Qed.

Lemma Qltb_ge x y : Qltb x y = false ↔ (y <= x)%Q.
Proof.
  unfold Qltb. rewrite negb_false_iff. apply Qle_bool_iff.
Qed.

(** ** for loops *)

Lemma for_fuel_inv {St} (Inv : Z → St → Prop) fuel i hi step
    (body : Z → St → option St) s s' :
  0 < step → hi - i <= Z.of_nat fuel →
  Inv i s →
  (∀ k t t', i <= k < hi → Inv k t → body k t = Some t' → Inv (k + step) t') →
  for_fuel fuel i hi step body s = Some s' →
  ∃ k, hi <= k ∧ Inv k s'.
Proof.
  intros Hstep. revert i s.
  induction fuel as [|fuel IH]; intros i s Hfuel Hinv Hbody; simpl.
  - destruct (Z.ltb_spec i hi); [discriminate|].
    intros [= <-]. eauto.
  - destruct (Z.ltb_spec i hi); [|intros [= <-]; eauto].
    intros (t & Ht & Hrest)%bind_Some.
    apply (IH (i + step) t);
      [lia | eapply (Hbody i); [lia | exact Hinv | exact Ht] | | done].
    intros k u u' Hk. apply Hbody. lia.
Qed.

(** The invariant rule for a loop that counts up by one. *)
Lemma for_inv {St} (Inv : Z → St → Prop) lo hi
    (body : Z → St → option St) s s' :
  lo <= hi →
  Inv lo s →
  (∀ k t t', lo <= k < hi → Inv k t → body k t = Some t' → Inv (k + 1) t') →
  for_ lo hi 1 body s = Some s' →
  Inv hi s'.
Proof.
  intros Hle Hinv Hbody Hfor.
  assert (∃ k, hi <= k ∧ Inv k s' ∧ k <= hi) as (k & Hk & Hi & Hk').
  { eapply (for_fuel_inv (λ k t, Inv k t ∧ k <= hi)); [| | | | exact Hfor].
    - lia.
    - lia.
    - by split.
    - intros k t t' Hk [Hi _] Hb. split; [eauto | lia]. }
  by replace hi with k by lia.
Qed.

Lemma for_fuel_total {St} (Inv : Z → St → Prop) fuel i hi step
    (body : Z → St → option St) s :
  0 < step → hi - i <= Z.of_nat fuel →
  Inv i s →
  (∀ k t, i <= k < hi → Inv k t →
     ∃ t', body k t = Some t' ∧ Inv (k + step) t') →
  ∃ s' k, for_fuel fuel i hi step body s = Some s' ∧ hi <= k ∧ Inv k s'.
Proof.
  intros Hstep. revert i s.
  induction fuel as [|fuel IH]; intros i s Hfuel Hinv Hbody; simpl.
  - destruct (Z.ltb_spec i hi); [lia|]. eauto.
  - destruct (Z.ltb_spec i hi); [|eauto].
    destruct (Hbody i s) as (t & -> & Ht); [lia | done |]. simpl.
    apply IH; [lia | done |].
    intros k u Hk. apply Hbody. lia.
Qed.

(** Total correctness of a loop that counts up by one. *)
Lemma for_total {St} (Inv : Z → St → Prop) lo hi
    (body : Z → St → option St) s :
  lo <= hi →
  Inv lo s →
  (∀ k t, lo <= k < hi → Inv k t →
     ∃ t', body k t = Some t' ∧ Inv (k + 1) t') →
  ∃ s', for_ lo hi 1 body s = Some s' ∧ Inv hi s'.
Proof.
  intros Hle Hinv Hbody.
  destruct (for_fuel_total (λ k t, Inv k t ∧ k <= hi)
              (Z.to_nat (hi - lo)) lo hi 1 body s)
    as (s' & k & Hs & Hk & Hi & Hk').
  - lia.
  - lia.
  - by split.
  - intros k t Hk [Hi _]. destruct (Hbody k t Hk Hi) as (t' & ? & ?).
    exists t'. repeat split; auto. lia.
  - exists s'. split; [done|]. by replace hi with k by lia.
Qed.

Lemma for_empty {St} lo hi step (body : Z → St → option St) s :
  hi <= lo → for_ lo hi step body s = Some s.
Proof.
  intros Hle. unfold for_. replace (Z.to_nat (hi - lo)) with O by lia.
  simpl. by destruct (Z.ltb_spec lo hi); [lia|].
Qed.

Lemma for_fuel_ext {St} fuel i hi step (body body' : Z → St → option St) s :
  0 <= step →
  (∀ k t, i <= k < hi → body k t = body' k t) →
  for_fuel fuel i hi step body s = for_fuel fuel i hi step body' s.
Proof.
  intros Hstep. revert i s.
  induction fuel as [|fuel IH]; intros i s Hbody; simpl; [done|].
  destruct (Z.ltb_spec i hi); [|done].
  rewrite Hbody by lia. destruct (body' i s) as [t|]; simpl; [|done].
  apply IH. intros k u Hk. apply Hbody. lia.
Qed.

Lemma for_ext {St} lo hi step (body body' : Z → St → option St) s :
  0 <= step →
  (∀ k t, lo <= k < hi → body k t = body' k t) →
  for_ lo hi step body s = for_ lo hi step body' s.
Proof. intros. by apply for_fuel_ext. Qed.

(** The invariant rule for a loop with a stride. *)
Lemma for_inv_step {St} (Inv : Z → St → Prop) lo hi step
    (body : Z → St → option St) s s' :
  0 < step →
  Inv lo s →
  (∀ k t t', lo <= k < hi → (k - lo) `mod` step = 0 →
     Inv k t → body k t = Some t' → Inv (k + step) t') →
  for_ lo hi step body s = Some s' →
  ∃ k, hi <= k ∧ (k - lo) `mod` step = 0 ∧ Inv k s'.
Proof.
  intros Hstep Hinv Hbody Hfor.
  assert (∃ k, hi <= k ∧ Inv k s' ∧ (k - lo) `mod` step = 0)
    as (k & Hk & Hi & Hmod); [|by eauto].
  eapply (for_fuel_inv (λ k t, Inv k t ∧ (k - lo) `mod` step = 0));
    [| | | | exact Hfor].
  - done.
  - lia.
  - split; [done|]. by rewrite Z.sub_diag.
  - intros k t t' Hk [Hi Hmod] Hb. split; [by eapply Hbody|].
    replace (k + step - lo) with (k - lo + 1 * step) by lia.
    by rewrite Z.mod_add by lia.
Qed.

(** A loop that copies [src k] to index [base + k] of an array. *)
Lemma copy_loop_spec {A} (src : Z → option A) base lo hi buf buf' :
  lo <= hi →
  for_ lo hi 1 (λ k buf, v ← src k; wr buf (base + k) v) buf = Some buf' →
  length buf' = length buf ∧
  (∀ k, lo <= k < hi → rd buf' (base + k) = src k ∧ is_Some (src k)) ∧
  (∀ j, ¬ (base + lo <= j < base + hi) → rd buf' j = rd buf j).
Proof.
  intros Hle Hfor.
  eapply (for_inv (λ n b,
    length b = length buf ∧
    (∀ k, lo <= k < n → rd b (base + k) = src k ∧ is_Some (src k)) ∧
    (∀ j, ¬ (base + lo <= j < base + n) → rd b j = rd buf j)));
    [exact Hle | | | exact Hfor].
  - split; [done|]. split; [intros; lia | done].
  - intros n b b' Hn (Hlen & Hin & Hout) (v & Hv & Hw)%bind_Some.
    split; [|split].
    + rewrite <- Hlen. by eapply wr_length.
    + intros k Hk. destruct (decide (k = n)) as [->|Hne].
      * rewrite Hv. split; [by eapply rd_wr_eq | done].
      * rewrite (rd_wr_ne _ _ _ _ _ Hw) by lia. apply Hin. lia.
    + intros j Hj. rewrite (rd_wr_ne _ _ _ _ _ Hw) by lia. apply Hout. lia.
Qed.

Lemma copy_loop_total {A} (src : Z → option A) base lo hi (buf : list A) :
  lo <= hi →
  (∀ k, lo <= k < hi → is_Some (src k)) →
  0 <= base + lo → base + hi <= Z.of_nat (length buf) →
  is_Some (for_ lo hi 1 (λ k buf, v ← src k; wr buf (base + k) v) buf).
Proof.
  intros Hle Hsrc Hlo Hhi.
  destruct (for_total (λ _ (b : list A), length b = length buf) lo hi
    (λ k buf, v ← src k; wr buf (base + k) v) buf) as (b & Hb & _);
    [done | done | | by rewrite Hb].
  intros k b Hk Hlen. destruct (Hsrc k Hk) as [v Hv].
  exists (<[Z.to_nat (base + k) := v]> b). rewrite Hv. simpl.
  rewrite wr_in_range by lia. by rewrite length_insert.
Qed.


(** ** findMinimum *)


(** ** The gather of the master process *)

Section Gather.
Context (cfg : Config).
Abbreviation L := (INDIVIDUAL_LEN cfg).




End Gather.


(** ** fitness: the sum of the squared residuals *)

Lemma Qsum_snoc l x : (Qsum (l ++ [x]) == Qsum l + x)%Q.
Proof.
  induction l as [|a l IH]; simpl.
  - ring.
  - rewrite IH. ring.
Qed.

Lemma Qsum_nonneg l : Forall (λ x, 0 <= x)%Q l → (0 <= Qsum l)%Q.
Proof.
  induction 1 as [|x l Hx _ IH]; simpl; [apply Qle_refl|].
  replace 0%Q with (0 + 0)%Q by done. by apply Qplus_le_compat.
Qed.

Lemma Qsum_zero l : Forall (λ x, x == 0)%Q l → (Qsum l == 0)%Q.
Proof.
  induction 1 as [|x l Hx _ IH]; simpl; [done|].
  rewrite Hx, IH. ring.
Qed.

(** A loop that adds up the terms [term k]; [ts] lists the terms up to
    equality of rationals. *)
Lemma sum_loop_spec (term : Z → option Q) (ts : list Q) :
  (∀ k, 0 <= k < Z.of_nat (length ts) →
     ∃ t t', term k = Some t ∧ rd ts k = Some t' ∧ (t == t')%Q) →
  ∃ v, for_ 0 (Z.of_nat (length ts)) 1
         (λ k acc, t ← term k; Some (acc + t)%Q) 0%Q = Some v ∧
       (v == Qsum ts)%Q.
Proof.
  intros Hterm.
  destruct (for_total (λ m acc, (acc == Qsum (take (Z.to_nat m) ts))%Q)
    0 (Z.of_nat (length ts)) (λ k acc, t ← term k; Some (acc + t)%Q) 0%Q)
    as (v & Hv & Hinv); [lia | done | |].
  - intros m acc Hm Hacc.
    destruct (Hterm m Hm) as (t & t' & -> & [_ Ht']%rd_Some & Heq).
    simpl. eexists. split; [done|].
    replace (Z.to_nat (m + 1)) with (S (Z.to_nat m)) by lia.
    rewrite (take_S_r _ _ _ Ht'), Qsum_snoc, Hacc, Heq. reflexivity.
  - exists v. split; [done|].
    rewrite Nat2Z.id, firstn_all in Hinv. done.
Qed.

Section Fitness.
Context (cfg : Config).
Abbreviation P := (POPULATION_SIZE cfg).
Abbreviation L := (INDIVIDUAL_LEN cfg).
Abbreviation NP := (N_POINTS cfg).

Lemma length_genes_of individuals i :
  0 <= i → 0 <= L → i * L + L <= Z.of_nat (length individuals) →
  Z.of_nat (length (genes_of cfg individuals i)) = L.
Proof.
  intros Hi HL Hlen. unfold genes_of. rewrite length_take, length_drop. nia.
Qed.

Lemma rd_genes_of individuals i k :
  0 <= i → 0 <= k < L →
  rd (genes_of cfg individuals i) k = rd individuals (i * L + k).
Proof.
  intros Hi Hk. unfold rd, genes_of.
  destruct (Z.leb_spec 0 k), (Z.leb_spec 0 (i * L + k)); try nia.
  rewrite lookup_take_lt by lia. rewrite lookup_drop. f_equal. nia.
Qed.

Lemma length_point_set points :
  0 <= NP → 2 * NP <= Z.of_nat (length points) →
  Z.of_nat (length (point_set cfg points)) = NP.
Proof.
  intros HN Hlen. unfold point_set.
  rewrite length_zip_with, !length_take, length_drop. lia.
Qed.

Lemma rd_point_set points pt x y :
  0 <= pt < NP →
  rd points pt = Some x → rd points (NP + pt) = Some y →
  rd (point_set cfg points) pt = Some (x, y).
Proof.
  intros Hpt [_ Hx]%rd_Some [_ Hy]%rd_Some. apply rd_Some. split; [lia|].
  unfold point_set. rewrite lookup_zip_with.
  rewrite !lookup_take_lt by lia. rewrite lookup_drop.
  replace (Z.to_nat NP + Z.to_nat pt)%nat with (Z.to_nat (NP + pt)) by lia.
  by rewrite Hx, Hy.
Qed.

(** The inner loop evaluates the polynomial of individual [i]. *)
Lemma f_approx_loop_spec individuals points i pt x :
  0 <= i → 0 <= L → i * L + L <= Z.of_nat (length individuals) →
  rd points pt = Some x →
  ∃ v, f_approx_loop cfg individuals points i pt = Some v ∧
       (v == poly_value (genes_of cfg individuals i) x)%Q.
Proof.
  intros Hi HL Hlen Hx. unfold f_approx_loop, poly_value.
  set (ts := imap (λ k g, g * Qpower x (Z.of_nat k))%Q
                  (genes_of cfg individuals i)).
  assert (Z.of_nat (length ts) = L) as Hts.
  { unfold ts. rewrite length_imap. by apply length_genes_of. }
  destruct (sum_loop_spec
    (λ k, c ← rd individuals (i * L + k); Some (c * Qpower x k)%Q) ts)
    as (v & Hv & Heq).
  - intros k Hk. rewrite Hts in Hk.
    destruct (rd_in_range individuals (i * L + k)) as [c Hc]; [nia|].
    exists (c * Qpower x k)%Q, (c * Qpower x k)%Q.
    rewrite Hc. split; [done|]. split; [|reflexivity].
    apply rd_Some. split; [lia|]. unfold ts.
    rewrite list_lookup_imap.
    rewrite <- (rd_genes_of individuals i k) in Hc by lia.
    apply rd_Some in Hc as [_ ->]. simpl. by rewrite Z2Nat.id by lia.
  - rewrite Hts in Hv. exists v. split; [|done].
    rewrite <- Hv. apply for_ext; [lia|].
    intros k acc _. rewrite Hx.
    by destruct (rd individuals (i * L + k)).
Qed.

(** The middle loop adds up the squared residuals of individual [i]. *)
Lemma sumError_loop_spec individuals points i :
  0 <= i → 0 <= L → i * L + L <= Z.of_nat (length individuals) →
  0 <= NP → 2 * NP <= Z.of_nat (length points) →
  ∃ v, sumError_loop cfg individuals points i = Some v ∧
       (v == score (genes_of cfg individuals i) (point_set cfg points))%Q.
Proof.
  intros Hi HL Hlen HN Hpts. unfold sumError_loop, score.
  set (genes := genes_of cfg individuals i).
  set (ts := map (λ p, Qpower (poly_value genes p.1 - p.2) 2)
                 (point_set cfg points)).
  assert (Z.of_nat (length ts) = NP) as Hts.
  { unfold ts. rewrite length_map. by apply length_point_set. }
  destruct (sum_loop_spec
    (λ pt, f ← f_approx_loop cfg individuals points i pt;
           y ← rd points (NP + pt);
           Some (Qpower (f - y) 2)) ts) as (v & Hv & Heq).
  - intros pt Hpt. rewrite Hts in Hpt.
    destruct (rd_in_range points pt) as [x Hx]; [lia|].
    destruct (rd_in_range points (NP + pt)) as [y Hy]; [lia|].
    destruct (f_approx_loop_spec individuals points i pt x)
      as (f & Hf & Hfeq); [done..|].
    exists (Qpower (f - y) 2), (Qpower (poly_value genes x - y) 2).
    rewrite Hf, Hy. split; [done|]. split.
    + apply rd_Some. split; [lia|]. unfold ts. rewrite list_lookup_fmap.
      pose proof (rd_point_set points pt x y Hpt Hx Hy) as [_ ->]%rd_Some.
      done.
    + fold genes in Hfeq. by rewrite Hfeq.
  - rewrite Hts in Hv. exists v. split; [|done].
    rewrite <- Hv. apply for_ext; [lia|].
    intros pt acc _.
    destruct (f_approx_loop cfg individuals points i pt); [|done].
    by destruct (rd points (NP + pt)).
Qed.

(** [fitness] stores at index [i] the value of the loops for individual
    [i], and nothing else changes. *)
Lemma fitness_spec individuals points fits :
  0 <= L → 0 <= NP → 0 <= P →
  P * L <= Z.of_nat (length individuals) →
  2 * NP <= Z.of_nat (length points) →
  P <= Z.of_nat (length fits) →
  ∃ fits', fitness cfg individuals points fits = Some fits' ∧
    length fits' = length fits ∧
    (∀ i, 0 <= i < P →
       rd fits' i = sumError_loop cfg individuals points i ∧
       is_Some (rd fits' i)) ∧
    (∀ j, ¬ (0 <= j < P) → rd fits' j = rd fits j).
Proof.
  intros HL HN HP Hinds Hpts Hfits. unfold fitness.
  pose proof (copy_loop_total (sumError_loop cfg individuals points) 0 0 P fits)
    as [fits' Hfits'].
  { done. }
  { intros i Hi.
    destruct (sumError_loop_spec individuals points i) as (v & -> & _);
      [lia | done | nia | done | done | done]. }
  { lia. }
  { lia. }
  exists fits'. split; [exact Hfits'|].
  apply copy_loop_spec in Hfits' as (Hlen & Hin & Hout); [|done].
  split; [done|]. split.
  - intros i Hi. destruct (Hin i Hi) as [Heq Hsome].
    change (0 + i) with i in Heq. rewrite Heq. done.
  - intros j Hj. apply Hout. lia.
Qed.

End Fitness.

(** ** IEEE arithmetic: signs and zeros *)

Section Signs.
Import SpecFloat IEEE.
Context (prec emax : Z).

Lemma binary_round_aux_sign s m e l :
  sign_or_nan s (binary_round_aux prec emax s m e l).
Proof.
  unfold binary_round_aux.
  destruct (shr_fexp prec emax m e l) as [mrs' e'].
  destruct (shr_fexp prec emax _ e' loc_Exact) as [mrs'' e''].
  destruct (shr_m mrs''); simpl; try done.
  by destruct (e'' <=? emax - prec)%Z.
Qed.

Lemma binary_round_sign s m e :
  sign_or_nan s (binary_round prec emax s m e).
Proof.
  unfold binary_round. destruct (shl_align m e _) as [mz ez].
  apply binary_round_aux_sign.
Qed.

Lemma round_to_not_negative x :
  not_negative x → not_negative (round_to prec emax x).
Proof.
  destruct x as [s|s| |s m e]; simpl; try done.
  intros ->. apply binary_round_sign.
Qed.

Lemma SFadd_not_negative x y :
  not_negative x → not_negative y → not_negative (SFadd prec emax x y).
Proof.
  destruct x as [sx|sx| |sx mx ex], y as [sy|sy| |sy my ey]; simpl;
    intros Hx Hy; subst; try done.
  apply binary_round_sign.
Qed.

Lemma SFsub_diag x :
  is_number x → SFsub prec emax x x = S754_zero false.
Proof.
  destruct x as [s|s| |s m e]; simpl; try done.
  - by destruct s.
  - intros _. by rewrite Z.min_id, Z.sub_diag.
Qed.

End Signs.

Section Zeros.
Import SpecFloat IEEE.

Lemma not_negative_not_below_zero x :
  not_negative x → ltb x (of_int 0) = false.
Proof. destruct x as [s|s| |s m e]; simpl; try done; by intros ->. Qed.

Lemma add_zero_zero :
  to_float (d_add (to_double (of_int 0)) (S754_zero false)) = of_int 0.
Proof. reflexivity. Qed.

End Zeros.

(** ** Rounding does not cross a number of the format *)

Section Rounding.
Import SpecFloat IEEE.
Context (prec emax : Z) (Hprec : 0 < prec) (Hemax : prec < emax).

Lemma shr_1_spec mrs :
  0 <= shr_m mrs →
  0 <= shr_m (shr_1 mrs) ∧ shr_m (shr_1 mrs) = shr_m mrs / 2 ∧
  (inexact (shr_1 mrs) = true → shr_m mrs `mod` 2 ≠ 0 ∨ inexact mrs = true).
Proof.
  destruct mrs as [m r s]. unfold inexact. simpl. intros Hm.
  destruct m as [|[p|p|]|p]; simpl; try lia.
  - split_and!; [lia | done | ]. intros H. right. destruct r, s; done.
  - rewrite (Pos2Z.inj_xI p). split_and!; [lia | | ].
    + rewrite Z.add_comm, Z.mul_comm, Z.div_add by lia. reflexivity.
    + intros _. left. rewrite Z.add_comm, Z.mul_comm, Z.mod_add by lia. done.
  - rewrite (Pos2Z.inj_xO p). split_and!; [lia | | ].
    + rewrite Z.mul_comm, Z.div_mul by lia. done.
    + intros H. right. destruct r, s; done.
  - split_and!; [lia | done | ]. intros _. by left.
Qed.

Lemma halved_trans j k x y z :
  0 <= j → 0 <= k → halved j x y → halved k y z → halved (j + k) x z.
Proof.
  intros Hj Hk (Hy0 & Hy & Hyi) (Hz0 & Hz & Hzi).
  assert (Hpj : 0 < 2 ^ j) by (apply Z.pow_pos_nonneg; lia).
  assert (Hpk : 0 < 2 ^ k) by (apply Z.pow_pos_nonneg; lia).
  split_and!; [done | | ].
  - rewrite Hz, Hy, Z.pow_add_r, Z.div_div by lia. done.
  - intros Hi. rewrite Z.pow_add_r by lia.
    assert (Hdiv : shr_m x `mod` (2 ^ j * 2 ^ k) = 0 →
                   shr_m x `mod` 2 ^ j = 0 ∧ shr_m y `mod` 2 ^ k = 0).
    { intros Hz0'. apply Z.mod_divide in Hz0'; [|lia].
      destruct Hz0' as [q Hq]. split.
      - apply Z.mod_divide; [lia|]. exists (q * 2 ^ k). lia.
      - rewrite Hy. apply Z.mod_divide; [lia|]. exists q.
        replace (shr_m x) with (q * 2 ^ k * 2 ^ j) by lia.
        by rewrite Z.div_mul by lia. }
    destruct (Hzi Hi) as [Hm|Hyi'].
    + left. intros Hz0'. by destruct (Hdiv Hz0').
    + destruct (Hyi Hyi') as [Hm|Hx]; [|by right].
      left. intros Hz0'. by destruct (Hdiv Hz0').
Qed.

Lemma iter_pos_shr_1 p : ∀ mrs,
  0 <= shr_m mrs → halved (Z.pos p) mrs (iter_pos shr_1 p mrs).
Proof.
  assert (H1 : ∀ mrs, 0 <= shr_m mrs → halved 1 mrs (shr_1 mrs)).
  { intros mrs Hm. unfold halved. rewrite Z.pow_1_r. by apply shr_1_spec. }
  induction p as [p IH|p IH|]; intros mrs Hm; simpl.
  - rewrite Pos2Z.inj_xI.
    replace (2 * Z.pos p + 1) with (1 + (Z.pos p + Z.pos p)) by lia.
    pose proof (H1 mrs Hm) as Ha.
    pose proof (IH _ (proj1 Ha)) as Hb.
    pose proof (IH _ (proj1 Hb)) as Hc.
    eapply halved_trans; [lia | lia | exact Ha | ].
    eapply halved_trans; [lia | lia | exact Hb | exact Hc].
  - rewrite Pos2Z.inj_xO.
    replace (2 * Z.pos p) with (Z.pos p + Z.pos p) by lia.
    pose proof (IH _ Hm) as Hb.
    pose proof (IH _ (proj1 Hb)) as Hc.
    eapply halved_trans; [lia | lia | exact Hb | exact Hc].
  - by apply H1.
Qed.

(** [shr] with a shift that may be zero or negative. *)
Lemma shr_spec mrs e n :
  0 <= shr_m mrs →
  halved (Z.max n 0) mrs (fst (shr mrs e n)) ∧ snd (shr mrs e n) = e + Z.max n 0.
Proof.
  intros Hm. destruct n as [|p|p]; simpl.
  - split; [|lia]. split_and!; [done | by rewrite Z.div_1_r | ]. intros H; by right.
  - split; [|done]. by apply iter_pos_shr_1.
  - split; [|lia]. split_and!; [done | by rewrite Z.div_1_r | ]. intros H; by right.
Qed.


Lemma le_scaled_low m e M E : e <= E → le_scaled m e M E ↔ m <= M * 2 ^ (E - e).
Proof.
  intros He. unfold le_scaled. rewrite Z.min_l by lia.
  rewrite Z.sub_diag, Z.pow_0_r. lia.
Qed.

Lemma le_scaled_high m e M E : E <= e → le_scaled m e M E ↔ m * 2 ^ (e - E) <= M.
Proof.
  intros He. unfold le_scaled. rewrite Z.min_r by lia.
  rewrite Z.sub_diag, Z.pow_0_r. lia.
Qed.

Lemma le_scaled_mono m m' e M E : m' <= m → le_scaled m e M E → le_scaled m' e M E.
Proof.
  unfold le_scaled. intros Hm H.
  assert (0 <= 2 ^ (e - Z.min e E)) by (apply Z.pow_nonneg; lia).
  nia.
Qed.

Lemma digits2_pos_bounds m :
  2 ^ (Z.pos (digits2_pos m) - 1) <= Z.pos m < 2 ^ Z.pos (digits2_pos m).
Proof.
  induction m as [m IH|m IH|]; simpl digits2_pos.
  - rewrite Pos2Z.inj_succ, (Pos2Z.inj_xI m).
    assert (Hd : 0 <= Z.pos (digits2_pos m) - 1) by lia.
    replace (Z.succ (Z.pos (digits2_pos m)) - 1)
      with (Z.succ (Z.pos (digits2_pos m) - 1)) by lia.
    rewrite (Z.pow_succ_r 2 _ Hd), (Z.pow_succ_r 2 (Z.pos (digits2_pos m))) by lia.
    lia.
  - rewrite Pos2Z.inj_succ, (Pos2Z.inj_xO m).
    assert (Hd : 0 <= Z.pos (digits2_pos m) - 1) by lia.
    replace (Z.succ (Z.pos (digits2_pos m)) - 1)
      with (Z.succ (Z.pos (digits2_pos m) - 1)) by lia.
    rewrite (Z.pow_succ_r 2 _ Hd), (Z.pow_succ_r 2 (Z.pos (digits2_pos m))) by lia.
    lia.
  - done.
Qed.

Lemma Zdigits2_bounds m : 0 < m → 2 ^ (Zdigits2 m - 1) <= m < 2 ^ Zdigits2 m.
Proof. destruct m; [lia | intros _; apply digits2_pos_bounds | lia]. Qed.

Lemma Zdigits2_nonneg m : 0 <= Zdigits2 m.
Proof. destruct m; simpl; lia. Qed.

Lemma Zdigits2_le_scaled m e M E :
  0 < m → 0 < M → le_scaled m e M E → Zdigits2 m + e <= Zdigits2 M + E.
Proof.
  intros Hm HM H. unfold le_scaled in H.
  set (g := Z.min e E) in *.
  pose proof (Zdigits2_bounds m Hm) as [Hlo _].
  pose proof (Zdigits2_bounds M HM) as [_ Hhi].
  assert (Hdm : 0 < Zdigits2 m) by (destruct m; simpl; lia).
  assert (Hpe : 0 < 2 ^ (e - g)) by (apply Z.pow_pos_nonneg; lia).
  assert (HpE : 0 < 2 ^ (E - g)) by (apply Z.pow_pos_nonneg; lia).
  assert (Hlt : 2 ^ (Zdigits2 m - 1 + (e - g)) < 2 ^ (Zdigits2 M + (E - g))).
  { pose proof (Zdigits2_nonneg M). rewrite !Z.pow_add_r by lia. nia. }
  apply Z.pow_lt_mono_r_iff in Hlt; [lia | lia | ].
  pose proof (Zdigits2_nonneg M). lia.
Qed.

Lemma Zdigits2_mono m m' : 0 <= m → m <= m' → Zdigits2 m <= Zdigits2 m'.
Proof.
  intros Hm Hle. destruct (decide (m = 0)) as [->|Hne].
  { apply Zdigits2_nonneg. }
  pose proof (Zdigits2_bounds m ltac:(lia)) as [Hlo _].
  pose proof (Zdigits2_bounds m' ltac:(lia)) as [_ Hhi].
  assert (Hlt : 2 ^ (Zdigits2 m - 1) < 2 ^ Zdigits2 m') by lia.
  apply Z.pow_lt_mono_r_iff in Hlt; [lia | lia | apply Zdigits2_nonneg].
Qed.

Lemma fexp_mono a b : a <= b → fexp prec emax a <= fexp prec emax b.
Proof. unfold fexp. lia. Qed.

Lemma round_nearest_even_bounds mx lx :
  mx <= round_nearest_even mx lx <= mx + (if lx is loc_Exact then 0 else 1).
Proof. destruct lx as [|[]]; simpl; try lia. destruct (Z.even mx); lia. Qed.

Lemma loc_of_shr_record_exact mrs :
  inexact mrs = false → loc_of_shr_record mrs = loc_Exact.
Proof. destruct mrs as [m [] []]; done. Qed.

Lemma inexact_shr_record_of_loc m lx :
  shr_m (shr_record_of_loc m lx) = m ∧
  (inexact (shr_record_of_loc m lx) = true → lx ≠ loc_Exact).
Proof. destruct lx as [|[]]; done. Qed.


(** Rounding does not cross a number of the format: what lies at or below
    [M * 2 ^ E], a number whose exponent is not below the one of its binade,
    is rounded to a number at or below it. *)
Lemma binary_round_aux_bounded s m e lx M E :
  0 <= m → 0 < M →
  le_scaled (m + slack lx) e M E →
  fexp prec emax (Zdigits2 M + E) <= E →
  e <= emax - prec → E <= emax - prec →
  bounded_by (binary_round_aux prec emax s m e lx) M E.
Proof.
  intros Hm HM Hle Hrep He HE.
  unfold binary_round_aux, shr_fexp.
  set (n1 := fexp prec emax (Zdigits2 m + e) - e).
  destruct (inexact_shr_record_of_loc m lx) as [Hm0 Hi0].
  destruct (shr_spec (shr_record_of_loc m lx) e n1) as [(H1a & H1b & H1c) He1];
    [lia|].
  destruct (shr (shr_record_of_loc m lx) e n1) as [mrs' e'].
  cbn [fst snd] in H1a, H1b, H1c, He1. subst e'.
  rewrite Hm0 in H1b, H1c.
  set (m1 := round_nearest_even (shr_m mrs') (loc_of_shr_record mrs')).
  set (e' := e + Z.max n1 0).
  (* the rounded mantissa is within the bound *)
  assert (Hm1 : 0 <= m1 ∧ le_scaled m1 e' M E ∧ e' <= Z.max e E).
  { pose proof (round_nearest_even_bounds (shr_m mrs') (loc_of_shr_record mrs')) as Hb.
    fold m1 in Hb.
    assert (Hex : inexact mrs' = false → m1 = shr_m mrs').
    { intros Hf. unfold m1. by rewrite (loc_of_shr_record_exact _ Hf). }
    assert (Hsl : slack (loc_of_shr_record mrs') <= 1) by (destruct (loc_of_shr_record mrs'); simpl; lia).
    fold (slack (loc_of_shr_record mrs')) in Hb.
    split; [lia|].
    destruct (Z_le_gt_dec n1 0) as [Hn|Hn].
    - (* no shift *)
      assert (He' : e' = e) by (unfold e'; lia).
      rewrite He'. split; [|lia].
      rewrite Z.max_r, Z.pow_0_r, Z.div_1_r, Z.mod_1_r in * by lia.
      apply (le_scaled_mono (m + slack lx)); [|done].
      destruct (inexact mrs') eqn:Hi.
      + destruct (H1c eq_refl) as [?|Hx]; [done|].
        assert (slack lx = 1) by (destruct lx; [by destruct (Hi0 Hx)|done]). lia.
      + rewrite (Hex eq_refl), H1b. destruct lx; simpl; lia.
    - (* the mantissa is shifted right by n1 *)
      assert (He' : e' = fexp prec emax (Zdigits2 m + e)) by (unfold e', n1; lia).
      rewrite Z.max_l in * by lia.
      assert (Hp1 : 0 < 2 ^ n1) by (apply Z.pow_pos_nonneg; lia).
      destruct (decide (m + slack lx = 0)) as [Hz|Hnz].
      { (* the value is zero *)
        assert (m = 0 ∧ lx = loc_Exact) as [-> ->].
        { destruct lx; simpl in Hz; [split; [lia|done] | lia]. }
        rewrite Z.div_0_l in H1b by lia. rewrite Z.mod_0_l in H1c by lia.
        assert (Hf : inexact mrs' = false).
        { destruct (inexact mrs'); [|done]. destruct (H1c eq_refl) as [?|Hx]; done. }
        rewrite (Hex Hf), H1b.
        split.
        - unfold le_scaled. rewrite Z.mul_0_l.
          apply Z.mul_nonneg_nonneg; [lia | apply Z.pow_nonneg; lia].
        - (* e' is the exponent of the binade of 0 *)
          rewrite He'. simpl Zdigits2.
          assert (emin prec emax <= E) by (unfold fexp in Hrep; lia).
          unfold fexp. lia. }
      assert (Hpos : 0 < m + slack lx) by (destruct lx; simpl in *; lia).
      pose proof (Zdigits2_le_scaled _ _ _ _ Hpos HM Hle) as Hd.
      assert (Hdm : Zdigits2 m <= Zdigits2 (m + slack lx)).
      { apply Zdigits2_mono; [lia | destruct lx; simpl; lia]. }
      assert (He'E : e' <= E).
      { rewrite He'. etrans; [|exact Hrep]. apply fexp_mono. lia. }
      split; [|lia].
      apply le_scaled_low; [done|].
      assert (HeE : e <= E) by (unfold e' in He'E; lia).
      apply (proj1 (le_scaled_low _ _ _ _ HeE)) in Hle.
      set (K := M * 2 ^ (E - e')).
      assert (HK : M * 2 ^ (E - e) = K * 2 ^ n1).
      { unfold K. replace (E - e) with ((E - e') + n1) by (unfold e'; lia).
        rewrite Z.pow_add_r by lia. lia. }
      rewrite HK in Hle.
      destruct (inexact mrs') eqn:Hi.
      + assert (Hlt : m < K * 2 ^ n1).
        { destruct (H1c eq_refl) as [Hmod|Hx].
          - assert (m ≠ K * 2 ^ n1); [|destruct lx; simpl in Hle; lia].
            intros Heq. rewrite Heq, Z.mod_mul in Hmod by lia. done.
          - assert (slack lx = 1) by (destruct lx; [by destruct (Hi0 Hx)|done]). lia. }
        assert (shr_m mrs' < K); [|lia].
        rewrite H1b. apply Z.div_lt_upper_bound; lia.
      + rewrite (Hex eq_refl), H1b.
        apply Z.div_le_upper_bound; [lia|].
        destruct lx; simpl in Hle; lia. }
  destruct Hm1 as (Hm1 & Hle1 & He'b).
  set (n2 := fexp prec emax (Zdigits2 m1 + e') - e').
  destruct (shr_spec (shr_record_of_loc m1 loc_Exact) e' n2) as [(H2a & H2b & _) He2];
    [simpl; lia|].
  destruct (shr (shr_record_of_loc m1 loc_Exact) e' n2) as [mrs'' e''].
  cbn [fst snd shr_record_of_loc shr_m] in H2a, H2b, He2. subst e''.
  destruct (shr_m mrs'') as [|m2|m2] eqn:Hm2; [done | | lia].
  assert (Hm1pos : 0 < m1).
  { destruct (decide (m1 = 0)) as [Hz|]; [|lia].
    rewrite Hz, Z.div_0_l in H2b; [lia|].
    apply Z.pow_nonzero; lia. }
  assert (Hfin : le_scaled (Z.pos m2) (e' + Z.max n2 0) M E ∧ e' + Z.max n2 0 <= Z.max e E).
  { destruct (Z_le_gt_dec n2 0) as [Hn|Hn].
    - rewrite Z.max_r, Z.pow_0_r, Z.div_1_r in * by lia.
      rewrite Z.add_0_r, H2b. done.
    - rewrite Z.max_l in * by lia.
      pose proof (Zdigits2_le_scaled _ _ _ _ Hm1pos HM Hle1) as Hd.
      assert (He''E : e' + n2 <= E).
      { unfold n2. etrans; [|exact Hrep].
        replace (e' + (fexp prec emax (Zdigits2 m1 + e') - e'))
          with (fexp prec emax (Zdigits2 m1 + e')) by lia.
        by apply fexp_mono. }
      split; [|lia].
      apply le_scaled_low; [done|].
      assert (HeE : e' <= E) by lia.
      apply (proj1 (le_scaled_low _ _ _ _ HeE)) in Hle1.
      rewrite H2b. apply Z.div_le_upper_bound; [apply Z.pow_pos_nonneg; lia|].
      replace (E - e') with (n2 + (E - (e' + n2))) in Hle1 by lia.
      rewrite Z.pow_add_r in Hle1 by lia. lia. }
  destruct Hfin as [Hfin Hexp].
  rewrite (proj2 (Z.leb_le _ _)) by lia.
  exact Hfin.
Qed.

Lemma le_scaled_at g m e M E :
  g <= e → g <= E → le_scaled m e M E ↔ m * 2 ^ (e - g) <= M * 2 ^ (E - g).
Proof.
  intros Hge HgE. unfold le_scaled.
  set (g0 := Z.min e E).
  assert (Hp : 0 < 2 ^ (g0 - g)) by (apply Z.pow_pos_nonneg; lia).
  replace (e - g) with ((e - g0) + (g0 - g)) by lia.
  replace (E - g) with ((E - g0) + (g0 - g)) by lia.
  rewrite !Z.pow_add_r by lia. rewrite !Z.mul_assoc.
  split; intros H.
  - by apply Z.mul_le_mono_nonneg_r; [lia|].
  - by apply Z.mul_le_mono_pos_r in H.
Qed.

Lemma shl_align_spec m e e' :
  (shl_align m e e').2 <= e ∧
  Z.pos (shl_align m e e').1 = Z.pos m * 2 ^ (e - (shl_align m e e').2).
Proof.
  unfold shl_align. destruct (e' - e) as [|d|d] eqn:Hd; simpl.
  - rewrite Z.sub_diag. lia.
  - rewrite Z.sub_diag. lia.
  - split; [lia|].
    replace (e - e') with (Z.pos d) by lia. clear Hd.
    induction d as [|d IH] using Pos.peano_ind.
    + simpl. lia.
    + rewrite Pos.iter_succ, Pos2Z.inj_xO, IH, Pos2Z.inj_succ, Z.pow_succ_r by lia.
      lia.
Qed.

Lemma binary_round_bounded s m e M E :
  0 < M →
  le_scaled (Z.pos m) e M E →
  fexp prec emax (Zdigits2 M + E) <= E →
  e <= emax - prec → E <= emax - prec →
  bounded_by (binary_round prec emax s m e) M E.
Proof.
  intros HM Hle Hrep He HE. unfold binary_round.
  pose proof (shl_align_spec m e (fexp prec emax (Z.pos (digits2_pos m) + e)))
    as [Hez Hmz].
  destruct (shl_align m e _) as [mz ez]. cbn [fst snd] in Hez, Hmz.
  apply binary_round_aux_bounded; [lia | done | | done | lia | done].
  simpl slack. rewrite Z.add_0_r, Hmz.
  apply (le_scaled_at (Z.min ez E)); [lia | lia |].
  assert (Hg1 : Z.min ez E <= e) by lia.
  assert (Hg2 : Z.min ez E <= E) by lia.
  apply (proj1 (le_scaled_at _ _ _ _ _ Hg1 Hg2)) in Hle.
  rewrite <- Z.mul_assoc, <- Z.pow_add_r by lia.
  by replace (e - ez + (ez - Z.min ez E)) with (e - Z.min ez E) by lia.
Qed.

Lemma binary_normalize_bounded z e sz M E :
  0 < M →
  le_scaled (Z.abs z) e M E →
  fexp prec emax (Zdigits2 M + E) <= E →
  e <= emax - prec → E <= emax - prec →
  bounded_by (binary_normalize prec emax z e sz) M E.
Proof.
  intros HM Hle Hrep He HE. destruct z as [|p|p]; simpl in *.
  - exact I.
  - by apply binary_round_bounded.
  - by apply binary_round_bounded.
Qed.

(** The bound 1 is a number of the format. *)
Lemma one_representable : fexp prec emax (Zdigits2 1 + 0) <= 0.
Proof. unfold fexp, emin. simpl. lia. Qed.

Lemma le_scaled_one m e : 0 < m → le_scaled m e 1 0 → e <= 0 ∧ m <= 2 ^ (- e).
Proof.
  intros Hm H. destruct (Z_le_gt_dec e 0) as [He|He].
  - split; [done|]. apply (proj1 (le_scaled_low _ _ _ _ He)) in H.
    by rewrite Z.mul_1_l, Z.sub_0_l in H.
  - apply (proj1 (le_scaled_high m e 1 0 ltac:(lia))) in H.
    assert (2 ^ 1 <= 2 ^ (e - 0)) by (apply Z.pow_le_mono_r; lia).
    nia.
Qed.

(** The product with a number of magnitude at most 1. *)
Lemma SFmul_bounded_one sx mx ex y :
  fexp prec emax (Zdigits2 (Z.pos mx) + ex) <= ex →
  ex <= emax - prec →
  bounded_by y 1 0 →
  bounded_by (SFmul prec emax (S754_finite sx mx ex) y) (Z.pos mx) ex.
Proof.
  intros Hrep Hex Hy. destruct y as [sy|sy| |sy my ey]; simpl in *; try done.
  apply le_scaled_one in Hy as [Hey Hmy]; [|lia].
  apply binary_round_aux_bounded; [lia | lia | | done | lia | done].
  simpl slack. rewrite Z.add_0_r.
  apply le_scaled_low; [lia|].
  replace (ex - (ex + ey)) with (- ey) by lia.
  rewrite Pos2Z.inj_mul. nia.
Qed.

(** [x - 1] for [0 <= x <= 2]. *)
Lemma SFsub_one_bounded x my ey :
  Z.pos my = 2 ^ (- ey) → ey <= 0 →
  not_negative x → bounded_by x 1 1 →
  bounded_by (SFsub prec emax x (S754_finite false my ey)) 1 0.
Proof.
  intros Hmy Hey Hs Hx. destruct x as [sx|sx| |sx mx ex]; simpl in *; try done.
  - apply le_scaled_low; [done|].
    rewrite Hmy. replace (0 - ey) with (- ey) by lia. lia.
  - subst sx.
    set (ez := Z.min ex ey).
    pose proof (shl_align_spec mx ex ez) as [Hxz Hxm].
    pose proof (shl_align_spec my ey ez) as [Hyz Hym].
    assert (Hxe : (shl_align mx ex ez).2 = ez).
    { unfold shl_align. destruct (ez - ex) eqn:Hd; simpl; unfold ez in *; lia. }
    assert (Hye : (shl_align my ey ez).2 = ez).
    { unfold shl_align. destruct (ez - ey) eqn:Hd; simpl; unfold ez in *; lia. }
    rewrite Hxe in Hxm. rewrite Hye in Hym.
    cbn [cond_Zopp]. rewrite Hxm, Hym.
    apply binary_normalize_bounded;
      [lia | | apply one_representable | unfold ez; lia | lia].
    apply le_scaled_low; [unfold ez; lia|].
    rewrite Z.mul_1_l, Z.sub_0_l.
    assert (Hg1 : ez <= ex) by (unfold ez; lia).
    assert (Hg2 : ez <= 1) by (unfold ez; lia).
    apply (proj1 (le_scaled_at _ _ _ _ _ Hg1 Hg2)) in Hx.
    rewrite Z.mul_1_l in Hx.
    assert (Hy1 : Z.pos my * 2 ^ (ey - ez) = 2 ^ (- ez)).
    { rewrite Hmy, <- Z.pow_add_r by (unfold ez; lia). f_equal. lia. }
    assert (Hx2 : 2 ^ (1 - ez) = 2 * 2 ^ (- ez)).
    { replace (1 - ez) with (Z.succ (- ez)) by lia.
      apply Z.pow_succ_r. unfold ez. lia. }
    assert (0 < Z.pos mx * 2 ^ (ex - ez)).
    { apply Z.mul_pos_pos; [lia|]. apply Z.pow_pos_nonneg; unfold ez; lia. }
    lia.
Qed.

(** A quotient of two positive numbers, the first at most the second. *)
Lemma SFdiv_bounded_one sa ma ea sb mb eb :
  le_scaled (Z.pos ma) ea (Z.pos mb) eb →
  bounded_by (SFdiv prec emax (S754_finite sa ma ea) (S754_finite sb mb eb)) 1 0.
Proof.
  intros Hle. simpl. unfold SFdiv_core_binary.
  set (d1 := Zdigits2 (Z.pos ma)). set (d2 := Zdigits2 (Z.pos mb)).
  set (e' := Z.min (fexp prec emax (d1 + ea - (d2 + eb))) (ea - eb)).
  set (sh := ea - eb - e').
  assert (Hd : d1 + ea <= d2 + eb) by (apply Zdigits2_le_scaled; [lia|lia|done]).
  assert (He' : e' <= 0).
  { unfold e', fexp, emin. lia. }
  assert (Hsh : 0 <= sh) by (unfold sh, e'; lia).
  set (m' := match sh with Z.pos _ => Z.shiftl (Z.pos ma) sh | 0 => Z.pos ma | Z.neg _ => 0 end).
  assert (Hm' : m' = Z.pos ma * 2 ^ sh).
  { unfold m'. destruct sh eqn:Hs; [simpl; lia | | lia].
    by rewrite Z.shiftl_mul_pow2 by lia. }
  pose proof (Z_div_mod m' (Z.pos mb) ltac:(lia)) as Hdm.
  destruct (Z.div_eucl m' (Z.pos mb)) as [q r]. destruct Hdm as [Hq Hr].
  (* the value is at most 2 ^ - e' units *)
  assert (Hval : m' <= Z.pos mb * 2 ^ (- e')).
  { rewrite Hm'. destruct (Z_le_gt_dec ea eb) as [Hab|Hab].
    - apply (proj1 (le_scaled_low _ _ _ _ Hab)) in Hle.
      replace (- e') with ((eb - ea) + sh) by (unfold sh; lia).
      rewrite Z.pow_add_r by lia.
      assert (0 <= 2 ^ sh) by (apply Z.pow_nonneg; lia). nia.
    - assert (Hba : eb <= ea) by lia.
      apply (proj1 (le_scaled_high _ _ _ _ Hba)) in Hle.
      replace sh with ((ea - eb) + (- e')) by (unfold sh; lia).
      rewrite Z.pow_add_r by lia.
      assert (0 <= 2 ^ (- e')) by (apply Z.pow_nonneg; lia). nia. }
  assert (Hq0 : 0 <= q) by nia.
  assert (Hsl : slack (new_location (Z.pos mb) r) = 0 ∨ r ≠ 0).
  { unfold new_location, new_location_even, new_location_odd.
    destruct (Z.even (Z.pos mb)); destruct (Z.eqb_spec r 0); auto. }
  assert (Hsl1 : slack (new_location (Z.pos mb) r) <= 1).
  { destruct (new_location (Z.pos mb) r); simpl; lia. }
  apply binary_round_aux_bounded;
    [done | lia | | apply one_representable | lia | lia].
  apply le_scaled_low; [done|].
  rewrite Z.mul_1_l, Z.sub_0_l.
  assert (Hp : 0 < 2 ^ (- e')) by (apply Z.pow_pos_nonneg; lia).
  destruct Hsl as [->|Hr0]; nia.
Qed.

(** A finite result of the rounding is a number of the format. *)
Lemma binary_round_aux_representable s m e lx s' m' e' :
  0 <= m →
  binary_round_aux prec emax s m e lx = S754_finite s' m' e' →
  fexp prec emax (Zdigits2 (Z.pos m') + e') <= e' ∧ e' <= emax - prec.
Proof.
  intros Hm. unfold binary_round_aux, shr_fexp.
  destruct (inexact_shr_record_of_loc m lx) as [Hm0 _].
  destruct (shr_spec (shr_record_of_loc m lx) e
              (fexp prec emax (Zdigits2 m + e) - e)) as [(H1a & _ & _) _]; [lia|].
  destruct (shr (shr_record_of_loc m lx) e _) as [mrs' e1]. cbn [fst] in H1a.
  set (m1 := round_nearest_even (shr_m mrs') (loc_of_shr_record mrs')).
  assert (Hm1 : 0 <= m1).
  { pose proof (round_nearest_even_bounds (shr_m mrs') (loc_of_shr_record mrs')).
    unfold m1. lia. }
  set (n2 := fexp prec emax (Zdigits2 m1 + e1) - e1).
  destruct (shr_spec (shr_record_of_loc m1 loc_Exact) e1 n2)
    as [(H2a & H2b & _) He2]; [simpl; lia|].
  destruct (shr (shr_record_of_loc m1 loc_Exact) e1 n2) as [mrs'' e2].
  cbn [fst snd shr_record_of_loc shr_m] in H2a, H2b, He2. subst e2.
  destruct (shr_m mrs'') as [|m2|m2] eqn:Hm2; [done | | done].
  destruct (Z.leb_spec (e1 + Z.max n2 0) (emax - prec)) as [Hle|]; [|done].
  intros [= _ <- <-]. split; [|done].
  destruct (Z_le_gt_dec n2 0) as [Hn|Hn].
  - rewrite Z.max_r, Z.pow_0_r, Z.div_1_r in * by lia.
    rewrite Z.add_0_r, H2b. unfold n2 in Hn. lia.
  - rewrite Z.max_l in * by lia.
    assert (Hp : 0 < 2 ^ n2) by (apply Z.pow_pos_nonneg; lia).
    assert (Hm1pos : 0 < m1).
    { destruct (decide (m1 = 0)) as [Hz|]; [|lia].
      rewrite Hz, Z.div_0_l in H2b; lia. }
    pose proof (Zdigits2_bounds m1 Hm1pos) as [_ Hhi].
    pose proof (Zdigits2_bounds (Z.pos m2) ltac:(lia)) as [Hlo _].
    assert (Hd1 : n2 < Zdigits2 m1).
    { destruct (Z_lt_le_dec n2 (Zdigits2 m1)) as [|Hge]; [done|].
      assert (2 ^ Zdigits2 m1 <= 2 ^ n2)
        by (apply Z.pow_le_mono_r; [lia | done]).
      rewrite Z.div_small in H2b by lia. lia. }
    assert (Hlt : Z.pos m2 < 2 ^ (Zdigits2 m1 - n2)).
    { rewrite H2b. apply Z.div_lt_upper_bound; [lia|].
      rewrite <- Z.pow_add_r by lia.
      by replace (n2 + (Zdigits2 m1 - n2)) with (Zdigits2 m1) by lia. }
    assert (Hd : Zdigits2 (Z.pos m2) - 1 < Zdigits2 m1 - n2).
    { apply (Z.pow_lt_mono_r_iff 2); lia. }
    etrans; [apply (fexp_mono _ (Zdigits2 m1 + e1)); lia|].
    unfold n2. lia.
Qed.

Lemma binary_round_representable s m e s' m' e' :
  binary_round prec emax s m e = S754_finite s' m' e' →
  fexp prec emax (Zdigits2 (Z.pos m') + e') <= e' ∧ e' <= emax - prec.
Proof.
  unfold binary_round. destruct (shl_align m e _) as [mz ez].
  by apply binary_round_aux_representable.
Qed.

(** [-1 + x] for [0 <= x <= 2]. *)
Lemma SFadd_minus_one_bounded x my ey :
  Z.pos my = 2 ^ (- ey) → ey <= 0 →
  not_negative x → bounded_by x 1 1 →
  bounded_by (SFadd prec emax (S754_finite true my ey) x) 1 0.
Proof.
  intros Hmy Hey Hs Hx. destruct x as [sx|sx| |sx mx ex]; simpl in *; try done.
  - apply le_scaled_low; [done|].
    rewrite Hmy. replace (0 - ey) with (- ey) by lia. lia.
  - subst sx.
    set (ez := Z.min ey ex).
    pose proof (shl_align_spec mx ex ez) as [Hxz Hxm].
    pose proof (shl_align_spec my ey ez) as [Hyz Hym].
    assert (Hxe : (shl_align mx ex ez).2 = ez).
    { unfold shl_align. destruct (ez - ex) eqn:Hd; simpl; unfold ez in *; lia. }
    assert (Hye : (shl_align my ey ez).2 = ez).
    { unfold shl_align. destruct (ez - ey) eqn:Hd; simpl; unfold ez in *; lia. }
    rewrite Hxe in Hxm. rewrite Hye in Hym.
    cbn [cond_Zopp]. rewrite Hxm, Hym.
    apply binary_normalize_bounded;
      [lia | | apply one_representable | unfold ez; lia | lia].
    apply le_scaled_low; [unfold ez; lia|].
    rewrite Z.mul_1_l. change (0 - ez) with (- ez).
    assert (Hg1 : ez <= ex) by (unfold ez; lia).
    assert (Hg2 : ez <= 1) by (unfold ez; lia).
    apply (proj1 (le_scaled_at _ _ _ _ _ Hg1 Hg2)) in Hx.
    rewrite Z.mul_1_l in Hx.
    assert (Hy1 : Z.pos my * 2 ^ (ey - ez) = 2 ^ (- ez)).
    { rewrite Hmy, <- Z.pow_add_r by (unfold ez; lia). f_equal. lia. }
    assert (Hx2 : 2 ^ (1 - ez) = 2 * 2 ^ (- ez)).
    { replace (1 - ez) with (Z.succ (- ez)) by lia.
      apply Z.pow_succ_r. unfold ez. lia. }
    assert (0 < Z.pos mx * 2 ^ (ex - ez)).
    { apply Z.mul_pos_pos; [lia|]. apply Z.pow_pos_nonneg; unfold ez; lia. }
    lia.
Qed.

End Rounding.

(** ** The values of frand, of V and of the delta of mutation *)

Section RoundedValues.
Import SpecFloat IEEE.

Lemma le_scaled_exact m e M E :
  le_scaled m e M E → (inject_Z m * 2 ^ e <= inject_Z M * 2 ^ E)%Q.
Proof.
  unfold le_scaled. set (g := Z.min e E). intros H.
  assert (H2 : ¬ (2 == 0)%Q) by done.
  replace e with ((e - g) + g) at 1 by lia.
  replace E with ((E - g) + g) at 1 by lia.
  rewrite !Qpower_plus by done.
  rewrite !Qmult_assoc.
  apply Qmult_le_compat_r; [|apply Qlt_le_weak, Qpower_0_lt; done].
  change 2%Q with (inject_Z 2).
  rewrite <- !Zpower_Qpower by lia.
  rewrite <- !inject_Z_mult, <- Zle_Qle. exact H.
Qed.

Lemma exact_le_scaled m e M E :
  (inject_Z m * 2 ^ e <= inject_Z M * 2 ^ E)%Q → le_scaled m e M E.
Proof.
  unfold le_scaled. set (g := Z.min e E). intros H.
  assert (H2 : ¬ (2 == 0)%Q) by done.
  replace e with ((e - g) + g) in H at 1 by lia.
  replace E with ((E - g) + g) in H at 1 by lia.
  rewrite !Qpower_plus, !Qmult_assoc in H by done.
  apply Qmult_le_r in H; [|by apply Qpower_0_lt].
  change 2%Q with (inject_Z 2) in H.
  rewrite <- !Zpower_Qpower in H by lia.
  by rewrite <- !inject_Z_mult, <- Zle_Qle in H.
Qed.

Lemma bounded_by_at_most x M E :
  bounded_by x (Z.pos M) E → at_most x (S754_finite false M E).
Proof.
  assert (H2 : ∀ z, (0 <= 2 ^ z)%Q) by (intros z; by apply Qlt_le_weak, Qpower_0_lt).
  unfold at_most, exact, cond_Zopp.
  destruct x as [s|s| |s m e]; cbn [bounded_by is_number]; try done; intros H.
  - split; [done|]. by apply Qmult_le_0_compat.
  - split; [done|].
    rewrite Qabs_Qmult, (Qabs_pos (2 ^ e)) by apply H2.
    assert (Qabs (inject_Z (if s then - Z.pos m else Z.pos m))
            == inject_Z (Z.pos m))%Q as ->.
    { destruct s; [|done]. by apply Qabs_neg. }
    by apply le_scaled_exact.
Qed.

Lemma of_int_not_negative z : 0 <= z → not_negative (of_int z).
Proof.
  intros Hz. destruct z as [|p|p]; [done | | lia].
  apply (binary_round_sign 24 128).
Qed.

Lemma le_scaled_pow2 m e M E k :
  0 <= k → le_scaled m e (M * 2 ^ k) E ↔ le_scaled m e M (E + k).
Proof.
  intros Hk.
  assert (Hg1 : Z.min e E <= e) by lia.
  assert (Hg2 : Z.min e E <= E) by lia.
  assert (Hg3 : Z.min e E <= E + k) by lia.
  rewrite (le_scaled_at _ _ _ _ _ Hg1 Hg2), (le_scaled_at _ _ _ _ _ Hg1 Hg3).
  replace (E + k - Z.min e E) with (k + (E - Z.min e E)) by lia.
  rewrite Z.pow_add_r by lia. by rewrite Z.mul_assoc.
Qed.

Lemma bounded_by_pow2 x M E k :
  0 <= k → bounded_by x (M * 2 ^ k) E → bounded_by x M (E + k).
Proof.
  intros Hk. destruct x; simpl; try done. by apply le_scaled_pow2.
Qed.

(** The value of frand for a draw in the range of [rand()]. *)
Lemma frand_value_bounded RM r :
  not_rounded_down (Z.pos RM) → 0 <= r <= Z.pos RM →
  not_negative (f_div (of_int r) (of_int (Z.pos RM))) ∧
  bounded_by (f_div (of_int r) (of_int (Z.pos RM))) 1 0.
Proof.
  unfold not_rounded_down. intros HRM Hr.
  pose proof (of_int_not_negative (Z.pos RM) ltac:(lia)) as Hsb.
  destruct (of_int (Z.pos RM)) as [sb|sb| |sb mb eb] eqn:Hb;
    try (by apply Qle_not_lt in HRM).
  simpl in Hsb. subst sb.
  apply (binary_round_representable 24 128) in Hb as [Hrep Heb].
  unfold exact, cond_Zopp in HRM.
  assert (Hle : le_scaled (Z.pos RM) 0 (Z.pos mb) eb).
  { apply exact_le_scaled. by rewrite Qmult_1_r. }
  assert (Hbd : bounded_by (of_int r) (Z.pos mb) eb).
  { apply (binary_normalize_bounded 24 128); [lia | lia | | done | lia | lia].
    rewrite Z.abs_eq by lia.
    apply (le_scaled_mono (Z.pos RM)); [lia | done]. }
  pose proof (of_int_not_negative r ltac:(lia)) as Hs.
  destruct (of_int r) as [s|s| |s m e]; try done.
  - simpl in *. by subst.
  - simpl in Hs. subst s. split.
    + unfold f_div, SFdiv.
      destruct (SFdiv_core_binary 24 128 (Z.pos m) e (Z.pos mb) eb) as [[mz ez] lz].
      apply (binary_round_aux_sign 24 128).
    + apply (SFdiv_bounded_one 24 128); [lia | lia | done].
Qed.

(** [0.01*(2*f - 1)] for a value [f] in [0, 1]. *)
Lemma mutation_delta_bounded f :
  not_negative f → bounded_by f 1 0 →
  bounded_by (mutation_delta f) 5764607523034235 (-59).
Proof.
  intros Hs Hf. unfold mutation_delta.
  change d_0_01 with (S754_finite false 5764607523034235 (-59)).
  change (of_int 2) with (S754_finite false 8388608 (-22)).
  change (of_int 1) with (S754_finite false 8388608 (-23)).
  (* 2*f is in [0, 2] *)
  assert (H2 : bounded_by (f_mul (S754_finite false 8388608 (-22)) f) 1 1).
  { apply (bounded_by_pow2 _ 1 (-22) 23); [lia|].
    apply (SFmul_bounded_one 24 128); [lia | done | lia | done]. }
  assert (H2s : not_negative (f_mul (S754_finite false 8388608 (-22)) f)).
  { destruct f as [s|s| |s m e]; simpl in *; try done; subst; try done.
    apply (binary_round_aux_sign 24 128). }
  (* 2*f - 1 is in [-1, 1] *)
  pose proof (SFsub_one_bounded 24 128 ltac:(lia) ltac:(lia) _ 8388608 (-23)
                eq_refl ltac:(lia) H2s H2) as Ht.
  fold f_sub in Ht.
  set (t := f_sub _ _) in *.
  (* and so is its double *)
  assert (Ht' : bounded_by (to_double t) 1 0).
  { destruct t as [s|s| |s m e]; simpl in *; try done.
    pose proof (le_scaled_one (Z.pos m) e ltac:(lia) Ht) as [He _].
    apply (binary_round_bounded 53 1024); [lia | lia | done | | lia | lia].
    apply (one_representable 53 1024); lia. }
  apply (SFmul_bounded_one 53 1024); [lia | done | lia | done].
Qed.

(** A [float] in [-1, 1] stays there as a [double], and the other way. *)
Lemma round_to_bounded_one prec emax x :
  0 < prec → prec < emax →
  bounded_by x 1 0 → bounded_by (round_to prec emax x) 1 0.
Proof.
  intros Hprec Hemax Hx. destruct x as [s|s| |s m e]; simpl in *; try done.
  pose proof (le_scaled_one (Z.pos m) e ltac:(lia) Hx) as [He _].
  apply (binary_round_bounded prec emax); [lia | lia | done | | lia | lia].
  by apply one_representable.
Qed.

(** [V = -1.0 + 2.0*U] for a value [U] of frand in [0, 1]. *)
Lemma box_V_bounded (cfg : Config) r :
  not_rounded_down (Z.pos (RAND_MAX cfg)) → 0 <= r <= Z.pos (RAND_MAX cfg) →
  bounded_by (box_V cfg r) 1 0.
Proof.
  intros HRM Hr. unfold box_V.
  destruct (frand_value_bounded _ _ HRM Hr) as [Hs Hu].
  set (U := f_div _ _) in *.
  change (d_of_int 2) with (S754_finite false 4503599627370496 (-51)).
  change (d_of_int (-1)) with (S754_finite true 4503599627370496 (-52)).
  assert (HU : bounded_by (to_double U) 1 0)
    by (apply round_to_bounded_one; [lia | lia | done]).
  assert (HUs : not_negative (to_double U)) by by apply round_to_not_negative.
  assert (H2 : bounded_by (d_mul (S754_finite false 4503599627370496 (-51))
                             (to_double U)) 1 1).
  { apply (bounded_by_pow2 _ 1 (-51) 52); [lia|].
    apply (SFmul_bounded_one 53 1024); [lia | done | lia | done]. }
  assert (H2s : not_negative (d_mul (S754_finite false 4503599627370496 (-51))
                                (to_double U))).
  { destruct (to_double U) as [s|s| |s m e]; simpl in *; try done; subst; try done.
    apply (binary_round_aux_sign 53 1024). }
  apply round_to_bounded_one; [lia | lia |].
  apply (SFadd_minus_one_bounded 53 1024); [lia | lia | done | lia | done | done].
Qed.

(** The bounds as values. *)
Lemma bounded_by_one x : bounded_by x 1 0 → at_most x (of_int 1).
Proof.
  intros [Hn Hx]%(bounded_by_at_most _ 1%positive). split; [done|].
  eapply Qle_trans; [exact Hx|]. vm_compute. discriminate.
Qed.

Lemma not_negative_exact x : not_negative x → (0 <= exact x)%Q.
Proof.
  destruct x as [s|s| |s m e]; simpl; try done. intros ->.
  apply Qmult_le_0_compat; [done|]. by apply Qlt_le_weak, Qpower_0_lt.
Qed.

Lemma mutation_delta_at_most (cfg : Config) r :
  not_rounded_down (Z.pos (RAND_MAX cfg)) → 0 <= r <= Z.pos (RAND_MAX cfg) →
  at_most (mutation_delta (f_div (of_int r) (of_int (Z.pos (RAND_MAX cfg)))))
          d_0_01.
Proof.
  intros HRM Hr. destruct (frand_value_bounded _ _ HRM Hr) as [Hs Hu].
  by apply (bounded_by_at_most _ 5764607523034235 (-59)),
           mutation_delta_bounded.
Qed.

End RoundedValues.

(** ** fitness in IEEE arithmetic *)

(** A loop that folds [step] over the terms [term k]. *)
Lemma fold_loop_spec {St T} (term : Z → option T) (step : St → Z → T → St)
    (ts : list T) (init : St) :
  (∀ k, 0 <= k < Z.of_nat (length ts) → term k = rd ts k) →
  for_ 0 (Z.of_nat (length ts)) 1
    (λ k acc, t ← term k; Some (step acc k t)) init
  = Some (fold_left (λ acc kt, step acc kt.1 kt.2)
            (imap (λ k t, (Z.of_nat k, t)) ts) init).
Proof.
  intros Hterm.
  destruct (for_total
    (λ m acc, acc = fold_left (λ acc kt, step acc kt.1 kt.2)
                      (imap (λ k t, (Z.of_nat k, t)) (take (Z.to_nat m) ts))
                      init)
    0 (Z.of_nat (length ts))
    (λ k acc, t ← term k; Some (step acc k t)) init)
    as (v & Hv & Hinv); [lia | done | |].
  - intros m acc Hm ->. rewrite (Hterm m Hm).
    destruct (rd_in_range ts m) as [t Ht]; [lia|]. rewrite Ht. simpl.
    eexists. split; [done|].
    apply rd_Some in Ht as [_ Ht].
    replace (Z.to_nat (m + 1)) with (S (Z.to_nat m)) by lia.
    rewrite (take_S_r _ _ _ Ht), imap_app, fold_left_app. simpl.
    rewrite length_take, Nat.min_l by lia.
    rewrite Nat.add_0_r, Z2Nat.id by lia. done.
  - rewrite Hv, Hinv, Nat2Z.id, firstn_all. done.
Qed.

(** A fold that does not look at the index. *)
Lemma fold_left_indexed {St T I} (step : St → T → St) (g : nat → I)
    (ts : list T) (init : St) :
  fold_left (λ acc (kt : I * T), step acc kt.2) (imap (λ k t, (g k, t)) ts)
    init
  = fold_left step ts init.
Proof.
  revert g init. induction ts as [|t ts IH]; intros g init; [done|].
  simpl. apply (IH (g ∘ S)).
Qed.

Section FitnessFloat.
Import SpecFloat.
Context (cfg : Config) (libm : IEEE.Libm).
Abbreviation P := (POPULATION_SIZE cfg).
Abbreviation L := (INDIVIDUAL_LEN cfg).
Abbreviation NP := (N_POINTS cfg).

Lemma length_genes_of_float individuals i :
  0 <= i → 0 <= L → i * L + L <= Z.of_nat (length individuals) →
  Z.of_nat (length (IEEE.genes_of cfg individuals i)) = L.
Proof.
  intros Hi HL Hlen. unfold IEEE.genes_of.
  rewrite length_take, length_drop. nia.
Qed.

Lemma rd_genes_of_float individuals i k :
  0 <= i → 0 <= k < L →
  rd (IEEE.genes_of cfg individuals i) k = rd individuals (i * L + k).
Proof.
  intros Hi Hk. unfold rd, IEEE.genes_of.
  destruct (Z.leb_spec 0 k), (Z.leb_spec 0 (i * L + k)); try nia.
  rewrite lookup_take_lt by lia. rewrite lookup_drop. f_equal. nia.
Qed.

Lemma length_point_set_float points :
  0 <= NP → 2 * NP <= Z.of_nat (length points) →
  Z.of_nat (length (IEEE.point_set cfg points)) = NP.
Proof.
  intros HN Hlen. unfold IEEE.point_set.
  rewrite length_zip_with, !length_take, length_drop. lia.
Qed.

Lemma rd_point_set_float points pt :
  0 <= pt < NP → 2 * NP <= Z.of_nat (length points) →
  (x ← rd points pt; y ← rd points (NP + pt); Some (x, y))
  = rd (IEEE.point_set cfg points) pt.
Proof.
  intros Hpt Hlen.
  destruct (rd_in_range points pt) as [x Hx]; [lia|].
  destruct (rd_in_range points (NP + pt)) as [y Hy]; [lia|].
  rewrite Hx, Hy. simpl. symmetry.
  apply rd_Some in Hx as [_ Hx]. apply rd_Some in Hy as [_ Hy].
  apply rd_Some. split; [lia|].
  unfold IEEE.point_set. rewrite lookup_zip_with.
  rewrite !lookup_take_lt by lia. rewrite lookup_drop.
  replace (Z.to_nat NP + Z.to_nat pt)%nat with (Z.to_nat (NP + pt)) by lia.
  by rewrite Hx, Hy.
Qed.

(** The inner loop evaluates the polynomial of individual [i]. *)
Lemma f_approx_loop_float individuals points i pt x :
  0 <= i → 0 <= L → i * L + L <= Z.of_nat (length individuals) →
  rd points pt = Some x →
  IEEE.f_approx_loop cfg libm individuals points i pt
  = Some (IEEE.poly_float libm (IEEE.genes_of cfg individuals i) x).
Proof.
  intros Hi HL Hlen Hx. unfold IEEE.f_approx_loop, IEEE.poly_float.
  pose proof (length_genes_of_float individuals i Hi HL Hlen) as Hgenes.
  rewrite <- (fold_loop_spec
    (λ k, rd individuals (i * L + k)) (IEEE.poly_step libm x)).
  - rewrite Hgenes. apply for_ext; [lia|].
    intros k acc _. rewrite Hx.
    by destruct (rd individuals (i * L + k)).
  - intros k Hk. rewrite Hgenes in Hk. by rewrite rd_genes_of_float.
Qed.

(** The middle loop accumulates the squared residuals of individual [i]. *)
Lemma sumError_loop_float individuals points i :
  0 <= i → 0 <= L → i * L + L <= Z.of_nat (length individuals) →
  0 <= NP → 2 * NP <= Z.of_nat (length points) →
  IEEE.sumError_loop cfg libm individuals points i
  = Some (IEEE.score_float libm (IEEE.genes_of cfg individuals i)
            (IEEE.point_set cfg points)).
Proof.
  intros Hi HL Hlen HN Hpts. unfold IEEE.sumError_loop, IEEE.score_float.
  pose proof (length_point_set_float points HN Hpts) as Hps.
  rewrite <- (fold_left_indexed
    (IEEE.score_step libm (IEEE.genes_of cfg individuals i)) Z.of_nat).
  rewrite <- (fold_loop_spec
    (λ pt, x ← rd points pt; y ← rd points (NP + pt); Some (x, y))
    (λ acc _ p, IEEE.score_step libm (IEEE.genes_of cfg individuals i) acc p)).
  - rewrite Hps. apply for_ext; [lia|].
    intros pt acc Hpt.
    destruct (rd_in_range points pt) as [x Hx]; [lia|].
    rewrite (f_approx_loop_float individuals points i pt x) by done.
    rewrite Hx. simpl. by destruct (rd points (NP + pt)).
  - intros pt Hpt. rewrite Hps in Hpt. by apply rd_point_set_float.
Qed.

(** [fitness] stores at index [i] the value of the loops for individual
    [i]. *)
Lemma fitness_float_spec individuals points fits :
  0 <= L → 0 <= NP → 0 <= P →
  P * L <= Z.of_nat (length individuals) →
  2 * NP <= Z.of_nat (length points) →
  P <= Z.of_nat (length fits) →
  ∃ fits', IEEE.fitness cfg libm individuals points fits = Some fits' ∧
    length fits' = length fits ∧
    (∀ i, 0 <= i < P →
       rd fits' i = Some (IEEE.score_float libm
                            (IEEE.genes_of cfg individuals i)
                            (IEEE.point_set cfg points))) ∧
    (∀ j, ¬ (0 <= j < P) → rd fits' j = rd fits j).
Proof.
  intros HL HN HP Hinds Hpts Hfits. unfold IEEE.fitness.
  pose proof (copy_loop_total
    (IEEE.sumError_loop cfg libm individuals points) 0 0 P fits)
    as [fits' Hfits'].
  { done. }
  { intros i Hi. rewrite sumError_loop_float; [done | lia | done | nia | done..]. }
  { lia. }
  { lia. }
  exists fits'. split; [exact Hfits'|].
  apply copy_loop_spec in Hfits' as (Hlen & Hin & Hout); [|done].
  split; [done|]. split.
  - intros i Hi. destruct (Hin i Hi) as [Heq _].
    change (0 + i) with i in Heq. rewrite Heq.
    apply sumError_loop_float; [lia | done | nia | done..].
  - intros j Hj. apply Hout. lia.
Qed.

(** What the C standard says of [pow(x, 2)]: the square is not negative,
    and it is the positive zero for a zero. *)
Context (pow_square : ∀ x, IEEE.not_negative (IEEE.pow libm x 2)).
Context (pow_zero : IEEE.pow libm (S754_zero false) 2 = S754_zero false).

Lemma score_float_not_negative genes pts :
  IEEE.not_negative (IEEE.score_float libm genes pts).
Proof.
  unfold IEEE.score_float.
  assert (IEEE.not_negative (IEEE.of_int 0)) as Hinit by done.
  revert Hinit. generalize (IEEE.of_int 0).
  induction pts as [|p pts IH]; intros acc Hacc; [done|].
  simpl. apply IH. unfold IEEE.score_step, IEEE.to_float, IEEE.to_double.
  apply round_to_not_negative, SFadd_not_negative; [|apply pow_square].
  by apply round_to_not_negative.
Qed.

Lemma score_float_zero genes pts :
  (∀ x y, (x, y) ∈ pts →
     IEEE.poly_float libm genes x = y ∧ IEEE.is_number y) →
  IEEE.score_float libm genes pts = IEEE.of_int 0.
Proof.
  unfold IEEE.score_float. intros Hfit.
  induction pts as [|[x y] pts IH]; [done|].
  assert (IEEE.score_step libm genes (IEEE.of_int 0) (x, y) = IEEE.of_int 0)
    as Hstep.
  { unfold IEEE.score_step. simpl.
    destruct (Hfit x y) as [-> Hy]; [apply list_elem_of_here|].
    unfold IEEE.f_sub. rewrite SFsub_diag by done.
    change (IEEE.to_double (S754_zero false)) with (S754_zero false).
    rewrite pow_zero. apply add_zero_zero. }
  cbn [fold_left]. rewrite Hstep.
  apply IH. intros x' y' Hin. apply Hfit. by apply list_elem_of_further.
Qed.

End FitnessFloat.

Lemma pow_rounded_square x : IEEE.not_negative (IEEE.pow_rounded x 2).
Proof.
  unfold IEEE.pow_rounded. change (2 <=? 0) with false. cbv iota.
  destruct x as [s|s| |s m e]; simpl; try done.
  - by rewrite andb_false_r.
  - by rewrite andb_false_r.
  - rewrite Z.pow_2_r.
    assert (∃ p, SpecFloat.cond_Zopp s (Z.pos m) * SpecFloat.cond_Zopp s (Z.pos m)
                 = Z.pos p) as [p ->].
    { destruct s; simpl; eauto. }
    apply binary_round_sign.
Qed.

(** C6, as amended. For arrays of the sizes the configuration gives,
    [fitness] returns, and the value it stores for each individual is the
    accumulation in single precision of the squared residuals, each the
    [pow(.., 2)] of the difference between the accumulated polynomial and
    y; the value is not negative (it may be a NaN), and it is zero when
    the accumulated polynomial equals y, a number, at every point.  The
    two properties of [pow] are those the C standard gives for a square. *)
Theorem fitness_accumulates_squared_residuals (cfg : Config)
    (libm : IEEE.Libm) (individuals points fits : list IEEE.float) :
  (∀ x, IEEE.not_negative (IEEE.pow libm x 2)) →
  IEEE.pow libm (IEEE.of_int 0) 2 = IEEE.of_int 0 →
  0 <= INDIVIDUAL_LEN cfg → 0 <= N_POINTS cfg → 0 <= POPULATION_SIZE cfg →
  POPULATION_SIZE cfg * INDIVIDUAL_LEN cfg <= Z.of_nat (length individuals) →
  2 * N_POINTS cfg <= Z.of_nat (length points) →
  POPULATION_SIZE cfg <= Z.of_nat (length fits) →
  ∃ fits', IEEE.fitness cfg libm individuals points fits = Some fits' ∧
    ∀ i, 0 <= i < POPULATION_SIZE cfg →
      ∃ s, rd fits' i = Some s ∧
        s = IEEE.score_float libm (IEEE.genes_of cfg individuals i)
              (IEEE.point_set cfg points) ∧
        IEEE.not_negative s ∧ IEEE.ltb s (IEEE.of_int 0) = false ∧
        ((∀ x y, (x, y) ∈ IEEE.point_set cfg points →
            IEEE.poly_float libm (IEEE.genes_of cfg individuals i) x = y ∧
            IEEE.is_number y) →
         s = IEEE.of_int 0).
Proof.
  intros Hsquare Hzero HL HN HP Hinds Hpts Hfits.
  destruct (fitness_float_spec cfg libm individuals points fits)
    as (fits' & Hfit & _ & Hin & _); [done..|].
  exists fits'. split; [done|]. intros i Hi.
  eexists. split; [by apply Hin|]. split; [done|].
  pose proof (score_float_not_negative libm Hsquare
                (IEEE.genes_of cfg individuals i) (IEEE.point_set cfg points))
    as Hsign.
  split; [done|]. split; [by apply not_negative_not_below_zero|].
  by apply score_float_zero.
Qed.

(** ** mutation *)

Section Mutation.
Context (cfg : Config) (libm_factor : Q → Q).
(** A property of the draws that are still to come. *)
Context (good : Z → Prop).
Abbreviation P := (POPULATION_SIZE cfg).
Abbreviation L := (INDIVIDUAL_LEN cfg).

Lemma stdrand_rest rnd x rnd' :
  stdrand cfg libm_factor rnd = Some (x, rnd') →
  Forall good rnd → Forall good rnd'.
Proof.
  remember (length rnd) as n eqn:Hn. revert rnd Hn.
  induction (lt_wf n) as [n _ IH]. intros rnd -> Hstd Hrange.
  destruct rnd as [|r1 [|r2 rnd'']]; simpl in Hstd; try discriminate.
  apply Forall_cons_1 in Hrange as [_ Hrange].
  apply Forall_cons_1 in Hrange as [_ Hrange].
  destruct (Qle_bool _ _).
  - eapply (IH (length rnd'')); [simpl; lia | done | done | done].
  - by injection Hstd as _ <-.
Qed.

Lemma nrand_rest mu sigma rnd x rnd' :
  nrand cfg libm_factor mu sigma rnd = Some (x, rnd') →
  Forall good rnd → Forall good rnd'.
Proof.
  unfold nrand. intros ([y rnd1] & Hstd & [= _ <-])%bind_Some.
  by eapply stdrand_rest.
Qed.

Lemma mutation_gene_inv b0 i mutNumber j st st' :
  0 < L → 1 <= i → 0 <= j →
  mutation_inv cfg good b0 (i * L + j) st →
  mutation_gene cfg libm_factor i mutNumber j st = Some st' →
  mutation_inv cfg good b0 (i * L + (j + 1)) st'.
Proof.
  intros HL Hi Hj (Hrange & Hlen & Hframe & Hpert) Hgene.
  destruct st as [b rnd]. unfold mutation_gene in Hgene. simpl in *.
  apply bind_Some in Hgene as ([g rnd1] & Hn & Hgene).
  apply nrand_rest in Hn; [|done].
  destruct (Qltb g (inject_Z mutNumber)).
  - apply bind_Some in Hgene as ([f rnd2] & Hf & Hgene).
    apply bind_Some in Hgene as (old & Hold & Hgene).
    apply bind_Some in Hgene as (b' & Hw & [= <-]).
    unfold frand in Hf. destruct rnd1 as [|r rnd1]; [discriminate|].
    simpl in Hf. injection Hf as <- <-.
    apply Forall_cons_1 in Hn as [Hr Hn].
    split_and!; simpl.
    + done.
    + rewrite <- Hlen. by eapply wr_length.
    + intros idx Hidx. rewrite (rd_wr_ne _ _ _ _ _ Hw) by nia.
      apply Hframe. lia.
    + intros idx h h' Hh Hh'.
      destruct (decide (idx = i * L + j)) as [->|Hne].
      * rewrite (rd_wr_eq _ _ _ _ Hw) in Hh'. injection Hh' as <-.
        rewrite Hframe in Hold by lia. rewrite Hh in Hold.
        injection Hold as <-. right. eauto.
      * rewrite (rd_wr_ne _ _ _ _ _ Hw) in Hh' by done. by eapply Hpert.
  - injection Hgene as <-. split_and!; simpl; try done.
    intros idx Hidx. apply Hframe. lia.
Qed.

Lemma mutation_individual_inv b0 i st st' :
  0 < L → 1 <= i →
  mutation_inv cfg good b0 (i * L) st →
  mutation_individual cfg libm_factor i st = Some st' →
  mutation_inv cfg good b0 ((i + 1) * L) st'.
Proof.
  intros HL Hi Hinv Hind. destruct st as [b rnd].
  unfold mutation_individual in Hind.
  apply bind_Some in Hind as ([m rnd1] & Hn & Hloop).
  replace ((i + 1) * L) with (i * L + L) by lia.
  eapply (for_inv (λ j st, mutation_inv cfg good b0 (i * L + j) st));
    [| | | exact Hloop].
  - lia.
  - destruct Hinv as (Hrange & Hlen & Hframe & Hpert).
    split_and!; simpl in *; try done.
    + by eapply nrand_rest.
    + intros idx Hidx. apply Hframe. lia.
  - intros j t t' Hj Ht Hg.
    eapply mutation_gene_inv; [done | done | lia | done | done].
Qed.

(** When no individual has a gene the arrays are only passed along. *)
Lemma mutation_no_genes individuals rnd individuals' rnd' :
  L <= 0 →
  mutation cfg libm_factor individuals rnd = Some (individuals', rnd') →
  individuals' = individuals.
Proof.
  intros HL Hmut. unfold mutation in Hmut.
  destruct (Z.le_gt_cases P 1) as [HP|HP].
  { rewrite for_empty in Hmut by done. by injection Hmut as <-. }
  eapply (for_inv (λ _ st, st.1 = individuals)) in Hmut; [done | lia | done |].
  intros i [b r] [b' r'] Hi Hb Hind. simpl in *. subst b.
  unfold mutation_individual in Hind.
  apply bind_Some in Hind as ([m rnd1] & _ & Hloop).
  rewrite for_empty in Hloop by done. by injection Hloop as <-.
Qed.

Lemma mutation_spec individuals rnd individuals' rnd' :
  Forall good rnd →
  mutation cfg libm_factor individuals rnd = Some (individuals', rnd') →
  length individuals' = length individuals ∧
  (∀ idx, idx < L → rd individuals' idx = rd individuals idx) ∧
  (∀ idx g g', rd individuals idx = Some g → rd individuals' idx = Some g' →
     changed_by cfg good g g').
Proof.
  intros Hrange Hmut.
  destruct (Z.le_gt_cases L 0) as [HL|HL].
  { apply mutation_no_genes in Hmut as ->; [|done].
    split_and!; [done | done |].
    intros idx g g' Hg Hg'. left. congruence. }
  assert (mutation_inv cfg good individuals L (individuals, rnd)) as H0.
  { split_and!; simpl; try done. intros idx g g' Hg Hg'. left. congruence. }
  unfold mutation in Hmut.
  assert (∃ from, mutation_inv cfg good individuals from (individuals', rnd'))
    as (from & _ & Hlen & Hframe & Hpert).
  { destruct (Z.le_gt_cases P 1) as [HP|HP].
    { rewrite for_empty in Hmut by done. injection Hmut as <- <-. eauto. }
    exists (P * L).
    eapply (for_inv (λ i st, mutation_inv cfg good individuals (i * L) st));
      [| | | exact Hmut].
    - lia.
    - by rewrite Z.mul_1_l.
    - intros i t t' Hi Ht Hind.
      eapply mutation_individual_inv; [done | lia | done | done]. }
  simpl in *. split_and!; [done | | done].
  intros idx Hidx. apply Hframe. by left.
Qed.

End Mutation.

(** [mutation] does not touch the individual at index 0. *)
Lemma mutation_frame (cfg : Config) (libm_factor : Q → Q)
    individuals rnd individuals' rnd' :
  mutation cfg libm_factor individuals rnd = Some (individuals', rnd') →
  length individuals' = length individuals ∧
  (∀ idx, idx < INDIVIDUAL_LEN cfg → rd individuals' idx = rd individuals idx).
Proof.
  intros Hmut.
  destruct (mutation_spec cfg libm_factor (λ _, True) _ _ _ _
              ltac:(by apply Forall_true) Hmut) as (Hlen & Hframe & _).
  done.
Qed.

(** ** mutation and the normal deviates in IEEE arithmetic *)

Section MutationFloat.
Context (cfg : Config) (libm : IEEE.Libm) (noise : IEEE.Noise).
(** A property of the draws that are still to come. *)
Context (good : Z → Prop).
Abbreviation P := (POPULATION_SIZE cfg).
Abbreviation L := (INDIVIDUAL_LEN cfg).

(** One pass of the loop of stdrand. *)
Lemma stdrand_float_pass r1 r2 rnd :
  IEEE.stdrand cfg libm (r1 :: r2 :: rnd)
  = if IEEE.geb (IEEE.box_S cfg libm r1 r2) (IEEE.of_int 1)
    then IEEE.stdrand cfg libm rnd
    else Some (IEEE.box_X cfg libm r1 r2, rnd).
Proof. reflexivity. Qed.

Lemma stdrand_float_accepts rejected r1 r2 rnd' :
  IEEE.all_rejected cfg libm rejected →
  IEEE.geb (IEEE.box_S cfg libm r1 r2) (IEEE.of_int 1) = false →
  IEEE.stdrand cfg libm (rejected ++ r1 :: r2 :: rnd')
  = Some (IEEE.box_X cfg libm r1 r2, rnd').
Proof.
  remember (length rejected) as n eqn:Hn. revert rejected Hn.
  induction (lt_wf n) as [n _ IH]. intros rejected -> Hrej Hacc.
  destruct rejected as [|a [|b rejected]]; [| done |].
  - by rewrite app_nil_l, stdrand_float_pass, Hacc.
  - destruct Hrej as [Hab Hrej].
    rewrite <- !app_comm_cons, stdrand_float_pass, Hab.
    eapply (IH (length rejected)); [simpl; lia | done | done | done].
Qed.

Lemma stdrand_float_accepted rnd x rnd' :
  IEEE.stdrand cfg libm rnd = Some (x, rnd') →
  ∃ rejected r1 r2,
    rnd = rejected ++ r1 :: r2 :: rnd' ∧
    IEEE.all_rejected cfg libm rejected ∧
    IEEE.geb (IEEE.box_S cfg libm r1 r2) (IEEE.of_int 1) = false ∧
    x = IEEE.box_X cfg libm r1 r2.
Proof.
  remember (length rnd) as n eqn:Hn. revert rnd Hn.
  induction (lt_wf n) as [n _ IH]. intros rnd -> Hstd.
  destruct rnd as [|a [|b rnd]]; try discriminate.
  rewrite stdrand_float_pass in Hstd.
  destruct (IEEE.geb (IEEE.box_S cfg libm a b) (IEEE.of_int 1)) eqn:Hge.
  - destruct (IH (length rnd) ltac:(simpl; lia) rnd eq_refl Hstd)
      as (rejected & r1 & r2 & -> & Hrej & Hacc & ->).
    exists (a :: b :: rejected), r1, r2. by split_and!.
  - injection Hstd as <- <-. exists [], a, b. by split_and!.
Qed.

Lemma stdrand_float_rest rnd x rnd' :
  IEEE.stdrand cfg libm rnd = Some (x, rnd') →
  Forall good rnd → Forall good rnd'.
Proof.
  intros (rejected & r1 & r2 & -> & _)%stdrand_float_accepted Hgood.
  apply Forall_app in Hgood as [_ Hgood].
  apply Forall_cons_1 in Hgood as [_ Hgood].
  by apply Forall_cons_1 in Hgood as [_ Hgood].
Qed.

Lemma nrand_float_rest mu sigma rnd x rnd' :
  IEEE.nrand cfg libm mu sigma rnd = Some (x, rnd') →
  Forall good rnd → Forall good rnd'.
Proof.
  unfold IEEE.nrand. intros ([y rnd1] & Hstd & [= _ <-])%bind_Some.
  by eapply stdrand_float_rest.
Qed.

Lemma mutation_gene_float_inv b0 i mutNumber j st st' :
  0 < L → 1 <= i → 0 <= j →
  IEEE.mutation_inv cfg good b0 (i * L + j) st →
  IEEE.mutation_gene cfg libm noise i mutNumber j st = Some st' →
  IEEE.mutation_inv cfg good b0 (i * L + (j + 1)) st'.
Proof.
  intros HL Hi Hj (Hrange & Hlen & Hframe & Hpert) Hgene.
  destruct st as [b rnd]. unfold IEEE.mutation_gene in Hgene. simpl in *.
  apply bind_Some in Hgene as ([g rnd1] & Hn & Hgene).
  apply nrand_float_rest in Hn; [|done].
  destruct (IEEE.ltb g (IEEE.of_int mutNumber)).
  - apply bind_Some in Hgene as ([f rnd2] & Hf & Hgene).
    apply bind_Some in Hgene as (old & Hold & Hgene).
    apply bind_Some in Hgene as (b' & Hw & [= <-]).
    unfold IEEE.frand in Hf. destruct rnd1 as [|r rnd1]; [discriminate|].
    simpl in Hf. injection Hf as <- <-.
    apply Forall_cons_1 in Hn as [Hr Hn].
    split_and!; simpl.
    + done.
    + rewrite <- Hlen. by eapply wr_length.
    + intros idx Hidx. rewrite (rd_wr_ne _ _ _ _ _ Hw) by nia.
      apply Hframe. lia.
    + intros idx h h' Hh Hh'.
      destruct (decide (idx = i * L + j)) as [->|Hne].
      * rewrite (rd_wr_eq _ _ _ _ Hw) in Hh'. injection Hh' as <-.
        rewrite Hframe in Hold by lia. rewrite Hh in Hold.
        injection Hold as <-. right. eauto.
      * rewrite (rd_wr_ne _ _ _ _ _ Hw) in Hh' by done. by eapply Hpert.
  - injection Hgene as <-. split_and!; simpl; try done.
    intros idx Hidx. apply Hframe. lia.
Qed.

Lemma mutation_individual_float_inv b0 i st st' :
  0 < L → 1 <= i →
  IEEE.mutation_inv cfg good b0 (i * L) st →
  IEEE.mutation_individual cfg libm noise i st = Some st' →
  IEEE.mutation_inv cfg good b0 ((i + 1) * L) st'.
Proof.
  intros HL Hi Hinv Hind. destruct st as [b rnd].
  unfold IEEE.mutation_individual in Hind.
  apply bind_Some in Hind as ([m rnd1] & Hn & Hind).
  apply bind_Some in Hind as (mutNumber & _ & Hloop).
  replace ((i + 1) * L) with (i * L + L) by lia.
  eapply (for_inv (λ j st, IEEE.mutation_inv cfg good b0 (i * L + j) st));
    [| | | exact Hloop].
  - lia.
  - destruct Hinv as (Hrange & Hlen & Hframe & Hpert).
    split_and!; simpl in *; try done.
    + by eapply nrand_float_rest.
    + intros idx Hidx. apply Hframe. lia.
  - intros j t t' Hj Ht Hg.
    eapply mutation_gene_float_inv; [done | done | lia | done | done].
Qed.

(** When no individual has a gene the arrays are only passed along. *)
Lemma mutation_float_no_genes individuals rnd individuals' rnd' :
  L <= 0 →
  IEEE.mutation cfg libm noise individuals rnd = Some (individuals', rnd') →
  individuals' = individuals.
Proof.
  intros HL Hmut. unfold IEEE.mutation in Hmut.
  destruct (Z.le_gt_cases P 1) as [HP|HP].
  { rewrite for_empty in Hmut by done. by injection Hmut as <-. }
  eapply (for_inv (λ _ st, st.1 = individuals)) in Hmut; [done | lia | done |].
  intros i [b r] [b' r'] Hi Hb Hind. simpl in *. subst b.
  unfold IEEE.mutation_individual in Hind.
  apply bind_Some in Hind as ([m rnd1] & _ & Hind).
  apply bind_Some in Hind as (mutNumber & _ & Hloop).
  rewrite for_empty in Hloop by done. by injection Hloop as <-.
Qed.

Lemma mutation_float_spec individuals rnd individuals' rnd' :
  Forall good rnd →
  IEEE.mutation cfg libm noise individuals rnd = Some (individuals', rnd') →
  length individuals' = length individuals ∧
  (∀ idx, idx < L → rd individuals' idx = rd individuals idx) ∧
  (∀ idx g g', rd individuals idx = Some g → rd individuals' idx = Some g' →
     IEEE.changed_by cfg good g g').
Proof.
  intros Hrange Hmut.
  destruct (Z.le_gt_cases L 0) as [HL|HL].
  { apply mutation_float_no_genes in Hmut as ->; [|done].
    split_and!; [done | done |].
    intros idx g g' Hg Hg'. left. congruence. }
  assert (IEEE.mutation_inv cfg good individuals L (individuals, rnd)) as H0.
  { split_and!; simpl; try done. intros idx g g' Hg Hg'. left. congruence. }
  unfold IEEE.mutation in Hmut.
  assert (∃ from,
            IEEE.mutation_inv cfg good individuals from (individuals', rnd'))
    as (from & _ & Hlen & Hframe & Hpert).
  { destruct (Z.le_gt_cases P 1) as [HP|HP].
    { rewrite for_empty in Hmut by done. injection Hmut as <- <-. eauto. }
    exists (P * L).
    eapply (for_inv
      (λ i st, IEEE.mutation_inv cfg good individuals (i * L) st));
      [| | | exact Hmut].
    - lia.
    - by rewrite Z.mul_1_l.
    - intros i t t' Hi Ht Hind.
      eapply mutation_individual_float_inv; [done | lia | done | done]. }
  simpl in *. split_and!; [done | | done].
  intros idx Hidx. apply Hframe. by left.
Qed.

End MutationFloat.

(** C7, as amended. For every population and every sequence of draws of
    [rand()] between 0 and [RAND_MAX], [mutation] leaves every gene of the
    individual at index 0 unchanged, and a gene [g] it changes becomes
    the [float] nearest to [g + delta], where [delta] is the [double]
    [0.01*(2*u - 1)] for the value [u = float(r)/RAND_MAX] of one draw
    [r] of the sequence: a number between [-0.01] and [0.01], the
    [double] of that literal. *)
Theorem mutation_adds_a_rounded_delta (cfg : Config) (libm : IEEE.Libm)
    (noise : IEEE.Noise) (individuals : list IEEE.float) (rnd : list Z)
    individuals' rnd' :
  IEEE.not_rounded_down (Z.pos (RAND_MAX cfg)) →
  rand_range cfg rnd →
  IEEE.mutation cfg libm noise individuals rnd = Some (individuals', rnd') →
  (∀ j, 0 <= j < INDIVIDUAL_LEN cfg → rd individuals' j = rd individuals j) ∧
  (∀ idx g g', rd individuals idx = Some g → rd individuals' idx = Some g' →
     g' = g ∨
     ∃ r delta, r ∈ rnd ∧
       delta = IEEE.mutation_delta
                 (IEEE.f_div (IEEE.of_int r)
                    (IEEE.of_int (Z.pos (RAND_MAX cfg)))) ∧
       IEEE.at_most delta IEEE.d_0_01 ∧
       g' = IEEE.add_delta g delta).
Proof.
  intros HRM Hrange Hmut.
  assert (Forall (λ r, r ∈ rnd ∧ 0 <= r <= Z.pos (RAND_MAX cfg)) rnd) as Hrnd.
  { apply Forall_forall. intros r Hr. split; [done|].
    by apply (proj1 (Forall_forall _ _) Hrange). }
  destruct (mutation_float_spec cfg libm noise _ _ _ _ _ Hrnd Hmut)
    as (_ & Hframe & Hchanged).
  split; [intros j Hj; apply Hframe; lia|].
  intros idx g g' Hg Hg'.
  destruct (Hchanged idx g g' Hg Hg') as [->|(r & [Hr Hr01] & ->)]; [by left|].
  right. eexists r, _. split_and!; [done | reflexivity | | done].
  by apply mutation_delta_at_most.
Qed.

(** ** std::sort: the comparator and the merge sort *)

Lemma myCmpPair_strict_weak_order : StrictWeakOrder myCmpPair.
Proof.
  unfold myCmpPair. split.
  - intros x. apply Qltb_ge, Qle_refl.
  - intros x y z. rewrite !Qltb_lt. apply Qlt_trans.
  - intros x y z. rewrite !Qltb_ge. intros Hyx Hxy Hzy Hyz.
    split; eapply Qle_trans; eauto.
Qed.

Section SortContract.
Context {A : Type} (comp : A → A → bool) (Hswo : StrictWeakOrder comp).

Lemma not_after_total : Total (not_after comp).
Proof.
  intros x y. unfold not_after.
  destruct (comp y x) eqn:Hyx; [|by left]. right.
  destruct (comp x y) eqn:Hxy; [|done].
  by rewrite <- (swo_irrefl _ Hswo x), <- (swo_trans _ Hswo x y x Hxy Hyx).
Qed.

Lemma not_after_transitive : Transitive (not_after comp).
Proof.
  intros x y z Hxy Hyz. unfold not_after in *.
  destruct (comp z x) eqn:Hzx; [|done].
  destruct (comp x y) eqn:Hxy'.
  { by rewrite <- Hyz, <- (swo_trans _ Hswo z x y Hzx Hxy'). }
  destruct (comp y z) eqn:Hyz'.
  { by rewrite <- Hxy, <- (swo_trans _ Hswo y z x Hyz' Hzx). }
  destruct (swo_equiv_trans _ Hswo x y z Hxy' Hxy Hyz' Hyz) as [_ Hzx'].
  congruence.
Qed.

Lemma merge_sort_sorted_by l : sorted_by comp (merge_sort (not_after comp) l).
Proof.
  unfold sorted_by.
  pose proof not_after_transitive. pose proof not_after_total.
  apply (StronglySorted_merge_sort (not_after comp)).
Qed.

End SortContract.

(** The merge sort meets the contract. *)
#[local] Instance merge_StdSort_contract : @StdSort merge_StdSort.
Proof.
  split; intros A comp l Hswo.
  - apply (merge_sort_Permutation (not_after comp) l).
  - apply (merge_sort_sorted_by comp Hswo l).
Qed.

Lemma sorted_by_lookup {A} (comp : A → A → bool) l (i j : nat) x y :
  sorted_by comp l → l !! i = Some x → l !! j = Some y → (i < j)%nat →
  comp y x = false.
Proof.
  intros Hsorted. revert i j.
  induction Hsorted as [|a l _ IH Hall]; intros i j Hi Hj Hlt; [done|].
  destruct j as [|j]; [lia|]. destruct i as [|i]; simpl in *.
  - injection Hi as <-. rewrite Forall_forall in Hall.
    apply Hall. by eapply list_elem_of_lookup_2.
  - apply (IH i j); [done | done | lia].
Qed.

(** ** selection *)

Section SelectionProps.
Context (cfg : Config) `{StdSort}.
Abbreviation P := (POPULATION_SIZE cfg).
Abbreviation L := (INDIVIDUAL_LEN cfg).

Lemma selection_pairs_spec (fitnesses : list Q) :
  0 <= P <= Z.of_nat (length fitnesses) →
  ∃ pairs, selection_pairs cfg fitnesses = Some pairs ∧
    Z.of_nat (length pairs) = P ∧
    ∀ i, 0 <= i < P →
      ∃ f, rd fitnesses i = Some f ∧ rd pairs i = Some (f, i).
Proof.
  intros HP. unfold selection_pairs.
  set (src := λ i, f ← rd fitnesses i; Some (f, i)).
  set (init := replicate (Z.to_nat P) (0%Q, 0)).
  assert (for_ 0 P 1 (λ i pairs, f ← rd fitnesses i; wr pairs i (f, i)) init
          = for_ 0 P 1 (λ i pairs, v ← src i; wr pairs (0 + i) v) init) as ->.
  { apply for_ext; [lia|]. intros i t _. unfold src.
    by destruct (rd fitnesses i). }
  destruct (copy_loop_total src 0 0 P init) as [pairs Hpairs].
  { lia. }
  { intros i Hi. unfold src.
    destruct (rd_in_range fitnesses i) as [f ->]; [lia | done]. }
  { lia. }
  { unfold init. rewrite length_replicate. lia. }
  exists pairs. split; [done|].
  apply copy_loop_spec in Hpairs as (Hlen & Hin & _); [|lia].
  split.
  - rewrite Hlen. unfold init. rewrite length_replicate. lia.
  - intros i Hi. destruct (Hin i Hi) as [Hrd _]. unfold src in Hrd.
    destruct (rd_in_range fitnesses i) as [f Hf]; [lia|].
    exists f. split; [done|]. change (0 + i) with i in Hrd.
    by rewrite Hrd, Hf.
Qed.

Lemma selection_reorder_spec (population : list Q) (pairs : list (Q * Z))
    (newPopulation : list Q) :
  0 <= P → 0 <= L →
  Z.of_nat (length pairs) = P →
  (∀ p, p ∈ pairs → 0 <= p.2 < P) →
  P * L <= Z.of_nat (length population) →
  P * L <= Z.of_nat (length newPopulation) →
  ∃ out, selection_reorder cfg population pairs newPopulation = Some out ∧
    length out = length newPopulation ∧
    (∀ i p j, 0 <= i < P → rd pairs i = Some p → 0 <= j < L →
       rd out (i * L + j) = rd population (p.2 * L + j)) ∧
    (∀ idx, ¬ (0 <= idx < P * L) → rd out idx = rd newPopulation idx).
Proof.
  intros HP HL Hlen Hidx Hpop Hnew. unfold selection_reorder.
  destruct (for_total (λ n out,
      length out = length newPopulation ∧
      (∀ i p j, 0 <= i < n → rd pairs i = Some p → 0 <= j < L →
         rd out (i * L + j) = rd population (p.2 * L + j)) ∧
      (∀ idx, ¬ (0 <= idx < n * L) → rd out idx = rd newPopulation idx))
    0 P
    (λ i newPopulation,
      for_ 0 L 1 (λ j newPopulation,
        p ← rd pairs i;
        v ← rd population (p.2 * L + j);
        wr newPopulation (i * L + j) v) newPopulation) newPopulation)
    as (out & Hout & Hinv); [done | | | by exists out].
  - split_and!; [done | intros; lia | done].
  - intros n b Hn (Hb & Hin & Hout).
    destruct (rd_in_range pairs n) as [p Hp]; [lia|].
    assert (0 <= p.2 < P) as Hp2.
    { apply Hidx. apply rd_Some in Hp as [_ Hp].
      by eapply list_elem_of_lookup_2. }
    set (src := λ j, rd population (p.2 * L + j)).
    assert (∀ t, for_ 0 L 1 (λ j newPopulation,
                p ← rd pairs n;
                v ← rd population (p.2 * L + j);
                wr newPopulation (n * L + j) v) t
            = for_ 0 L 1 (λ j buf, v ← src j; wr buf (n * L + j) v) t) as Hshape.
    { intros t. apply for_ext; [lia|]. intros j u _. by rewrite Hp. }
    rewrite Hshape.
    destruct (copy_loop_total src (n * L) 0 L b) as [b' Hb'].
    { done. }
    { intros j Hj. apply rd_in_range. nia. }
    { nia. }
    { nia. }
    exists b'. split; [done|].
    apply copy_loop_spec in Hb' as (Hlen' & Hin' & Hout'); [|done].
    split_and!.
    + congruence.
    + intros i q j Hi Hq Hj. destruct (decide (i = n)) as [->|Hne].
      * rewrite Hp in Hq. injection Hq as <-. by apply Hin'.
      * rewrite Hout' by nia. apply Hin; [lia | done | done].
    + intros idx Hidx'. rewrite Hout' by nia. apply Hout. nia.
Qed.

End SelectionProps.

Section SelectionSpec.
Context (cfg : Config) `{StdSort}.
Abbreviation P := (POPULATION_SIZE cfg).
Abbreviation L := (INDIVIDUAL_LEN cfg).

Lemma selection_spec (population fitnesses newPopulation : list Q) :
  0 <= P <= Z.of_nat (length fitnesses) → 0 <= L →
  P * L <= Z.of_nat (length population) →
  P * L <= Z.of_nat (length newPopulation) →
  ∃ out order,
    selection cfg population fitnesses newPopulation = Some out ∧
    order ≡ₚ seqZ 0 P ∧
    length out = length newPopulation ∧
    reordered_by cfg order population out ∧
    (∀ idx, ¬ (0 <= idx < P * L) → rd out idx = rd newPopulation idx) ∧
    nondecreasing_along order fitnesses.
Proof.
  intros HP HL Hpop Hnew. unfold selection.
  destruct (selection_pairs_spec cfg fitnesses HP) as (pairs & -> & Hlen & Hpairs).
  simpl.
  pose proof (std_sort_perm _ myCmpPair pairs myCmpPair_strict_weak_order)
    as Hperm.
  pose proof (std_sort_sorted _ myCmpPair pairs myCmpPair_strict_weak_order)
    as Hsorted.
  set (sorted := std_sort myCmpPair pairs) in *.
  assert (∀ p, p ∈ sorted → 0 <= p.2 < P ∧ rd fitnesses p.2 = Some p.1)
    as Hmem.
  { intros p Hp. rewrite Hperm in Hp.
    apply list_elem_of_lookup in Hp as [n Hn].
    destruct (Hpairs (Z.of_nat n)) as (f & Hf & Hrd).
    { apply lookup_lt_Some in Hn. lia. }
    apply rd_Some in Hrd as [_ Hrd]. rewrite Nat2Z.id in Hrd.
    rewrite Hn in Hrd. injection Hrd as ->. simpl.
    split; [|done]. apply lookup_lt_Some in Hn. lia. }
  assert (pairs.*2 = seqZ 0 P) as Hsnd.
  { apply rd_ext_length.
    - rewrite length_fmap, length_seqZ. lia.
    - intros i Hi. rewrite length_fmap in Hi.
      destruct (Hpairs i) as (f & _ & [_ Hrd]%rd_Some); [lia|].
      unfold rd. destruct (Z.leb_spec 0 i); [|lia].
      rewrite list_lookup_fmap, Hrd, lookup_seqZ_lt by lia.
      simpl. f_equal. lia. }
  destruct (selection_reorder_spec cfg population sorted newPopulation)
    as (out & -> & Hlen' & Hin & Hout); [lia | done | | | done | done |].
  { by rewrite Hperm. }
  { intros p Hp. by apply Hmem. }
  exists out, (sorted.*2). split_and!; [done | | done | | done |].
  - by rewrite Hperm, Hsnd.
  - intros i k j Hi Hk Hj.
    apply rd_Some in Hk as [_ Hk]. rewrite list_lookup_fmap in Hk.
    destruct (sorted !! Z.to_nat i) as [p|] eqn:Hp; [|done].
    injection Hk as <-. apply Hin; [done | | done].
    apply rd_Some. split; [lia | done].
  - intros i i' k k' f f' Hi Hk Hk' Hf Hf'.
    apply rd_Some in Hk as [_ Hk]. rewrite list_lookup_fmap in Hk.
    apply rd_Some in Hk' as [_ Hk']. rewrite list_lookup_fmap in Hk'.
    destruct (sorted !! Z.to_nat i) as [p|] eqn:Hp; [|done].
    destruct (sorted !! Z.to_nat i') as [p'|] eqn:Hp'; [|done].
    injection Hk as <-. injection Hk' as <-.
    pose proof (sorted_by_lookup _ _ _ _ _ _ Hsorted Hp Hp' ltac:(lia)) as Hcmp.
    unfold myCmpPair in Hcmp. apply Qltb_ge in Hcmp.
    destruct (Hmem p) as [_ Hfp]; [by eapply list_elem_of_lookup_2|].
    destruct (Hmem p') as [_ Hfp']; [by eapply list_elem_of_lookup_2|].
    congruence.
Qed.

(** The individual at position 0 of the output has a least fitness. *)
Lemma selection_first_is_minimum (order : list Z) (fitnesses : list Q) k0 f0 :
  order ≡ₚ seqZ 0 P → nondecreasing_along order fitnesses →
  rd order 0 = Some k0 → rd fitnesses k0 = Some f0 →
  ∀ k f, 0 <= k < P → rd fitnesses k = Some f → (f0 <= f)%Q.
Proof.
  intros Hperm Hmono Hk0 Hf0 k f Hk Hf.
  assert (k ∈ order) as [n Hn]%list_elem_of_lookup.
  { rewrite Hperm. apply elem_of_seqZ. lia. }
  destruct n as [|n].
  - apply rd_Some in Hk0 as [_ Hk0]. change (Z.to_nat 0) with O in Hk0.
    rewrite Hn in Hk0. injection Hk0 as <-.
    rewrite Hf in Hf0. injection Hf0 as <-. apply Qle_refl.
  - apply (Hmono 0 (Z.of_nat (S n)) k0 k); [lia | done | | done | done].
    apply rd_Some. split; [lia|]. by rewrite Nat2Z.id.
Qed.

End SelectionSpec.

Lemma reordered_genes (cfg : Config) (order : list Z)
    (population out : list Q) i k :
  0 <= INDIVIDUAL_LEN cfg →
  order ≡ₚ seqZ 0 (POPULATION_SIZE cfg) →
  POPULATION_SIZE cfg * INDIVIDUAL_LEN cfg <= Z.of_nat (length population) →
  POPULATION_SIZE cfg * INDIVIDUAL_LEN cfg <= Z.of_nat (length out) →
  reordered_by cfg order population out →
  0 <= i < POPULATION_SIZE cfg → rd order i = Some k →
  genes_of cfg out i = genes_of cfg population k.
Proof.
  intros HL Hperm Hpop Hout Hre Hi Hk.
  assert (0 <= k < POPULATION_SIZE cfg) as Hk'.
  { assert (k ∈ order) as Hin.
    { apply rd_Some in Hk as [_ Hk]. by eapply list_elem_of_lookup_2. }
    rewrite Hperm in Hin. apply elem_of_seqZ in Hin. lia. }
  assert (Z.of_nat (length (genes_of cfg out i)) = INDIVIDUAL_LEN cfg) as Hlen.
  { apply length_genes_of; [lia | done | nia]. }
  apply rd_ext_length.
  - pose proof (length_genes_of cfg population k) as Hlen'. nia.
  - intros j Hj. rewrite !rd_genes_of by lia. by apply Hre; [| |lia].
Qed.


(** ** crossover *)

Section Crossover.
Context (cfg : Config).
Abbreviation P := (POPULATION_SIZE cfg).
Abbreviation L := (INDIVIDUAL_LEN cfg).

Lemma crossover_child_loop_spec old i p1 p2 c b b' :
  0 <= L →
  crossover_child_loop cfg old i p1 p2 c b = Some b' →
  length b' = length b ∧
  children_at cfg old b' i p1 p2 c ∧
  (∀ idx, ¬ (i <= idx < i + 2 * L) → rd b' idx = rd b idx).
Proof.
  intros HL Hloop. unfold crossover_child_loop in Hloop.
  assert (length b' = length b ∧
    (∀ j, 0 <= j < L →
       rd b' (i + j) = rd old ((if j <? c then p1 else p2) * L + j) ∧
       rd b' (i + j + L) = rd old ((if j <? c then p2 else p1) * L + j)) ∧
    (∀ idx, ¬ (i <= idx < i + L ∨ i + L <= idx < i + L + L) →
       rd b' idx = rd b idx)) as (Hlen & Hin & Hout).
  { eapply (for_inv (λ n t,
      length t = length b ∧
      (∀ j, 0 <= j < n →
         rd t (i + j) = rd old ((if j <? c then p1 else p2) * L + j) ∧
         rd t (i + j + L) = rd old ((if j <? c then p2 else p1) * L + j)) ∧
      (∀ idx, ¬ (i <= idx < i + n ∨ i + L <= idx < i + L + n) →
         rd t idx = rd b idx))); [| | | exact Hloop].
    - done.
    - split_and!; [done | intros; lia | done].
    - intros n t t' Hn (Hlen & Hin & Hout) Hbody.
      assert (∃ x y t1,
        rd old ((if n <? c then p1 else p2) * L + n) = Some x ∧
        wr t (i + n) x = Some t1 ∧
        rd old ((if n <? c then p2 else p1) * L + n) = Some y ∧
        wr t1 (i + n + L) y = Some t') as (x & y & t1 & Hx & Ht1 & Hy & Ht').
      { destruct (n <? c);
          apply bind_Some in Hbody as (x & Hx & Hbody);
          apply bind_Some in Hbody as (t1 & Ht1 & Hbody);
          apply bind_Some in Hbody as (y & Hy & Hbody);
          by exists x, y, t1. }
      clear Hbody. split_and!.
      + rewrite (wr_length _ _ _ _ Ht'), (wr_length _ _ _ _ Ht1). done.
      + intros j Hj. destruct (decide (j = n)) as [->|Hne].
        * rewrite Hx, Hy. split; [|by eapply rd_wr_eq].
          rewrite (rd_wr_ne _ _ _ _ _ Ht') by lia. by eapply rd_wr_eq.
        * rewrite !(rd_wr_ne _ _ _ _ _ Ht') by lia.
          rewrite !(rd_wr_ne _ _ _ _ _ Ht1) by lia. apply Hin. lia.
      + intros idx Hidx.
        rewrite (rd_wr_ne _ _ _ _ _ Ht') by lia.
        rewrite (rd_wr_ne _ _ _ _ _ Ht1) by lia. apply Hout. lia. }
  split_and!; [done | done |].
  intros idx Hidx. apply Hout. lia.
Qed.

(** The crosspoint computed from the draw [r3]. *)
Lemma crosspoint_range r3 m3 :
  3 <= L → 0 <= r3 → c_rem r3 (L - 2) = Some m3 →
  1 <= m3 + 1 <= L - 2.
Proof.
  intros HL Hr. unfold c_rem. destruct (Z.eqb_spec (L - 2) 0); [discriminate|].
  intros [= <-]. pose proof (Z.rem_bound_pos r3 (L - 2)). lia.
Qed.

Lemma crossover_pair_spec old i b rnd b' rnd' :
  3 <= L → 0 <= Z.quot P 2 → random_range rnd →
  crossover_pair cfg old i (b, rnd) = Some (b', rnd') →
  random_range rnd' ∧ length b' = length b ∧
  pair_made cfg old b' i ∧
  (∀ idx, ¬ (i <= idx < i + 2 * L) → rd b' idx = rd b idx).
Proof.
  intros HL HP Hrange Hpair. unfold crossover_pair in Hpair.
  destruct rnd as [|r1 rnd]; [discriminate|]. simpl in Hpair.
  apply bind_Some in Hpair as (m1 & Hm1 & Hpair).
  destruct rnd as [|r2 rnd]; [discriminate|]. simpl in Hpair.
  apply bind_Some in Hpair as (m2 & Hm2 & Hpair).
  destruct rnd as [|r3 rnd]; [discriminate|]. simpl in Hpair.
  apply bind_Some in Hpair as (m3 & Hm3 & Hpair).
  apply Forall_cons_1 in Hrange as [Hr1 Hrange].
  apply Forall_cons_1 in Hrange as [Hr2 Hrange].
  apply Forall_cons_1 in Hrange as [Hr3 Hrange].
  cbv beta in Hr1, Hr2, Hr3.
  apply bind_Some in Hpair as (t & Hloop & [= <- <-]).
  apply crossover_child_loop_spec in Hloop as (Hlen & Hin & Hout); [|lia].
  assert (0 <= r3) as Hr3' by lia.
  pose proof (crosspoint_range r3 m3 HL Hr3' Hm3) as Hc.
  unfold c_rem in Hm1, Hm2, Hm3.
  destruct (Z.eqb_spec (Z.quot P 2) 0) as [|Hhalf]; [discriminate|].
  destruct (Z.eqb_spec (L - 2) 0); [discriminate|].
  injection Hm1 as <-. injection Hm2 as <-. injection Hm3 as <-.
  split_and!; [done | done | | done].
  exists r1, r2, r3. simpl.
  assert (∀ r, 0 <= r → 0 <= Z.rem r (Z.quot P 2) < Z.quot P 2) as Hrem.
  { intros r Hr. apply Z.rem_bound_pos; lia. }
  split; [apply Hrem; lia|]. split; [apply Hrem; lia|]. split; [lia|]. done.
Qed.

End Crossover.

Section CrossoverWhole.
Context (cfg : Config).
Abbreviation P := (POPULATION_SIZE cfg).
Abbreviation L := (INDIVIDUAL_LEN cfg).

Lemma crossover_pair_frame old i st st' :
  0 <= L →
  crossover_pair cfg old i st = Some st' →
  length st'.1 = length st.1 ∧
  (∀ idx, ¬ (i <= idx < i + 2 * L) → rd st'.1 idx = rd st.1 idx).
Proof.
  intros HL Hpair. destruct st as [b rnd]. unfold crossover_pair in Hpair.
  apply bind_Some in Hpair as ([r1 rnd1] & _ & Hpair).
  apply bind_Some in Hpair as (m1 & _ & Hpair).
  apply bind_Some in Hpair as ([r2 rnd2] & _ & Hpair).
  apply bind_Some in Hpair as (m2 & _ & Hpair).
  apply bind_Some in Hpair as ([r3 rnd3] & _ & Hpair).
  apply bind_Some in Hpair as (m3 & _ & Hpair).
  apply bind_Some in Hpair as (t & Hloop & [= <-]).
  apply crossover_child_loop_spec in Hloop as (Hlen & _ & Hout); [|done].
  done.
Qed.

(** The first loop of [crossover]. *)
Lemma crossover_copy_spec (old new new1 : list Q) :
  for_ 0 (Z.quot P 2 * L) 1 (λ i newPopulation,
    v ← rd old i; wr newPopulation i v) new = Some new1 →
  length new1 = length new ∧
  (∀ idx, 0 <= idx < Z.quot P 2 * L → rd new1 idx = rd old idx).
Proof.
  intros Hcopy.
  destruct (Z.le_gt_cases 0 (Z.quot P 2 * L)) as [Hlo|Hlo].
  - apply (copy_loop_spec (rd old) 0) in Hcopy as (Hlen & Hin & _); [|done].
    split; [done|]. intros idx Hidx. by destruct (Hin idx Hidx).
  - rewrite for_empty in Hcopy by lia. injection Hcopy as <-.
    split; [done | intros; lia].
Qed.

(** [crossover] copies the first half: the indices below
    [POPULATION_SIZE/2*INDIVIDUAL_LEN] of the output hold the values of
    the input. *)
Lemma crossover_frame old new rnd new' rnd' :
  0 < L →
  crossover cfg old new rnd = Some (new', rnd') →
  length new' = length new ∧
  (∀ idx, 0 <= idx < Z.quot P 2 * L → rd new' idx = rd old idx).
Proof.
  intros HL Hcross. unfold crossover in Hcross.
  apply bind_Some in Hcross as (new1 & Hcopy & Hpairs).
  apply crossover_copy_spec in Hcopy as [Hlen1 Hcopy].
  set (lo := Z.quot P 2 * L) in *.
  assert (∃ k, P * L <= k ∧ (k - lo) `mod` (2 * L) = 0 ∧
            length (new', rnd').1 = length new ∧
            ∀ idx, idx < lo → rd (new', rnd').1 idx = rd new1 idx)
    as (k & _ & _ & Hlen & Hframe).
  { eapply (for_inv_step (λ k (st : list Q * list Z),
      length st.1 = length new ∧
      ∀ idx, idx < lo → rd st.1 idx = rd new1 idx)
      lo (P * L) (2 * L) (crossover_pair cfg old) (new1, rnd));
      [lia | split; [exact Hlen1 | done] | | exact Hpairs].
    intros k t t' Hk _ [Hlen Hframe] Hpair.
    apply crossover_pair_frame in Hpair as [Hlen' Hout]; [|lia].
    split; [congruence|]. intros idx Hidx.
    rewrite Hout by lia. by apply Hframe. }
  simpl in *. split; [done|]. intros idx Hidx.
  rewrite Hframe by lia. by apply Hcopy.
Qed.

Lemma pair_made_frame old b b' i :
  0 <= L →
  (∀ idx, i <= idx < i + 2 * L → rd b' idx = rd b idx) →
  pair_made cfg old b i → pair_made cfg old b' i.
Proof.
  intros HL Hsame (r1 & r2 & r3 & Hmade).
  exists r1, r2, r3. cbv zeta in *.
  destruct Hmade as (Hm1 & Hm2 & Hc & Hchildren).
  split; [done|]. split; [done|]. split; [done|].
  intros j Hj. rewrite !Hsame by lia. by apply Hchildren.
Qed.

(** Every pass of the second loop of [crossover] makes two children. *)
Lemma crossover_children old new rnd new' rnd' :
  3 <= L → random_range rnd →
  crossover cfg old new rnd = Some (new', rnd') →
  ∀ i, Z.quot P 2 * L <= i < P * L →
       (i - Z.quot P 2 * L) `mod` (2 * L) = 0 →
       pair_made cfg old new' i.
Proof.
  intros HL Hrange Hcross. unfold crossover in Hcross.
  apply bind_Some in Hcross as (new1 & _ & Hpairs).
  set (lo := Z.quot P 2 * L) in *.
  assert (∃ k, P * L <= k ∧ (k - lo) `mod` (2 * L) = 0 ∧
            random_range (new', rnd').2 ∧
            ∀ i, lo <= i < k → (i - lo) `mod` (2 * L) = 0 →
                 pair_made cfg old (new', rnd').1 i)
    as (k & Hk & _ & _ & Hmade).
  { eapply (for_inv_step (λ k (st : list Q * list Z),
      random_range st.2 ∧
      ∀ i, lo <= i < k → (i - lo) `mod` (2 * L) = 0 →
           pair_made cfg old st.1 i)
      lo (P * L) (2 * L) (crossover_pair cfg old) (new1, rnd));
      [lia | | | exact Hpairs].
    { split; [done | intros; lia]. }
    intros k [b r] [b' r'] Hk Hmod [Hr Hmade] Hpair. simpl in *.
    assert (0 <= Z.quot P 2) as Hhalf.
    { assert (Z.quot P 2 < P) as Hlt by nia.
      destruct (Z.le_gt_cases 0 P) as [HP|HP]; [by apply Z.quot_pos|].
      pose proof (Z.quot_rem' P 2) as Hqr.
      assert (2 ≠ 0) as H2 by done. assert (P <= 0) as HP' by lia.
      pose proof (Z.rem_nonpos P 2 H2 HP') as Hrem. lia. }
    apply crossover_pair_spec in Hpair as (Hr' & _ & Hnew & Hout);
      [| done | done | done].
    split; [done|]. intros i Hi Himod.
    destruct (decide (i = k)) as [->|Hne]; [done|].
    assert (i + 2 * L <= k) as Hik.
    { pose proof Hmod as [q1 Hq1]%Z.mod_divide; [|lia].
      pose proof Himod as [q2 Hq2]%Z.mod_divide; [|lia].
      destruct (Z.lt_trichotomy q2 q1) as [Hlt|[->|Hgt]]; [| lia |].
      - assert ((q2 + 1) * (2 * L) <= q1 * (2 * L))
          by (apply Z.mul_le_mono_nonneg_r; lia). lia.
      - assert ((q1 + 1) * (2 * L) <= q2 * (2 * L))
          by (apply Z.mul_le_mono_nonneg_r; lia). lia. }
    apply (pair_made_frame old b);
      [lia | intros idx Hidx; apply Hout; lia | apply Hmade; [lia | done]]. }
  intros i Hi Hmod. apply Hmade; [lia | done].
Qed.

End CrossoverWhole.

(** C4, as amended. In every crossover call with at least 3 genes per
    individual, every pass of the second loop has a crosspoint between 1
    and [INDIVIDUAL_LEN - 2], both included: it is not the first and not
    the last gene position, and each of the two children has its first
    gene from one of the offsets read and its last gene from the other. *)
Theorem crossover_crosspoint_range (cfg : Config)
    (old new : list Q) (rnd : list Z) new' rnd' :
  3 <= INDIVIDUAL_LEN cfg → random_range rnd →
  crossover cfg old new rnd = Some (new', rnd') →
  ∀ i, Z.quot (POPULATION_SIZE cfg) 2 * INDIVIDUAL_LEN cfg <= i
         < POPULATION_SIZE cfg * INDIVIDUAL_LEN cfg →
       (i - Z.quot (POPULATION_SIZE cfg) 2 * INDIVIDUAL_LEN cfg)
         `mod` (2 * INDIVIDUAL_LEN cfg) = 0 →
    ∃ p1 p2 c,
      1 <= c <= INDIVIDUAL_LEN cfg - 2 ∧
      children_at cfg old new' i p1 p2 c ∧
      rd new' i = rd old (p1 * INDIVIDUAL_LEN cfg) ∧
      rd new' (i + (INDIVIDUAL_LEN cfg - 1))
        = rd old (p2 * INDIVIDUAL_LEN cfg + (INDIVIDUAL_LEN cfg - 1)) ∧
      rd new' (i + INDIVIDUAL_LEN cfg) = rd old (p2 * INDIVIDUAL_LEN cfg) ∧
      rd new' (i + (INDIVIDUAL_LEN cfg - 1) + INDIVIDUAL_LEN cfg)
        = rd old (p1 * INDIVIDUAL_LEN cfg + (INDIVIDUAL_LEN cfg - 1)).
Proof.
  intros HL Hrange Hcross i Hi Hmod.
  destruct (crossover_children cfg old new rnd new' rnd' HL Hrange Hcross
              i Hi Hmod) as (r1 & r2 & r3 & Hmade).
  cbv zeta in Hmade. destruct Hmade as (_ & _ & Hc & Hchildren).
  eexists _, _, _. split; [exact Hc|]. split; [exact Hchildren|].
  destruct (Hchildren 0) as [Hfirst1 Hfirst2]; [lia|].
  destruct (Hchildren (INDIVIDUAL_LEN cfg - 1)) as [Hlast1 Hlast2]; [lia|].
  destruct (Z.ltb_spec 0 (Z.rem r3 (INDIVIDUAL_LEN cfg - 2) + 1)); [|lia].
  destruct (Z.ltb_spec (INDIVIDUAL_LEN cfg - 1)
              (Z.rem r3 (INDIVIDUAL_LEN cfg - 2) + 1)); [lia|].
  rewrite !Z.add_0_r in Hfirst1, Hfirst2.
  done.
Qed.

(** ** The generation loop *)

Section Generation.
Context (cfg : Config) (libm_factor : Q → Q) `{StdSort}.
Abbreviation P := (POPULATION_SIZE cfg).
Abbreviation L := (INDIVIDUAL_LEN cfg).

(** The value [fitness] computes for an individual depends on the genes
    of that individual only. *)
Lemma sumError_loop_ext (a b points : list Q) i i' :
  0 <= L →
  (∀ j, 0 <= j < L → rd a (i * L + j) = rd b (i' * L + j)) →
  sumError_loop cfg a points i = sumError_loop cfg b points i'.
Proof.
  intros HL Hsame. unfold sumError_loop.
  apply for_ext; [lia|]. intros pt acc _.
  assert (f_approx_loop cfg a points i pt = f_approx_loop cfg b points i' pt)
    as ->; [|done].
  unfold f_approx_loop. apply for_ext; [lia|].
  intros order f Horder. by rewrite Hsame.
Qed.

(** What [fitness] stores, when it returns. *)
Lemma fitness_result individuals points fits fits' :
  0 <= P →
  fitness cfg individuals points fits = Some fits' →
  ∀ i, 0 <= i < P →
    rd fits' i = sumError_loop cfg individuals points i ∧
    is_Some (rd fits' i).
Proof.
  intros HP Hfit i Hi. unfold fitness in Hfit.
  apply (copy_loop_spec (sumError_loop cfg individuals points) 0) in Hfit
    as (_ & Hin & _); [|done].
  destruct (Hin i Hi) as [Heq Hsome]. change (0 + i) with i in Heq.
  by rewrite Heq.
Qed.


End Generation.


Section Run.
Context (cfg : Config) (libm_factor : Q → Q) `{StdSort}.


(** The loop stops only at a state in which its condition is false, after
    some number of passes of its body; it does not stop for lack of fuel
    when the fuel is the number of generations still allowed. *)
Lemma ga_loop_result points fuel st st' :
  ga_loop cfg libm_factor fuel points st = Some st' →
  ga_continue cfg st' = false ∧
  ∃ n, ga_generations cfg libm_factor n points st = Some st'.
Proof.
  revert st. induction fuel as [|fuel IH]; intros st Hloop; simpl in Hloop.
  - destruct (ga_continue cfg st) eqn:Hc; [discriminate|].
    injection Hloop as <-. split; [done|]. by exists O.
  - destruct (ga_continue cfg st) eqn:Hc.
    + apply bind_Some in Hloop as (st1 & Hgen & Hloop).
      destruct (IH st1 Hloop) as (Hc' & n & Hn). split; [done|].
      exists (S n). clear -Hgen Hn. revert st' Hn.
      induction n as [|n IHn]; intros st' Hn; simpl in *.
      * injection Hn as <-. by rewrite Hgen.
      * apply bind_Some in Hn as (stn & Hn & Hgen').
        rewrite (IHn stn Hn). done.
    + injection Hloop as <-. split; [done|]. by exists O.
Qed.

Lemma ga_loop_fuel points fuel st :
  maxGenerationNumber cfg - generationNumber st <= Z.of_nat fuel →
  ga_loop cfg libm_factor fuel points st = None →
  ∃ n stn, ga_generations cfg libm_factor n points st = Some stn ∧
    ga_continue cfg stn = true ∧
    ga_generation cfg libm_factor points stn = None.
Proof.
  revert st. induction fuel as [|fuel IH]; intros st Hfuel Hloop;
    simpl in Hloop; destruct (ga_continue cfg st) eqn:Hc; try discriminate.
  - unfold ga_continue in Hc.
    destruct (Z.ltb_spec (generationNumber st) (maxGenerationNumber cfg));
      [lia | done].
  - destruct (ga_generation cfg libm_factor points st) as [st1|] eqn:Hgen.
    + simpl in Hloop.
      assert (generationNumber st1 = generationNumber st + 1) as Hnum.
      { unfold ga_generation in Hgen.
        apply bind_Some in Hgen as ([crossed rnd1] & _ & Hgen).
        apply bind_Some in Hgen as ([mutated rnd2] & _ & Hgen).
        apply bind_Some in Hgen as (fits & _ & Hgen).
        apply bind_Some in Hgen as (best & _ & Hgen).
        apply bind_Some in Hgen as (sorted & _ & [= <-]). done. }
      destruct (IH st1) as (n & stn & Hn & Hcn & Hnone); [lia | done |].
      exists (S n), stn. split; [|done].
      clear -Hgen Hn. revert stn Hn.
      induction n as [|n IHn]; intros stn Hn; simpl in *.
      * injection Hn as <-. by rewrite Hgen.
      * apply bind_Some in Hn as (stm & Hn & Hgen').
        rewrite (IHn stm Hn). done.
    + exists O, st. done.
Qed.

(** The arrays that main allocates hold a whole population. *)
Lemma init_population_length population rnd population' rnd' :
  init_population cfg population rnd = Some (population', rnd') →
  length population' = length population.
Proof.
  intros Hinit. unfold init_population in Hinit.
  destruct (Z.le_gt_cases 0 (POPULATION_SIZE cfg * INDIVIDUAL_LEN cfg))
    as [Hle|Hgt].
  - eapply (for_inv (λ _ (st : list Q * list Z),
                       length st.1 = length population)
              0 _ _ (population, rnd) (population', rnd'));
      [done | done | | exact Hinit].
    intros k [b r] [b' r'] _ Hlen Hbody. simpl in *.
    apply bind_Some in Hbody as ([x r1] & _ & Hbody).
    apply bind_Some in Hbody as (b1 & Hw & [= <- <-]).
    rewrite <- Hlen. by eapply wr_length.
  - rewrite for_empty in Hinit by lia. by injection Hinit as <-.
Qed.

Lemma main_start_buffers_fit indeterminate rnd population' rnd' st :
  0 <= POPULATION_SIZE cfg * INDIVIDUAL_LEN cfg →
  init_population cfg
    (new_array indeterminate
       (POPULATION_SIZE cfg * INDIVIDUAL_LEN cfg * sizeof_float)) rnd
    = Some (population', rnd') →
  population st = population' →
  newPopulation st
    = new_array indeterminate
        (POPULATION_SIZE cfg * INDIVIDUAL_LEN cfg * sizeof_float) →
  buffers_fit cfg st.
Proof.
  intros Hsize Hinit Hpop Hnew. apply init_population_length in Hinit.
  unfold buffers_fit. rewrite Hpop, Hnew, Hinit. unfold new_array, sizeof_float.
  rewrite length_replicate. lia.
Qed.

End Run.


(** * Concrete runs *)

Lemma rd_index_array n i v :
  rd (index_array n) i = Some v → 0 <= i < n ∧ v = inject_Z i.
Proof.
  intros [Hi Hv]%rd_Some. unfold index_array in Hv.
  rewrite list_lookup_fmap in Hv.
  destruct (seqZ 0 n !! Z.to_nat i) as [k|] eqn:Hk; [|done].
  apply lookup_seqZ in Hk as [-> Hk]. injection Hv as <-.
  split; [lia|]. f_equal. lia.
Qed.

(** C1. A call of crossover on a population of 8 individuals of 4 genes
    in which the first draw of [random()] is 3: the first gene of the
    first child is read at index 48 of the input, which is not in the
    elite half (indices 0 to 15), nor in the population (indices 0 to 31);
    no gene of the elite half has its value. *)
Theorem crossover_reads_outside_elite_half :
  ∃ new',
    crossover (sized_config 8 4 1 0) (index_array 128)
      (replicate 128 0%Q) [3; 0; 0; 0; 0; 0] = Some (new', []) ∧
    rd new' 16 = rd (index_array 128) 48 ∧
    ∀ idx, 0 <= idx < 16 → rd (index_array 128) idx ≠ rd new' 16.
Proof.
  eexists. split; [vm_compute; reflexivity|].
  split; [reflexivity|].
  intros idx Hidx Heq. change (rd _ 16) with (Some (48 : Q)) in Heq.
  apply rd_index_array in Heq as [_ Heq].
  injection Heq as Heq. lia.
Qed.

(** C4, the claim as stated fails: in this call the first child has one
    gene of the first parent and three of the second, which no crosspoint
    strictly between 1 and [INDIVIDUAL_LEN - 1] gives. *)
Lemma crossover_crosspoint_one :
  ∃ new',
    crossover (sized_config 4 4 1 0) (index_array 64)
      (replicate 64 0%Q) [0; 1; 0] = Some (new', []) ∧
    ¬ ∃ p1 p2 c, 1 < c < 4 - 1 ∧
        children_at (sized_config 4 4 1 0) (index_array 64) new' 8 p1 p2 c.
Proof.
  eexists. split; [vm_compute; reflexivity|].
  intros (p1 & p2 & c & Hc & Hchildren).
  assert (c = 2) as -> by lia.
  destruct (Hchildren 0) as [H0 _]; [simpl; lia|].
  destruct (Hchildren 1) as [H1 _]; [simpl; lia|].
  simpl in H0, H1.
  change (rd _ (8 + 0)) with (Some (0 : Q)) in H0.
  change (rd _ (8 + 1)) with (Some (17 : Q)) in H1.
  symmetry in H0, H1.
  apply rd_index_array in H0 as [_ H0]. apply rd_index_array in H1 as [_ H1].
  injection H0 as H0. injection H1 as H1. lia.
Qed.


(** Runs the option-valued computation [c] of the goal and passes its
    value on. *)
Ltac run_step :=
  match goal with
  | |- context [@mbind option _ _ _ ?f ?c] =>
      let v := fresh "v" in
      set (v := c); vm_compute in v; subst v;
      lazymatch goal with
      | |- context [@mbind option _ _ _ ?g (Some ?x)] =>
          change (@mbind option _ _ _ g (Some x)) with (g x); cbv beta iota
      end
  end.

(** C2. A generation in which [bestFitness] is not the least fitness: the
    loop sets it to 1, the fitness of the individual at index 0 before
    [selection], while the individual at index 1 has fitness 0 and is the
    one [selection] puts at index 0, whatever sort is used. *)
Theorem best_fitness_is_not_the_minimum `{StdSort} (libm_factor : Q → Q) :
  ∃ st',
    ga_generation (sized_config 4 4 1 0) libm_factor [1; 0]%Q unranked_state
      = Some st' ∧
    bestFitness st' = Fin 1 ∧
    current_fitnesses st' = [1; 0; 1; 1]%Q ∧
    genes_of (sized_config 4 4 1 0) (population st') 0 = [0; 0; 0; 0]%Q.
Proof.
  set (cfg := sized_config 4 4 1 0).
  set (mutated := ([1; 0; 0; 0;  0; 0; 0; 0;  1; 0; 0; 0;  1; 0; 0; 0]%Q
                   ++ replicate 48 0%Q)).
  set (fits := [1; 0; 1; 1]%Q).
  destruct (selection_spec cfg mutated fits (population unranked_state))
    as (out & order & Hsel & Hperm & Hlen & Hre & _ & Hmono);
    [vm_compute; split; discriminate | done
    | vm_compute; discriminate | vm_compute; discriminate |].
  exists {| population := out;
            newPopulation := mutated;
            current_fitnesses := fits;
            generationNumber := 1;
            noChangeIter := 0;
            bestFitness := Fin 1;
            previousBestFitness := Fin 1;
            random_s := [0; 0; 0];
            rand_s := replicate 30 1073741823 |}.
  split; [|split; [done|split; [done|]]].
  - unfold ga_generation.
    do 4 run_step.
    change (selection _ _ _ _) with (selection cfg mutated fits
                                        (population unranked_state)).
    rewrite Hsel. reflexivity.
  - simpl.
    assert (is_Some (rd order 0)) as [k0 Hk0].
    { apply rd_in_range. apply Permutation_length in Hperm.
      rewrite Hperm. done. }
    assert (k0 ∈ seqZ 0 (POPULATION_SIZE cfg)) as Hk0range.
    { rewrite <- Hperm. apply rd_Some in Hk0 as [_ Hk0].
      by eapply list_elem_of_lookup_2. }
    apply elem_of_seqZ in Hk0range. change (POPULATION_SIZE cfg) with 4 in *.
    assert (is_Some (rd fits k0)) as [f0 Hf0] by (apply rd_in_range; done).
    pose proof (selection_first_is_minimum cfg order fits k0 f0 Hperm Hmono
                  Hk0 Hf0 1 0%Q ltac:(done) eq_refl) as Hmin.
    assert (k0 = 1) as ->.
    { destruct (decide (k0 = 0)) as [->|]; [by injection Hf0 as <-|].
      destruct (decide (k0 = 2)) as [->|]; [by injection Hf0 as <-|].
      destruct (decide (k0 = 3)) as [->|]; [by injection Hf0 as <-|].
      lia. }
    rewrite (reordered_genes cfg order mutated out 0 1);
      [done | done | done | vm_compute; discriminate | | done | done | done].
    rewrite Hlen. vm_compute. discriminate.
Qed.

(** ** The gates of main *)

(** C8, the claim as stated fails: with no points the run is not
    rejected, it goes through one generation and reports fitness 0; with
    no individuals it is not rejected either, it reads outside the
    fitness array. *)
Lemma main_accepts_degenerate_configuration :
  (∃ solution,
     main (H := merge_StdSort) (sized_config 4 4 0 0) (λ _, 1%Q) 2 (Some [])
       0%Q [0; 0; 0] (replicate 16 0 ++ replicate 30 1073741823)
     = Completed {| rep_solution := solution;
                    rep_bestFitness := Fin 0;
                    rep_generations := 1 |}) ∧
  main (H := merge_StdSort) (sized_config 0 4 1 0) (λ _, 1%Q) 2
    (Some [(1, 1)%Q]) 0%Q [] [] = Undefined.
Proof.
  split; [eexists|]; vm_compute; reflexivity.
Qed.

(** C8, as amended. main rejects a run before it allocates the
    populations exactly when the number of arguments is not 2 or the
    input file cannot be opened, with exit code -1; no constant of the
    configuration takes part in the decision. *)
Theorem main_rejects_only_bad_invocation `{StdSort} (cfg : Config)
    (libm_factor : Q → Q) (argc : Z) (file : option (list (Q * Q)))
    (indeterminate : Q) (random_s0 rand_s0 : list Z) (code : Z) :
  main cfg libm_factor argc file indeterminate random_s0 rand_s0
    = Rejected code
  ↔ code = -1 ∧ (argc ≠ 2 ∨ file = None).
Proof.
  unfold main, readData. destruct (Z.eqb_spec argc 2) as [->|Hargc]; simpl.
  - destruct file as [pairs|]; simpl.
    + destruct (readData_loop _ _ _ _); simpl; [destruct (main_run _ _ _ _ _ _)|];
        split; try discriminate; intros [_ [?|?]]; done.
    + split; [intros [= <-]; auto | by intros [-> _]].
  - split; [intros [= <-]; auto | by intros [-> _]].
Qed.

(** ** The report of the master *)

(** The master prints the global result: the last events of its main. *)
Lemma mpi_main_run_master (cfg : Config)
    (computeGA : list Q → Z → RunResult) (env : MPIEnv) points rank r :
  readData (input_file env) (N_POINTS cfg) (indeterminate env)
    = Some (Some points) →
  commRank env = 0 →
  global_result cfg (commSize env) (indeterminate env) (computeGA points)
    = Some (rank, r) →
  mpi_main_run cfg computeGA env =
    ([EvReadData; EvComputeGA 0;
      EvPrintLocal 0 (bestFitness_o (computeGA points 0))
        (genNumber_o (computeGA points 0)) (time_o (computeGA points 0))]
     ++ recv_events (commSize env)
     ++ [EvPrintGlobal rank r; EvMPI_Finalize], Return 0).
Proof.
  intros Hread Hrank Hglobal. unfold mpi_main_run.
  rewrite Hread, Hrank. simpl.
  unfold global_result in Hglobal. by rewrite Hglobal.
Qed.

(** ** The check of the number of processes *)

(** C10. With more than 4 processes the MPI main neither reads the
    points nor computes: when the command line and the first three MPI
    calls are in order, all it does after them is to print the error
    message and to return -1. *)
Theorem mpi_main_refuses_more_than_4 (cfg : Config)
    (computeGA : list Q → Z → RunResult) (env : MPIEnv) :
  4 < commSize env →
  (∀ ev, ev ∈ (mpi_main cfg computeGA env).1 →
     ev ≠ EvReadData ∧ ∀ rank, ev ≠ EvComputeGA rank) ∧
  (argc env = 2 → MPI_Init_ok env = true →
   MPI_Comm_size_ok env = true → MPI_Comm_rank_ok env = true →
   mpi_main cfg computeGA env =
     ([EvMPI_Init; EvMPI_Comm_size; EvMPI_Comm_rank;
       EvStderr "Cannot run with more than 4 processes!"], Return (-1))).
Proof.
  intros Hsize. unfold mpi_main.
  destruct (Z.gtb_spec (commSize env) 4) as [_|]; [|lia].
  split.
  - intros ev Hev.
    destruct (argc env =? 2), (MPI_Init_ok env), (MPI_Comm_size_ok env),
      (MPI_Comm_rank_ok env); simpl in Hev;
      repeat (apply elem_of_cons in Hev as [->|Hev]);
      try (by apply elem_of_nil in Hev); split; try intros rank; discriminate.
  - intros -> -> -> ->. reflexivity.
Qed.

(** ** The values that are stored *)

(** C6, the claim as stated fails: the polynomial of the genes 1, 2^-24,
    -2^-24, 0 passes exactly through the point (1, 1), so that its sum of
    squared residuals is 0; [fitness] stores 2^-48, because the sum
    1 + 2^-24 is rounded to 1 before 2^-24 is taken away. *)
Lemma fitness_rounds_an_exact_fit :
  IEEE.fitness (sized_config 1 4 1 0) IEEE.run_libm IEEE.cancelling_genes
    [IEEE.of_int 1; IEEE.of_int 1] [IEEE.of_int 7]
  = Some [SpecFloat.S754_finite false 8388608 (-71)] ∧
  (IEEE.exact (SpecFloat.S754_finite false 8388608 (-71)) == 1 # 2 ^ 48)%Q ∧
  (poly_value (IEEE.exact <$> IEEE.cancelling_genes)
     (IEEE.exact (IEEE.of_int 1)) == IEEE.exact (IEEE.of_int 1))%Q ∧
  (score (IEEE.exact <$> IEEE.cancelling_genes)
     [(IEEE.exact (IEEE.of_int 1), IEEE.exact (IEEE.of_int 1))] == 0)%Q.
Proof.
  split; [vm_compute; reflexivity|].
  split; [vm_compute; reflexivity|].
  split; vm_compute; reflexivity.
Qed.

(** C7, the claim as stated fails: the gene 5 of the second individual
    becomes 4.98999977..., the [float] nearest to 5 - 0.01; the gene has
    changed by more than 0.01. *)
Lemma mutation_changes_by_more_than_a_hundredth :
  IEEE.mutation (sized_config 2 1 1 0) IEEE.run_libm IEEE.run_noise
    [IEEE.of_int 7; IEEE.of_int 5]
    [1610612736; 1073741824; 1610612736; 1073741824; 0]
  = Some ([IEEE.of_int 7; SpecFloat.S754_finite false 10464788 (-21)], []) ∧
  (IEEE.exact (SpecFloat.S754_finite false 10464788 (-21))
   - IEEE.exact (IEEE.of_int 5) < - (1 # 100))%Q.
Proof. split; vm_compute; reflexivity. Qed.

(** ** The theorems at concrete inputs *)

(** Proves that the draws of a given list are in a given range. *)
Ltac draws_in_range :=
  repeat first
    [ apply Forall_nil_2
    | apply Forall_cons_2;
        [vm_compute; split; first [discriminate | reflexivity]|] ].


(** The crossover call of [crossover_crosspoint_one]: the crosspoint of
    its only pass is 1. *)
Lemma crossover_crosspoint_range_witness :
  3 <= 4 ∧ random_range [0; 1; 0] ∧
  ∃ p1 p2 c,
    1 <= c <= 4 - 2 ∧
    children_at (sized_config 4 4 1 0) (index_array 64)
      ([0; 1; 2; 3; 4; 5; 6; 7; 0; 17; 18; 19; 16; 1; 2; 3]%Q
       ++ replicate 48 0%Q) 8 p1 p2 c.
Proof.
  split; [done|]. split; [draws_in_range|].
  assert (random_range [0; 1; 0]) as Hrange by draws_in_range.
  assert (crossover (sized_config 4 4 1 0) (index_array 64)
            (replicate 64 0%Q) [0; 1; 0]
          = Some ([0; 1; 2; 3; 4; 5; 6; 7; 0; 17; 18; 19; 16; 1; 2; 3]%Q
                  ++ replicate 48 0%Q, [])) as Hcross
    by (vm_compute; reflexivity).
  assert (3 <= INDIVIDUAL_LEN (sized_config 4 4 1 0)) as HL by done.
  destruct (crossover_crosspoint_range _ _ _ _ _ _ HL Hrange Hcross 8)
    as (p1 & p2 & c & Hc & Hchildren & _); [done | done |].
  by exists p1, p2, c.
Defined.


(** Two individuals and the point (1, 1): the genes of
    [IEEE.cancelling_genes], and the polynomial 1, which the accumulation
    evaluates to 1. *)
Lemma fitness_accumulates_squared_residuals_witness :
  ∃ fits',
    IEEE.fitness (sized_config 2 4 1 0) IEEE.run_libm
      (IEEE.cancelling_genes
       ++ [IEEE.of_int 1; IEEE.of_int 0; IEEE.of_int 0; IEEE.of_int 0])
      [IEEE.of_int 1; IEEE.of_int 1] [IEEE.of_int 7; IEEE.of_int 7]
    = Some fits' ∧
    fits' = [SpecFloat.S754_finite false 8388608 (-71); IEEE.of_int 0] ∧
    ∀ i, 0 <= i < 2 →
      ∃ s, rd fits' i = Some s ∧
        s = IEEE.score_float IEEE.run_libm
              (IEEE.genes_of (sized_config 2 4 1 0)
                 (IEEE.cancelling_genes
                  ++ [IEEE.of_int 1; IEEE.of_int 0; IEEE.of_int 0;
                      IEEE.of_int 0]) i)
              (IEEE.point_set (sized_config 2 4 1 0)
                 [IEEE.of_int 1; IEEE.of_int 1]) ∧
        IEEE.not_negative s ∧ IEEE.ltb s (IEEE.of_int 0) = false ∧
        ((∀ x y, (x, y) ∈ IEEE.point_set (sized_config 2 4 1 0)
                             [IEEE.of_int 1; IEEE.of_int 1] →
            IEEE.poly_float IEEE.run_libm
              (IEEE.genes_of (sized_config 2 4 1 0)
                 (IEEE.cancelling_genes
                  ++ [IEEE.of_int 1; IEEE.of_int 0; IEEE.of_int 0;
                      IEEE.of_int 0]) i) x = y ∧
            IEEE.is_number y) →
         s = IEEE.of_int 0).
Proof.
  assert (∃ fits',
    IEEE.fitness (sized_config 2 4 1 0) IEEE.run_libm
      (IEEE.cancelling_genes
       ++ [IEEE.of_int 1; IEEE.of_int 0; IEEE.of_int 0; IEEE.of_int 0])
      [IEEE.of_int 1; IEEE.of_int 1] [IEEE.of_int 7; IEEE.of_int 7]
    = Some fits' ∧
    ∀ i, 0 <= i < 2 →
      ∃ s, rd fits' i = Some s ∧
        s = IEEE.score_float IEEE.run_libm
              (IEEE.genes_of (sized_config 2 4 1 0)
                 (IEEE.cancelling_genes
                  ++ [IEEE.of_int 1; IEEE.of_int 0; IEEE.of_int 0;
                      IEEE.of_int 0]) i)
              (IEEE.point_set (sized_config 2 4 1 0)
                 [IEEE.of_int 1; IEEE.of_int 1]) ∧
        IEEE.not_negative s ∧ IEEE.ltb s (IEEE.of_int 0) = false ∧
        ((∀ x y, (x, y) ∈ IEEE.point_set (sized_config 2 4 1 0)
                             [IEEE.of_int 1; IEEE.of_int 1] →
            IEEE.poly_float IEEE.run_libm
              (IEEE.genes_of (sized_config 2 4 1 0)
                 (IEEE.cancelling_genes
                  ++ [IEEE.of_int 1; IEEE.of_int 0; IEEE.of_int 0;
                      IEEE.of_int 0]) i) x = y ∧
            IEEE.is_number y) →
         s = IEEE.of_int 0)) as (fits' & Hfit & Hall).
  { apply (fitness_accumulates_squared_residuals (sized_config 2 4 1 0)
             IEEE.run_libm).
    - apply pow_rounded_square.
    - reflexivity.
    - done.
    - done.
    - done.
    - vm_compute; discriminate.
    - vm_compute; discriminate.
    - vm_compute; discriminate. }
  exists fits'. split; [done|]. split; [|done].
  vm_compute in Hfit. by injection Hfit as <-.
Defined.

(** The run of [mutation_changes_by_more_than_a_hundredth]. *)
Lemma mutation_adds_a_rounded_delta_witness :
  ∃ individuals' rnd',
    IEEE.mutation (sized_config 2 1 1 0) IEEE.run_libm IEEE.run_noise
      [IEEE.of_int 7; IEEE.of_int 5]
      [1610612736; 1073741824; 1610612736; 1073741824; 0]
    = Some (individuals', rnd') ∧
    rd individuals' 1
    = Some (IEEE.add_delta (IEEE.of_int 5)
              (IEEE.mutation_delta
                 (IEEE.f_div (IEEE.of_int 0) (IEEE.of_int 2147483647)))) ∧
    (∀ j, 0 <= j < 1 →
       rd individuals' j = rd [IEEE.of_int 7; IEEE.of_int 5] j) ∧
    (∀ idx g g', rd [IEEE.of_int 7; IEEE.of_int 5] idx = Some g →
       rd individuals' idx = Some g' →
       g' = g ∨
       ∃ r delta,
         r ∈ [1610612736; 1073741824; 1610612736; 1073741824; 0] ∧
         delta = IEEE.mutation_delta
                   (IEEE.f_div (IEEE.of_int r) (IEEE.of_int 2147483647)) ∧
         IEEE.at_most delta IEEE.d_0_01 ∧
         g' = IEEE.add_delta g delta).
Proof.
  eexists _, _.
  split; [vm_compute; reflexivity|]. split; [vm_compute; reflexivity|].
  eapply (mutation_adds_a_rounded_delta (sized_config 2 1 1 0) IEEE.run_libm
            IEEE.run_noise [IEEE.of_int 7; IEEE.of_int 5]
            [1610612736; 1073741824; 1610612736; 1073741824; 0]).
  - vm_compute; discriminate.
  - draws_in_range.
  - vm_compute; reflexivity.
Defined.


(** Two processes with the same fitness: the master reports rank 0. *)
Example global_result_tie :
  global_result (sized_config 4 4 1 0) 2 0%Q (λ _, three_workers 1)
  = Some (0, three_workers 1).
Proof. vm_compute. reflexivity. Qed.


(** Five processes. *)
Lemma mpi_main_refuses_more_than_4_witness :
  let env := {| argc := 2; MPI_Init_ok := true; MPI_Comm_size_ok := true;
                MPI_Comm_rank_ok := true; commSize := 5; commRank := 0;
                input_file := Some [(1, 0)%Q]; indeterminate := 0 |} in
  mpi_main (sized_config 4 4 1 0) (λ _, three_workers) env =
    ([EvMPI_Init; EvMPI_Comm_size; EvMPI_Comm_rank;
      EvStderr "Cannot run with more than 4 processes!"], Return (-1)).
Proof.
  intros env.
  apply (mpi_main_refuses_more_than_4 (sized_config 4 4 1 0)
           (λ _, three_workers) env); reflexivity.
Defined.

(** * Further properties of the operators *)

(** ** crossover: what is written and what is drawn *)

Section CrossoverMore.
Context (cfg : Config).
Abbreviation P := (POPULATION_SIZE cfg).
Abbreviation L := (INDIVIDUAL_LEN cfg).

(** [POPULATION_SIZE/2] for a size that is not negative. *)
Lemma half_bounds :
  0 <= P → 0 <= Z.quot P 2 ∧ 2 * Z.quot P 2 <= P < 2 * Z.quot P 2 + 2.
Proof.
  intros HP. pose proof (Z.quot_rem' P 2) as Hqr.
  pose proof (Z.rem_bound_pos P 2 HP ltac:(done)) as Hrem. lia.
Qed.

(** The first loop writes below [POPULATION_SIZE/2*INDIVIDUAL_LEN] only. *)
Lemma crossover_copy_frame (old new new1 : list Q) :
  for_ 0 (Z.quot P 2 * L) 1 (λ i newPopulation,
    v ← rd old i; wr newPopulation i v) new = Some new1 →
  ∀ idx, ¬ (0 <= idx < Z.quot P 2 * L) → rd new1 idx = rd new idx.
Proof.
  intros Hcopy idx Hidx.
  destruct (Z.le_gt_cases 0 (Z.quot P 2 * L)) as [Hlo|Hlo].
  - apply (copy_loop_spec (rd old) 0) in Hcopy as (_ & _ & Hout); [|done].
    apply Hout. lia.
  - rewrite for_empty in Hcopy by lia. by injection Hcopy as <-.
Qed.

Lemma crossover_copy_reads (old new new1 : list Q) :
  for_ 0 (Z.quot P 2 * L) 1 (λ i newPopulation,
    v ← rd old i; wr newPopulation i v) new = Some new1 →
  ∀ idx, 0 <= idx < Z.quot P 2 * L → is_Some (rd old idx).
Proof.
  intros Hcopy idx Hidx.
  apply (copy_loop_spec (rd old) 0) in Hcopy as (_ & Hin & _); [|lia].
  by destruct (Hin idx Hidx).
Qed.

(** A pass of the second loop takes three draws. *)
Lemma crossover_pair_draws old i b rnd b' rnd' :
  crossover_pair cfg old i (b, rnd) = Some (b', rnd') →
  ∃ r1 r2 r3, rnd = r1 :: r2 :: r3 :: rnd'.
Proof.
  intros Hpair. unfold crossover_pair in Hpair.
  destruct rnd as [|r1 rnd]; [discriminate|]. simpl in Hpair.
  apply bind_Some in Hpair as (m1 & _ & Hpair).
  destruct rnd as [|r2 rnd]; [discriminate|]. simpl in Hpair.
  apply bind_Some in Hpair as (m2 & _ & Hpair).
  destruct rnd as [|r3 rnd]; [discriminate|]. simpl in Hpair.
  apply bind_Some in Hpair as (m3 & _ & Hpair).
  apply bind_Some in Hpair as (t & _ & [= _ <-]). eauto.
Qed.

(** A start [k] of a pass of the second loop: the two children end at or
    before index [(POPULATION_SIZE + 1) * INDIVIDUAL_LEN]. *)
Lemma pair_start_bounds k :
  0 < L → 0 <= P →
  Z.quot P 2 * L <= k < P * L →
  (k - Z.quot P 2 * L) `mod` (2 * L) = 0 →
  0 <= k ∧ k + 2 * L <= (P + 1) * L.
Proof.
  intros HL HP Hk Hmod. destruct (half_bounds HP) as [Hh _].
  apply Z.mod_divide in Hmod as [q Hq]; [|lia].
  split; [nia|].
  assert (k = (Z.quot P 2 + 2 * q) * L) as Hk' by lia.
  assert (Z.quot P 2 + 2 * q < P) as Hlt by nia.
  nia.
Qed.

End CrossoverMore.

(** X1. crossover keeps the length of the output array and copies the
    first half of the population: every gene of the individuals 0 to
    [POPULATION_SIZE/2 - 1] of the input is at the same index of the
    output. *)
Theorem crossover_keeps_elite (cfg : Config) (old new : list Q)
    (rnd : list Z) new' rnd' :
  0 < INDIVIDUAL_LEN cfg →
  crossover cfg old new rnd = Some (new', rnd') →
  length new' = length new ∧
  ∀ i j, 0 <= i < Z.quot (POPULATION_SIZE cfg) 2 →
         0 <= j < INDIVIDUAL_LEN cfg →
    rd new' (i * INDIVIDUAL_LEN cfg + j) = rd old (i * INDIVIDUAL_LEN cfg + j)
    ∧ is_Some (rd old (i * INDIVIDUAL_LEN cfg + j)).
Proof.
  intros HL Hcross.
  destruct (crossover_frame cfg old new rnd new' rnd' HL Hcross)
    as [Hlen Helite].
  split; [done|]. intros i j Hi Hj.
  assert (0 <= i * INDIVIDUAL_LEN cfg + j
          < Z.quot (POPULATION_SIZE cfg) 2 * INDIVIDUAL_LEN cfg) as Hidx by nia.
  split; [by apply Helite|].
  unfold crossover in Hcross.
  apply bind_Some in Hcross as (new1 & Hcopy & _).
  by apply (crossover_copy_reads cfg old new new1).
Qed.

(** X2. crossover writes nowhere below index 0 and nowhere at or above
    index [(POPULATION_SIZE + 1) * INDIVIDUAL_LEN]: the second child of
    the last pass can lie one individual past the population, not
    further. *)
Theorem crossover_write_bounds (cfg : Config) (old new : list Q)
    (rnd : list Z) new' rnd' :
  0 < INDIVIDUAL_LEN cfg → 0 <= POPULATION_SIZE cfg →
  crossover cfg old new rnd = Some (new', rnd') →
  ∀ idx, idx < 0 ∨ (POPULATION_SIZE cfg + 1) * INDIVIDUAL_LEN cfg <= idx →
    rd new' idx = rd new idx.
Proof.
  intros HL HP Hcross. unfold crossover in Hcross.
  apply bind_Some in Hcross as (new1 & Hcopy & Hpairs).
  pose proof (crossover_copy_frame cfg old new new1 Hcopy) as Hframe1.
  destruct (half_bounds cfg HP) as [Hh Hh'].
  set (lo := Z.quot (POPULATION_SIZE cfg) 2 * INDIVIDUAL_LEN cfg) in *.
  set (top := (POPULATION_SIZE cfg + 1) * INDIVIDUAL_LEN cfg).
  assert (∃ k, POPULATION_SIZE cfg * INDIVIDUAL_LEN cfg <= k ∧
            (k - lo) `mod` (2 * INDIVIDUAL_LEN cfg) = 0 ∧
            ∀ idx, idx < 0 ∨ top <= idx →
                   rd (new', rnd').1 idx = rd new1 idx)
    as (k & _ & _ & Hframe2).
  { eapply (for_inv_step (λ k (st : list Q * list Z),
      ∀ idx, idx < 0 ∨ top <= idx → rd st.1 idx = rd new1 idx)
      lo (POPULATION_SIZE cfg * INDIVIDUAL_LEN cfg) (2 * INDIVIDUAL_LEN cfg)
      (crossover_pair cfg old) (new1, rnd));
      [lia | done | | exact Hpairs].
    intros k t t' Hk Hmod Hinv Hpair.
    apply crossover_pair_frame in Hpair as [_ Hout]; [|lia].
    destruct (pair_start_bounds cfg k HL HP Hk Hmod) as [Hk0 Hktop].
    intros idx Hidx. rewrite Hout by (unfold top in *; lia).
    by apply Hinv. }
  intros idx Hidx. simpl in Hframe2. rewrite Hframe2 by done.
  apply Hframe1. unfold top, lo in *. nia.
Qed.

(** X3. crossover takes three draws of [random()] for every pass of its
    second loop and none besides: the draws it leaves are the draws it
    got without the first [3 * ((POPULATION_SIZE - POPULATION_SIZE/2 + 1)
    / 2)]. *)
Theorem crossover_draws_three_per_pair (cfg : Config) (old new : list Q)
    (rnd : list Z) new' rnd' :
  0 < INDIVIDUAL_LEN cfg → 0 <= POPULATION_SIZE cfg →
  crossover cfg old new rnd = Some (new', rnd') →
  ∃ used, rnd = used ++ rnd' ∧
    Z.of_nat (length used)
    = 3 * ((POPULATION_SIZE cfg - Z.quot (POPULATION_SIZE cfg) 2 + 1) `div` 2).
Proof.
  intros HL HP Hcross. unfold crossover in Hcross.
  apply bind_Some in Hcross as (new1 & _ & Hpairs).
  destruct (half_bounds cfg HP) as [Hh Hh'].
  set (h := Z.quot (POPULATION_SIZE cfg) 2) in *.
  set (lo := h * INDIVIDUAL_LEN cfg) in *.
  set (hi := POPULATION_SIZE cfg * INDIVIDUAL_LEN cfg) in *.
  assert (∃ k, hi <= k ∧ (k - lo) `mod` (2 * INDIVIDUAL_LEN cfg) = 0 ∧
            (k = lo ∨ k - 2 * INDIVIDUAL_LEN cfg < hi) ∧
            ∃ used, rnd = used ++ (new', rnd').2 ∧
              Z.of_nat (length used) * (2 * INDIVIDUAL_LEN cfg) = 3 * (k - lo))
    as (k & Hk & Hmod & Hlast & used & Hused & Hcount).
  { eapply (for_inv_step (λ k (st : list Q * list Z),
      (k = lo ∨ k - 2 * INDIVIDUAL_LEN cfg < hi) ∧
      ∃ used, rnd = used ++ st.2 ∧
        Z.of_nat (length used) * (2 * INDIVIDUAL_LEN cfg) = 3 * (k - lo))
      lo hi (2 * INDIVIDUAL_LEN cfg) (crossover_pair cfg old) (new1, rnd));
      [lia | | | exact Hpairs].
    - split; [by left|]. exists []. split; [done | simpl; lia].
    - intros k [b r] [b' r'] Hk Hmod (_ & used & Hused & Hcount) Hpair.
      apply crossover_pair_draws in Hpair as (r1 & r2 & r3 & ->).
      simpl in *. split; [right; lia|].
      exists (used ++ [r1; r2; r3]). split.
      + by rewrite <- app_assoc.
      + rewrite length_app. simpl. lia. }
  exists used. split; [done|].
  apply Z.mod_divide in Hmod as [q Hq]; [|lia].
  assert (Z.of_nat (length used) = 3 * q) as -> by nia.
  f_equal. apply Z.div_unique with (r := POPULATION_SIZE cfg - h + 1 - 2 * q).
  - left. unfold lo, hi in *. destruct Hlast as [Hlast|Hlast]; nia.
  - lia.
Qed.

(** A loop whose first pass has no result has none. *)
Lemma for_first_fails {St} lo hi step (body : Z → St → option St) s :
  lo < hi → body lo s = None → for_ lo hi step body s = None.
Proof.
  intros Hlt Hbody. unfold for_.
  destruct (Z.to_nat (hi - lo)) as [|fuel]; cbn [for_fuel];
    destruct (Z.ltb_spec lo hi); try lia; [done|].
  by rewrite Hbody.
Qed.

(** X4. crossover has no defined result when [POPULATION_SIZE/2] is 0
    or [INDIVIDUAL_LEN] is 2 in a population that is not empty: the first
    pass of the second loop takes a remainder modulo 0. *)
Theorem crossover_undefined_modulo_zero (cfg : Config) (old new : list Q)
    (rnd : list Z) :
  0 < INDIVIDUAL_LEN cfg → 0 < POPULATION_SIZE cfg →
  Z.quot (POPULATION_SIZE cfg) 2 = 0 ∨ INDIVIDUAL_LEN cfg = 2 →
  crossover cfg old new rnd = None.
Proof.
  intros HL HP Hzero. unfold crossover.
  destruct (for_ 0 _ 1 _ new) as [new1|]; [|done].
  destruct (half_bounds cfg ltac:(lia)) as [Hh Hh'].
  change (Some new1 ≫= ?f) with (f new1). cbv beta.
  apply for_first_fails; [nia|].
  unfold crossover_pair, c_rem.
  destruct rnd as [|r1 [|r2 [|r3 rnd]]]; simpl; try done;
    destruct Hzero as [Hz|Hz]; rewrite ?Hz; simpl; try done;
    repeat (destruct (_ =? 0); simpl; try done).
Qed.

(** ** mutation and the random numbers *)

(** X5. mutation keeps the length of the array and changes nothing at or
    above index [POPULATION_SIZE * INDIVIDUAL_LEN]; with at most one
    individual it changes nothing and takes no draw. *)
Theorem mutation_write_bounds (cfg : Config) (libm_factor : Q → Q)
    (individuals : list Q) (rnd : list Z) individuals' rnd' :
  mutation cfg libm_factor individuals rnd = Some (individuals', rnd') →
  length individuals' = length individuals ∧
  (∀ idx, POPULATION_SIZE cfg * INDIVIDUAL_LEN cfg <= idx →
     rd individuals' idx = rd individuals idx) ∧
  (POPULATION_SIZE cfg <= 1 → individuals' = individuals ∧ rnd' = rnd).
Proof.
  intros Hmut.
  destruct (Z.le_gt_cases (POPULATION_SIZE cfg) 1) as [HP|HP].
  { unfold mutation in Hmut. rewrite for_empty in Hmut by done.
    by injection Hmut as <- <-. }
  split; [by eapply mutation_frame|]. split; [|lia].
  destruct (Z.le_gt_cases (INDIVIDUAL_LEN cfg) 0) as [HL|HL].
  { by apply mutation_no_genes in Hmut as ->. }
  assert (mutation_inv cfg (λ _, True) individuals
            (POPULATION_SIZE cfg * INDIVIDUAL_LEN cfg) (individuals', rnd'))
    as (_ & _ & Hframe & _).
  { eapply (for_inv (λ i st,
      mutation_inv cfg (λ _, True) individuals (i * INDIVIDUAL_LEN cfg) st)
      1 _ _ (individuals, rnd)); [lia | | | exact Hmut].
    - split_and!; simpl; [by apply Forall_true | done | done |].
      intros idx g g' Hg Hg'. left. congruence.
    - intros i t t' Hi Ht Hind.
      eapply mutation_individual_inv; [done | lia | done | done]. }
  intros idx Hidx. apply Hframe. by right.
Qed.

(** X6. stdrand returns exactly when its draws begin with pairs for which
    [S >= 1] holds of the [float] [S], followed by a pair for which it
    does not (also when [S] is a NaN): the result is the [float] of
    [V1 * sqrt((-2.0*log(S))/S)] for that pair, and the draws after it
    are left. *)
Theorem stdrand_first_accepted_pair (cfg : Config) (libm : IEEE.Libm)
    (rnd : list Z) (x : IEEE.float) (rnd' : list Z) :
  IEEE.stdrand cfg libm rnd = Some (x, rnd')
  ↔ ∃ rejected r1 r2,
      rnd = rejected ++ r1 :: r2 :: rnd' ∧
      IEEE.all_rejected cfg libm rejected ∧
      IEEE.geb (IEEE.box_S cfg libm r1 r2) (IEEE.of_int 1) = false ∧
      x = IEEE.box_X cfg libm r1 r2.
Proof.
  split; [apply stdrand_float_accepted|].
  intros (rejected & r1 & r2 & -> & Hrej & Hacc & ->).
  by apply stdrand_float_accepts.
Qed.

(** The pair of draws (1, 2^30) is rejected, [V1] being rounded to -1;
    the pair (2^30 - 1, 2^30 - 1) is accepted with [S = 0] and gives a
    NaN. *)
Example stdrand_rounded_pairs :
  IEEE.stdrand (sized_config 4 4 1 0) IEEE.run_libm
    [1; 1073741824; 1073741823; 1073741823; 8]
  = Some (SpecFloat.S754_nan, [8]).
Proof. vm_compute; reflexivity. Qed.

(** X7. For draws of [rand()] between 0 and [RAND_MAX], the pair of
    draws that stdrand accepts has values [V1] and [V2] that are numbers
    between -1 and 1. *)
Theorem stdrand_accepted_in_unit_square (cfg : Config) (libm : IEEE.Libm)
    (rnd : list Z) (x : IEEE.float) (rnd' : list Z) :
  IEEE.not_rounded_down (Z.pos (RAND_MAX cfg)) →
  rand_range cfg rnd →
  IEEE.stdrand cfg libm rnd = Some (x, rnd') →
  ∃ r1 r2, r1 ∈ rnd ∧ r2 ∈ rnd ∧
    IEEE.geb (IEEE.box_S cfg libm r1 r2) (IEEE.of_int 1) = false ∧
    x = IEEE.box_X cfg libm r1 r2 ∧
    IEEE.at_most (IEEE.box_V cfg r1) (IEEE.of_int 1) ∧
    IEEE.at_most (IEEE.box_V cfg r2) (IEEE.of_int 1).
Proof.
  intros HRM Hrange
    (rejected & r1 & r2 & -> & _ & Hacc & ->)%stdrand_float_accepted.
  apply Forall_app in Hrange as [_ Hrange].
  apply Forall_cons_1 in Hrange as [Hr1 Hrange].
  apply Forall_cons_1 in Hrange as [Hr2 _].
  exists r1, r2. split_and!; [| | done | done | |].
  - apply elem_of_app. right. apply list_elem_of_here.
  - apply elem_of_app. right. apply list_elem_of_further, list_elem_of_here.
  - by apply bounded_by_one, box_V_bounded.
  - by apply bounded_by_one, box_V_bounded.
Qed.

(** X8. frand takes one draw [r] and returns the [float] quotient of the
    [float] of [r] and the [float] of [RAND_MAX]; for a draw between 0
    and [RAND_MAX] it is a number between 0 and 1. *)
Theorem frand_unit_interval (cfg : Config) (rnd : list Z) (f : IEEE.float)
    (rnd' : list Z) :
  IEEE.not_rounded_down (Z.pos (RAND_MAX cfg)) →
  rand_range cfg rnd →
  IEEE.frand cfg rnd = Some (f, rnd') →
  ∃ r, rnd = r :: rnd' ∧
    f = IEEE.f_div (IEEE.of_int r) (IEEE.of_int (Z.pos (RAND_MAX cfg))) ∧
    IEEE.is_number f ∧ (0 <= IEEE.exact f <= 1)%Q.
Proof.
  intros HRM Hrange Hf. unfold IEEE.frand in Hf.
  destruct rnd as [|r rnd]; [discriminate|]. simpl in Hf.
  injection Hf as <- <-. apply Forall_cons_1 in Hrange as [Hr _].
  exists r. split; [done|]. split; [done|].
  destruct (frand_value_bounded _ _ HRM Hr) as [Hs Hu].
  destruct (bounded_by_one _ Hu) as [Hn Hle].
  split; [done|]. split; [by apply not_negative_exact|].
  eapply Qle_trans; [apply Qle_Qabs|].
  eapply Qle_trans; [exact Hle|]. vm_compute. discriminate.
Qed.

(** The draw 2^30 - 1 gives 0.5, the draw [RAND_MAX] gives 1: the [float]
    of both 2^31 - 1 and 2^30 - 1 is a power of 2. *)
Example frand_rounded_values :
  IEEE.frand (sized_config 4 4 1 0) [1073741823; 2147483647]
  = Some (SpecFloat.S754_finite false 8388608 (-24), [2147483647]) ∧
  IEEE.frand (sized_config 4 4 1 0) [2147483647]
  = Some (IEEE.of_int 1, []).
Proof. split; vm_compute; reflexivity. Qed.

(** The [double] of the literal [0.01] lies above 1/100. *)
Example literal_0_01_above_a_hundredth :
  (1 # 100 < IEEE.exact IEEE.d_0_01)%Q ∧
  (IEEE.exact IEEE.d_0_01 < (1 # 100) + (1 # 10 ^ 18))%Q.
Proof. split; vm_compute; reflexivity. Qed.

(** ** The first population *)

(** X9. The initialisation loop of main writes the first
    [POPULATION_SIZE * INDIVIDUAL_LEN] entries of the array and no other:
    each of them gets a value between -5 and 5 (for draws of [rand()]
    between 0 and [RAND_MAX]), one draw is taken per entry, and the
    length of the array is kept. *)
Theorem init_population_range (cfg : Config) (population : list Q)
    (rnd : list Z) population' rnd' :
  rand_range cfg rnd →
  init_population cfg population rnd = Some (population', rnd') →
  length population' = length population ∧
  (∀ i, 0 <= i < POPULATION_SIZE cfg * INDIVIDUAL_LEN cfg →
     ∃ g, rd population' i = Some g ∧ (-5 <= g)%Q ∧ (g <= 5)%Q) ∧
  (∀ i, ¬ (0 <= i < POPULATION_SIZE cfg * INDIVIDUAL_LEN cfg) →
     rd population' i = rd population i) ∧
  ∃ used, rnd = used ++ rnd' ∧
    Z.of_nat (length used)
    = Z.max 0 (POPULATION_SIZE cfg * INDIVIDUAL_LEN cfg).
Proof.
  intros Hrange Hinit. unfold init_population in Hinit.
  set (n := POPULATION_SIZE cfg * INDIVIDUAL_LEN cfg) in *.
  destruct (Z.le_gt_cases 0 n) as [Hn|Hn].
  2: { rewrite for_empty in Hinit by lia. injection Hinit as <- <-.
       split_and!; [done | intros; lia | done |].
       exists []. split; [done | simpl; lia]. }
  assert (length (population', rnd').1 = length population ∧
    (∀ i, 0 <= i < n →
       ∃ g, rd (population', rnd').1 i = Some g ∧ (-5 <= g)%Q ∧ (g <= 5)%Q) ∧
    (∀ i, ¬ (0 <= i < n) → rd (population', rnd').1 i = rd population i) ∧
    ∃ used, rnd = used ++ (population', rnd').2 ∧
      Z.of_nat (length used) = n ∧ rand_range cfg (population', rnd').2)
    as (Hlen & Hin & Hout & used & Hused & Hcount & _).
  { eapply (for_inv (λ m (st : list Q * list Z),
      length st.1 = length population ∧
      (∀ i, 0 <= i < m →
         ∃ g, rd st.1 i = Some g ∧ (-5 <= g)%Q ∧ (g <= 5)%Q) ∧
      (∀ i, ¬ (0 <= i < m) → rd st.1 i = rd population i) ∧
      ∃ used, rnd = used ++ st.2 ∧
        Z.of_nat (length used) = m ∧ rand_range cfg st.2)
      0 n _ (population, rnd)); [done | | | exact Hinit].
    - split_and!; [done | intros; lia | done |].
      exists []. by split_and!.
    - intros m [b r] [b' r'] Hm (Hlen & Hin & Hout & used & Hused & Hcount & Hr)
        Hbody. simpl in *.
      destruct r as [|x r]; [discriminate|]. simpl in Hbody.
      apply bind_Some in Hbody as (b1 & Hw & [= <- <-]).
      apply Forall_cons_1 in Hr as [Hx Hr]. cbv beta in Hx.
      split_and!.
      + rewrite <- Hlen. by eapply wr_length.
      + intros i Hi. destruct (decide (i = m)) as [->|Hne].
        * eexists. split; [by eapply rd_wr_eq|].
          unfold Qle, Qminus, Qplus, Qmult, Qopp. simpl. split; nia.
        * rewrite (rd_wr_ne _ _ _ _ _ Hw) by done. apply Hin. lia.
      + intros i Hi. rewrite (rd_wr_ne _ _ _ _ _ Hw) by lia. apply Hout. lia.
      + exists (used ++ [x]). split_and!; [| |done].
        * by rewrite <- app_assoc.
        * rewrite length_app. simpl. lia. }
  simpl in *. split_and!; [done | done | done |].
  exists used. split; [done | lia].
Qed.

(** ** fitness: edge cases and what it depends on *)

(** X10. With no points ([N_POINTS <= 0]) fitness gives every individual
    the score 0, whatever its genes; it reads no gene and no point. *)
Theorem fitness_without_points (cfg : Config)
    (individuals points fits : list Q) :
  N_POINTS cfg <= 0 →
  0 <= POPULATION_SIZE cfg <= Z.of_nat (length fits) →
  ∃ fits', fitness cfg individuals points fits = Some fits' ∧
    length fits' = length fits ∧
    ∀ i, 0 <= i < POPULATION_SIZE cfg → rd fits' i = Some 0%Q.
Proof.
  intros HN HP.
  assert (∀ i, sumError_loop cfg individuals points i = Some 0%Q) as Hzero.
  { intros i. unfold sumError_loop. by rewrite for_empty. }
  destruct (copy_loop_total (sumError_loop cfg individuals points) 0 0
              (POPULATION_SIZE cfg) fits) as [fits' Hfits'];
    [lia | by intros; rewrite Hzero | lia | lia |].
  exists fits'. split; [exact Hfits'|].
  apply copy_loop_spec in Hfits' as (Hlen & Hin & _); [|lia].
  split; [done|]. intros i Hi. destruct (Hin i Hi) as [Heq _].
  change (0 + i) with i in Heq. by rewrite Heq.
Qed.

(** X11. The score fitness gives an individual depends on the genes of
    that individual only: two populations in which an individual has the
    same genes (at any two positions) give it the same score. *)
Theorem fitness_depends_on_genes_only (cfg : Config)
    (a b points fits_a fits_b fits_a' fits_b' : list Q) (i i' : Z) :
  0 <= INDIVIDUAL_LEN cfg →
  0 <= i < POPULATION_SIZE cfg → 0 <= i' < POPULATION_SIZE cfg →
  fitness cfg a points fits_a = Some fits_a' →
  fitness cfg b points fits_b = Some fits_b' →
  (∀ j, 0 <= j < INDIVIDUAL_LEN cfg →
     rd a (i * INDIVIDUAL_LEN cfg + j) = rd b (i' * INDIVIDUAL_LEN cfg + j)) →
  rd fits_a' i = rd fits_b' i' ∧ is_Some (rd fits_a' i).
Proof.
  intros HL Hi Hi' Ha Hb Hsame.
  destruct (fitness_result cfg a points fits_a fits_a' ltac:(lia) Ha i Hi)
    as [-> Hsome].
  destruct (fitness_result cfg b points fits_b fits_b' ltac:(lia) Hb i' Hi')
    as [-> _].
  split; [by apply sumError_loop_ext | done].
Qed.

(** ** selection and the loop *)


Section LoopMore.
Context (cfg : Config) (libm_factor : Q → Q) `{StdSort}.

(** A pass of the body adds one to [generationNumber]. *)
Lemma ga_generation_number points st st' :
  ga_generation cfg libm_factor points st = Some st' →
  generationNumber st' = generationNumber st + 1.
Proof.
  intros Hgen. unfold ga_generation in Hgen.
  apply bind_Some in Hgen as ([crossed rnd1] & _ & Hgen).
  apply bind_Some in Hgen as ([mutated rnd2] & _ & Hgen).
  apply bind_Some in Hgen as (fits & _ & Hgen).
  apply bind_Some in Hgen as (best & _ & Hgen).
  by apply bind_Some in Hgen as (sorted & _ & [= <-]).
Qed.


End LoopMore.



(** X15. With no generation allowed ([maxGenerationNumber <= 0] or
    [maxConstIter <= 0]) main, when it completes, has run no pass of the
    loop: it reports generation 0 and the best fitness INFINITY. *)
Theorem main_without_generations `{StdSort} (cfg : Config)
    (libm_factor : Q → Q) (argc : Z) (file : option (list (Q * Q)))
    (indeterminate : Q) (random_s0 rand_s0 : list Z) (r : Report) :
  maxGenerationNumber cfg <= 0 ∨ maxConstIter cfg <= 0 →
  main cfg libm_factor argc file indeterminate random_s0 rand_s0
    = Completed r →
  rep_generations r = 0 ∧ rep_bestFitness r = PInf.
Proof.
  intros Hzero Hmain. unfold main in Hmain.
  destruct (negb (argc =? 2)); [discriminate|].
  destruct (readData _ _ _) as [[points|]|]; try discriminate.
  destruct (main_run _ _ _ _ _ _) as [r'|] eqn:Hrun; [|discriminate].
  injection Hmain as ->. unfold main_run in Hrun.
  apply bind_Some in Hrun as ([pop0 rnd0] & _ & Hrun).
  apply bind_Some in Hrun as (st & Hloop & Hrun).
  assert (st = {| population := pop0;
                  newPopulation :=
                    new_array indeterminate
                      (POPULATION_SIZE cfg * INDIVIDUAL_LEN cfg * sizeof_float);
                  current_fitnesses :=
                    new_array indeterminate (POPULATION_SIZE cfg);
                  generationNumber := 0; noChangeIter := 0;
                  bestFitness := PInf; previousBestFitness := PInf;
                  random_s := random_s0; rand_s := rnd0 |}) as ->.
  { destruct (Z.to_nat (maxGenerationNumber cfg)) as [|fuel];
      simpl in Hloop; unfold ga_continue in Hloop; simpl in Hloop.
    all: destruct (Z.ltb_spec 0 (maxGenerationNumber cfg));
      destruct (Z.ltb_spec 0 (maxConstIter cfg)); simpl in Hloop;
      try lia; try discriminate; by injection Hloop as <-. }
  simpl in Hrun.
  apply bind_Some in Hrun as (c0 & _ & Hrun).
  apply bind_Some in Hrun as (c1 & _ & Hrun).
  apply bind_Some in Hrun as (c2 & _ & Hrun).
  apply bind_Some in Hrun as (c3 & _ & [= <-]). done.
Qed.

(** ** readData *)

Section ReadData.
Context (N : Z).

Lemma readData_loop_spec pairs : ∀ k points,
  0 <= k → k + Z.of_nat (length pairs) <= N →
  Z.of_nat (length points) = 2 * N →
  ∃ points', readData_loop pairs N k points = Some points' ∧
    length points' = length points ∧
    (∀ n p, pairs !! n = Some p →
       rd points' (k + Z.of_nat n) = Some p.1 ∧
       rd points' (N + (k + Z.of_nat n)) = Some p.2) ∧
    (∀ idx, idx < k ∨ (k + Z.of_nat (length pairs) <= idx < N + k) ∨
            N + k + Z.of_nat (length pairs) <= idx →
       rd points' idx = rd points idx).
Proof.
  induction pairs as [|[x y] pairs IH]; intros k points Hk Hfit Hlen.
  - exists points. simpl. split_and!; done.
  - simpl in Hfit. cbn [readData_loop].
    rewrite wr_in_range by lia. simpl.
    rewrite wr_in_range by (rewrite length_insert; lia). simpl.
    destruct (IH (k + 1) (<[Z.to_nat (N + k):=y]> (<[Z.to_nat k:=x]> points)))
      as (points' & -> & Hlen' & Hin & Hout);
      [lia | lia | by rewrite !length_insert |].
    exists points'. split; [done|]. split.
    { by rewrite Hlen', !length_insert. }
    assert (∀ idx, rd (<[Z.to_nat (N + k):=y]> (<[Z.to_nat k:=x]> points)) idx
                   = if decide (idx = N + k) then Some y
                     else if decide (idx = k) then Some x
                     else rd points idx) as Hrd.
    { intros idx.
      assert (wr points k x = Some (<[Z.to_nat k:=x]> points)) as Hw1
        by (apply wr_in_range; lia).
      assert (wr (<[Z.to_nat k:=x]> points) (N + k) y
              = Some (<[Z.to_nat (N + k):=y]> (<[Z.to_nat k:=x]> points)))
        as Hw2 by (apply wr_in_range; rewrite length_insert; lia).
      destruct (decide (idx = N + k)) as [->|Hne1].
      { by eapply rd_wr_eq. }
      rewrite (rd_wr_ne _ _ _ _ _ Hw2) by done.
      destruct (decide (idx = k)) as [->|Hne2].
      { by eapply rd_wr_eq. }
      by rewrite (rd_wr_ne _ _ _ _ _ Hw1). }
    split.
    + intros n p Hn. destruct n as [|n]; simpl in Hn.
      * injection Hn as <-. simpl.
        rewrite !Hout by lia. rewrite !Hrd.
        rewrite Z.add_0_r.
        destruct (decide (k = N + k)); [lia|].
        destruct (decide (k = k)); [|done].
        destruct (decide (N + k = N + k)); done.
      * destruct (Hin n p Hn) as [Hx Hy].
        replace (k + Z.of_nat (S n)) with (k + 1 + Z.of_nat n) by lia.
        done.
    + intros idx Hidx. simpl in Hidx. rewrite Hout by lia. rewrite Hrd.
      destruct (decide (idx = N + k)); [lia|].
      destruct (decide (idx = k)); [lia | done].
Qed.

Lemma readData_loop_overrun pairs : ∀ k points,
  0 <= k <= N → N - k < Z.of_nat (length pairs) →
  Z.of_nat (length points) = 2 * N →
  readData_loop pairs N k points = None.
Proof.
  induction pairs as [|[x y] pairs IH]; intros k points Hk Hmany Hlen.
  - simpl in Hmany. lia.
  - cbn [readData_loop].
    destruct (wr points k x) as [points1|] eqn:Hw1; [simpl|done].
    destruct (wr points1 (N + k) y) as [points2|] eqn:Hw2; [simpl|done].
    apply wr_length in Hw1 as Hlen1.
    apply wr_Some in Hw2 as [Hrange ->].
    apply IH; [lia | simpl in Hmany; lia |].
    rewrite length_insert. lia.
Qed.

End ReadData.

(** X16. readData of a file with exactly [N_POINTS] pairs returns an
    array of [2 * N_POINTS] values from which the pairs of the file are
    read back, in order: the x values in the first half, the y values in
    the second. *)
Theorem readData_round_trip (cfg : Config) (pairs : list (Q * Q))
    (indeterminate : Q) :
  Z.of_nat (length pairs) = N_POINTS cfg →
  ∃ points,
    readData (Some pairs) (N_POINTS cfg) indeterminate = Some (Some points) ∧
    Z.of_nat (length points) = 2 * N_POINTS cfg ∧
    point_set cfg points = pairs.
Proof.
  intros Hlen. unfold readData.
  destruct (readData_loop_spec (N_POINTS cfg) pairs 0
              (new_array indeterminate (2 * N_POINTS cfg)))
    as (points & -> & Hlen' & Hin & _).
  { done. }
  { lia. }
  { unfold new_array. rewrite length_replicate. lia. }
  assert (Z.of_nat (length points) = 2 * N_POINTS cfg) as Hsize.
  { rewrite Hlen'. unfold new_array. rewrite length_replicate. lia. }
  exists points. split; [done|]. split; [done|].
  apply list_eq. intros n. unfold point_set.
  rewrite lookup_zip_with.
  destruct (pairs !! n) as [[x y]|] eqn:Hn.
  - pose proof (lookup_lt_Some _ _ _ Hn) as Hlt.
    destruct (Hin n (x, y) Hn) as [[_ Hx]%rd_Some [_ Hy]%rd_Some].
    simpl in Hx, Hy.
    rewrite !lookup_take_lt by lia. rewrite lookup_drop.
    replace (Z.to_nat (0 + Z.of_nat n)) with n in Hx by lia.
    replace (Z.to_nat (N_POINTS cfg + (0 + Z.of_nat n)))
      with (Z.to_nat (N_POINTS cfg) + n)%nat in Hy by lia.
    by rewrite Hx, Hy.
  - apply lookup_ge_None in Hn.
    rewrite (lookup_ge_None_2 (take _ points)); [done|].
    rewrite length_take. lia.
Qed.

(** X17. readData of a file with more than [POINTS_CNT] pairs has no
    defined result: the loop has no bound and writes past the end of the
    array of [2 * POINTS_CNT] values. *)
Theorem readData_overruns_long_file (pairs : list (Q * Q)) (POINTS_CNT : Z)
    (indeterminate : Q) :
  0 <= POINTS_CNT → POINTS_CNT < Z.of_nat (length pairs) →
  readData (Some pairs) POINTS_CNT indeterminate = None.
Proof.
  intros HN Hmany. unfold readData.
  rewrite (readData_loop_overrun POINTS_CNT pairs 0); [done | lia | lia |].
  unfold new_array. rewrite length_replicate. lia.
Qed.

(** ** crossover: when it is defined *)

Section CrossoverTotal.
Context (cfg : Config).
Abbreviation P := (POPULATION_SIZE cfg).
Abbreviation L := (INDIVIDUAL_LEN cfg).

Lemma crossover_child_loop_total old i p1 p2 c (b : list Q) :
  0 <= L →
  0 <= p1 * L → p1 * L + L <= Z.of_nat (length old) →
  0 <= p2 * L → p2 * L + L <= Z.of_nat (length old) →
  0 <= i → i + 2 * L <= Z.of_nat (length b) →
  ∃ b', crossover_child_loop cfg old i p1 p2 c b = Some b' ∧
        length b' = length b.
Proof.
  intros HL Hp1 Hp1' Hp2 Hp2' Hi Hi'. unfold crossover_child_loop.
  apply (for_total (λ _ (t : list Q), length t = length b)); [done | done |].
  intros j t Hj Hlen.
  destruct (rd_in_range old (p1 * L + j)) as [a1 Ha1]; [lia|].
  destruct (rd_in_range old (p2 * L + j)) as [a2 Ha2]; [lia|].
  destruct (j <? c); rewrite ?Ha1, ?Ha2; simpl;
    rewrite wr_in_range by lia; simpl; rewrite ?Ha1, ?Ha2; simpl;
    rewrite wr_in_range by (rewrite length_insert; lia);
    (eexists; split; [done|]); by rewrite !length_insert.
Qed.

Lemma crossover_total (old new : list Q) (rnd : list Z) :
  3 <= L → 2 <= P → random_range rnd →
  3 * ((P - Z.quot P 2 + 1) `div` 2) <= Z.of_nat (length rnd) →
  ((Z.quot P 2 - 1) * L + 1) * L <= Z.of_nat (length old) →
  (Z.quot P 2 + 2 * ((P - Z.quot P 2 + 1) `div` 2)) * L
    <= Z.of_nat (length new) →
  ∃ new' rnd', crossover cfg old new rnd = Some (new', rnd') ∧
               length new' = length new.
Proof.
  intros HL HP Hrange Hdraws Hold Hnew. unfold crossover.
  assert (0 <= P) as HP0 by lia.
  destruct (half_bounds cfg HP0) as [_ Hh].
  set (h := Z.quot P 2) in *. set (n := (P - h + 1) `div` 2) in *.
  assert (1 <= h) as Hh1 by lia.
  assert (1 <= n) as Hn1.
  { subst n. apply Z.div_le_lower_bound; lia. }
  assert (h * L <= ((h - 1) * L + 1) * L) as Hcopy_old.
  { assert (0 <= (h - 1) * L * (L - 1)) by (apply Z.mul_nonneg_nonneg; nia).
    nia. }
  assert (h * L <= (h + 2 * n) * L) as Hcopy_new by nia.
  destruct (copy_loop_total (rd old) 0 0 (h * L) new) as [new1 Hcopy].
  { nia. }
  { intros k Hk. apply rd_in_range. lia. }
  { lia. }
  { lia. }
  change (for_ 0 (h * L) 1 (λ i newPopulation,
            v ← rd old i; wr newPopulation i v) new = Some new1) in Hcopy.
  rewrite Hcopy. simpl.
  apply crossover_copy_spec in Hcopy as [Hlen1 _].
  destruct (for_fuel_total (λ k (st : list Q * list Z),
      ∃ q, 0 <= q ∧ k = h * L + 2 * L * q ∧
           length st.1 = length new ∧ random_range st.2 ∧
           3 * (n - q) <= Z.of_nat (length st.2))
    (Z.to_nat (P * L - h * L)) (h * L) (P * L) (2 * L)
    (crossover_pair cfg old) (new1, rnd))
    as ([new' rnd'] & k & Hloop & _ & q & _ & _ & Hlen & _).
  - lia.
  - lia.
  - exists 0. simpl. split_and!; [done | lia | done | done | lia].
  - intros k [b r] Hk (q & Hq & -> & Hlen & Hr & Hd). simpl in Hlen, Hr, Hd.
    assert (h + 2 * q < P) as Hlt by nia.
    assert (q + 1 <= n) as Hqn.
    { subst n. apply Z.div_le_lower_bound; lia. }
    destruct r as [|r1 [|r2 [|r3 r]]]; simpl in Hd; try lia.
    apply Forall_cons_1 in Hr as [Hr1 Hr].
    apply Forall_cons_1 in Hr as [Hr2 Hr].
    apply Forall_cons_1 in Hr as [Hr3 Hr].
    cbv beta in Hr1, Hr2, Hr3.
    unfold crossover_pair, c_rem. fold h. simpl.
    destruct (Z.eqb_spec h 0) as [|_]; [lia|]. simpl.
    destruct (Z.eqb_spec h 0) as [|_]; [lia|]. simpl.
    destruct (Z.eqb_spec (L - 2) 0) as [|_]; [lia|]. simpl.
    pose proof (Z.rem_bound_pos r1 h) as Hm1.
    pose proof (Z.rem_bound_pos r2 h) as Hm2.
    destruct (crossover_child_loop_total old (h * L + 2 * L * q)
                (Z.rem r1 h * L) (Z.rem r2 h * L) (Z.rem r3 (L - 2) + 1) b)
      as (b' & -> & Hlen').
    { lia. }
    { nia. }
    { assert (Z.rem r1 h * L <= (h - 1) * L) by nia. nia. }
    { nia. }
    { assert (Z.rem r2 h * L <= (h - 1) * L) by nia. nia. }
    { nia. }
    { rewrite Hlen.
      assert ((h + 2 * (q + 1)) * L <= (h + 2 * n) * L) by nia. lia. }
    simpl. eexists. split; [done|].
    exists (q + 1). simpl. split_and!; [lia | lia | congruence | done | lia].
  - unfold for_. rewrite Hloop. simpl in Hlen. eauto.
Qed.

End CrossoverTotal.

(** X18. crossover is defined, and keeps the length of the output array,
    when the population has at least two individuals of at least three
    genes, the stream of [random()] holds three draws for every pass of
    the second loop, the input array reaches the index
    [((POPULATION_SIZE/2 - 1) * INDIVIDUAL_LEN + 1) * INDIVIDUAL_LEN],
    which is where the scaled parent index reads, and the output array
    holds the copied half and two children for every pass. *)
Theorem crossover_defined (cfg : Config) (old new : list Q) (rnd : list Z) :
  3 <= INDIVIDUAL_LEN cfg → 2 <= POPULATION_SIZE cfg → random_range rnd →
  3 * ((POPULATION_SIZE cfg - Z.quot (POPULATION_SIZE cfg) 2 + 1) `div` 2)
    <= Z.of_nat (length rnd) →
  ((Z.quot (POPULATION_SIZE cfg) 2 - 1) * INDIVIDUAL_LEN cfg + 1)
    * INDIVIDUAL_LEN cfg <= Z.of_nat (length old) →
  (Z.quot (POPULATION_SIZE cfg) 2
   + 2 * ((POPULATION_SIZE cfg - Z.quot (POPULATION_SIZE cfg) 2 + 1) `div` 2))
    * INDIVIDUAL_LEN cfg <= Z.of_nat (length new) →
  ∃ new' rnd', crossover cfg old new rnd = Some (new', rnd') ∧
               length new' = length new.
Proof. apply crossover_total. Qed.

(** X19. On the arrays that main allocates, of
    [POPULATION_SIZE * INDIVIDUAL_LEN * sizeof(float)] values each,
    crossover stays inside the arrays for every individual length from 3
    to 8: the allocation is four times the population, and the scaled
    parent index reads within it. *)
Theorem crossover_defined_on_main_arrays (cfg : Config) (old new : list Q)
    (rnd : list Z) :
  3 <= INDIVIDUAL_LEN cfg <= 8 → 2 <= POPULATION_SIZE cfg →
  Z.of_nat (length old)
    = POPULATION_SIZE cfg * INDIVIDUAL_LEN cfg * sizeof_float →
  Z.of_nat (length new)
    = POPULATION_SIZE cfg * INDIVIDUAL_LEN cfg * sizeof_float →
  random_range rnd →
  3 * ((POPULATION_SIZE cfg - Z.quot (POPULATION_SIZE cfg) 2 + 1) `div` 2)
    <= Z.of_nat (length rnd) →
  is_Some (crossover cfg old new rnd).
Proof.
  intros HL HP Hold Hnew Hrange Hdraws.
  assert (0 <= POPULATION_SIZE cfg) as HP0 by lia.
  destruct (half_bounds cfg HP0) as [Hh0 Hh].
  set (h := Z.quot (POPULATION_SIZE cfg) 2) in *.
  set (n := (POPULATION_SIZE cfg - h + 1) `div` 2) in *.
  assert (2 * n <= POPULATION_SIZE cfg - h + 1) as Hn.
  { subst n. pose proof (Z.mul_div_le (POPULATION_SIZE cfg - h + 1) 2). lia. }
  destruct (crossover_total cfg old new rnd) as (new' & rnd' & -> & _);
    fold h; fold n; try done; try lia.
  - rewrite Hold. unfold sizeof_float.
    assert ((h - 1) * INDIVIDUAL_LEN cfg + 1 <= POPULATION_SIZE cfg * 4)
      by nia.
    nia.
  - rewrite Hnew. unfold sizeof_float.
    assert (h + 2 * n <= POPULATION_SIZE cfg * 4) by lia. nia.
Qed.

(** X20. readData of a file with fewer than [POINTS_CNT] pairs is defined,
    and the entries of the pairs that are missing, in both halves of the
    array, hold what the allocation left there. *)
Theorem readData_short_file (pairs : list (Q * Q)) (POINTS_CNT : Z)
    (indeterminate : Q) :
  Z.of_nat (length pairs) <= POINTS_CNT →
  ∃ points,
    readData (Some pairs) POINTS_CNT indeterminate = Some (Some points) ∧
    Z.of_nat (length points) = 2 * POINTS_CNT ∧
    ∀ k, Z.of_nat (length pairs) <= k < POINTS_CNT →
      rd points k = Some indeterminate ∧
      rd points (POINTS_CNT + k) = Some indeterminate.
Proof.
  intros Hlen. unfold readData.
  assert (Z.of_nat (length (new_array indeterminate (2 * POINTS_CNT)))
          = 2 * POINTS_CNT) as Hsize.
  { unfold new_array. rewrite length_replicate. lia. }
  destruct (readData_loop_spec POINTS_CNT pairs 0
              (new_array indeterminate (2 * POINTS_CNT)))
    as (points & -> & Hlen' & _ & Hout); [done | lia | done |].
  exists points. split; [done|]. split; [by rewrite Hlen'|].
  assert (∀ idx, 0 <= idx < 2 * POINTS_CNT →
            rd (new_array indeterminate (2 * POINTS_CNT)) idx
            = Some indeterminate) as Hnew.
  { intros idx Hidx. apply rd_Some. split; [lia|].
    apply lookup_replicate_2. lia. }
  intros k Hk. rewrite !Hout by lia. split; apply Hnew; lia.
Qed.

(** ** findMinimum *)


(** ** The MPI main: the messages and the report *)

Section Messages.
Context (cfg : Config) (computeGA : list Q → Z → RunResult).

Lemma recv_tags_app source t1 t2 :
  recv_tags source (t1 ++ t2) = recv_tags source t1 ++ recv_tags source t2.
Proof. unfold recv_tags. apply omap_app. Qed.


(** The receives of the master from the ranks of [sources]. *)
Lemma recv_tags_others source (sources : list Z) :
  source ∉ sources →
  recv_tags source
    (i ← sources; [EvRecv i 11; EvRecv i 22; EvRecv i 33; EvRecv i 44]) = [].
Proof.
  induction sources as [|i sources IH]; intros Hnot; [done|].
  apply not_elem_of_cons in Hnot as [Hne Hnot].
  change (recv_tags source
    ([EvRecv i 11; EvRecv i 22; EvRecv i 33; EvRecv i 44] ++
     (i ← sources; [EvRecv i 11; EvRecv i 22; EvRecv i 33; EvRecv i 44]))
    = []).
  rewrite recv_tags_app, IH by done.
  unfold recv_tags. simpl.
  destruct (Z.eqb_spec i source); [congruence | done].
Qed.

Lemma recv_tags_recv_events commSize source :
  1 <= source < commSize →
  recv_tags source (recv_events commSize) = [11; 22; 33; 44].
Proof.
  intros Hsource. unfold recv_events.
  replace (commSize - 1) with ((source - 1) + (1 + (commSize - 1 - source)))
    by lia.
  rewrite seqZ_app by lia.
  rewrite (seqZ_cons (1 + (source - 1))) by lia.
  replace (1 + (source - 1)) with source by lia.
  rewrite bind_app, recv_tags_app.
  change (recv_tags source
    ((i ← seqZ 1 (source - 1);
        [EvRecv i 11; EvRecv i 22; EvRecv i 33; EvRecv i 44]))
    ++ recv_tags source
      ([EvRecv source 11; EvRecv source 22; EvRecv source 33;
        EvRecv source 44] ++
       (i ← seqZ (Z.succ source) (Z.pred (1 + (commSize - 1 - source)));
          [EvRecv i 11; EvRecv i 22; EvRecv i 33; EvRecv i 44]))
    = [11; 22; 33; 44]).
  rewrite recv_tags_app, !recv_tags_others.
  - unfold recv_tags. simpl. by rewrite Z.eqb_refl.
  - rewrite elem_of_seqZ. lia.
  - rewrite elem_of_seqZ. lia.
Qed.


Lemma readData_defined (env : MPIEnv) :
  mpi_started cfg env →
  ∃ points, readData (input_file env) (N_POINTS cfg) (indeterminate env)
            = Some (Some points).
Proof.
  intros (_ & _ & _ & _ & pairs & -> & Hlen). unfold readData.
  destruct (readData_loop_spec (N_POINTS cfg) pairs 0
              (new_array (indeterminate env) (2 * N_POINTS cfg)))
    as (points & -> & _); [done | lia | | by exists points].
  unfold new_array. rewrite length_replicate. lia.
Qed.

(** main after the checks, for a process that has started. *)
Lemma mpi_main_started (env : MPIEnv) :
  mpi_started cfg env → commSize env <= 4 →
  mpi_main cfg computeGA env =
    ([EvMPI_Init; EvMPI_Comm_size; EvMPI_Comm_rank]
       ++ (mpi_main_run cfg computeGA env).1,
     (mpi_main_run cfg computeGA env).2).
Proof.
  intros (Hargc & Hinit & Hsize & Hrank & _) Hfour. unfold mpi_main.
  rewrite Hargc, Hinit, Hsize, Hrank. simpl.
  destruct (Z.gtb_spec (commSize env) 4) as [|_]; [lia|].
  by destruct (mpi_main_run cfg computeGA env).
Qed.


End Messages.

(** X22. The messages of the MPI main match: with at most 4 processes,
    what the master (rank 0) receives from a worker of rank [r], and what
    that worker sends, are the same four tags 11, 22, 33, 44 in the same
    order; the worker sends to rank 0 only, receives nothing, reports no
    global result and returns 0. *)
Theorem mpi_messages_match (cfg : Config)
    (computeGA : list Q → Z → RunResult) (master worker : MPIEnv) :
  mpi_started cfg master → mpi_started cfg worker →
  commSize master = commSize worker → commSize worker <= 4 →
  commRank master = 0 → 1 <= commRank worker < commSize worker →
  recv_tags (commRank worker) (mpi_main cfg computeGA master).1
    = send_tags (mpi_main cfg computeGA worker).1 ∧
  send_tags (mpi_main cfg computeGA worker).1 = [11; 22; 33; 44] ∧
  (∀ ev, ev ∈ (mpi_main cfg computeGA worker).1 →
     (∀ dest tag, ev = EvSend dest tag → dest = 0) ∧
     (∀ source tag, ev ≠ EvRecv source tag) ∧
     (∀ rank r, ev ≠ EvPrintGlobal rank r)) ∧
  (mpi_main cfg computeGA worker).2 = Return 0.
Proof.
  intros Hmaster Hworker Hsame Hfour Hzero Hrank.
  assert (commSize master <= 4) as Hfour' by lia.
  rewrite (mpi_main_started cfg computeGA master Hmaster Hfour').
  rewrite (mpi_main_started cfg computeGA worker Hworker Hfour).
  destruct (readData_defined cfg master Hmaster) as [points Hpoints].
  destruct (readData_defined cfg worker Hworker) as [points' Hpoints'].
  unfold mpi_main_run. rewrite Hpoints, Hpoints', Hzero.
  destruct (Z.eqb_spec (commRank worker) 0) as [|_]; [lia|].
  change (0 =? 0) with true. cbv iota. cbn [fst snd].
  assert (send_tags
    ([EvMPI_Init; EvMPI_Comm_size; EvMPI_Comm_rank]
      ++ [EvReadData; EvComputeGA (commRank worker);
          EvPrintLocal (commRank worker)
            (bestFitness_o (computeGA points' (commRank worker)))
            (genNumber_o (computeGA points' (commRank worker)))
            (time_o (computeGA points' (commRank worker)))]
         ++ send_events ++ [EvMPI_Finalize])
    = [11; 22; 33; 44]) as Hsend by reflexivity.
  split_and!.
  - rewrite Hsend.
    destruct (master_gather cfg (commSize master) (indeterminate master)
                (computeGA points 0) (computeGA points) ≫=
              best_of cfg (commSize master)) as [[best r]|];
      cbn [fst]; rewrite !recv_tags_app, recv_tags_recv_events by lia;
      reflexivity.
  - exact Hsend.
  - intros ev Hev. unfold send_events in Hev.
    repeat (apply elem_of_cons in Hev as [->|Hev];
            [split_and!; intros; congruence|]).
    by apply elem_of_nil in Hev.
  - reflexivity.
Qed.


(** ** The report of main *)

Section Report.
Context (cfg : Config) (libm_factor : Q → Q) `{StdSort}.

(** The state after the loop: the first state, or a state after at least
    one pass and at most [maxGenerationNumber] passes in all. *)
Lemma ga_loop_count points fuel : ∀ st st',
  ga_loop cfg libm_factor fuel points st = Some st' →
  st' = st ∨
  generationNumber st < generationNumber st' <= maxGenerationNumber cfg.
Proof.
  induction fuel as [|fuel IH]; intros st st' Hloop;
    simpl in Hloop; destruct (ga_continue cfg st) eqn:Hc; try discriminate.
  - injection Hloop as <-. by left.
  - apply bind_Some in Hloop as (st1 & Hgen & Hloop).
    pose proof (ga_generation_number cfg libm_factor points st st1 Hgen)
      as Hnum.
    assert (generationNumber st < maxGenerationNumber cfg) as Hlt.
    { unfold ga_continue in Hc.
      destruct (Z.ltb_spec (generationNumber st) (maxGenerationNumber cfg));
        [done | discriminate]. }
    right. destruct (IH st1 st' Hloop) as [-> | Hcount]; lia.
  - injection Hloop as <-. by left.
Qed.

End Report.

(** X24. What main reports when it completes: four coefficients; and
    either no pass of the loop was made, and then the generation count is
    0 and the best fitness is the INFINITY it was initialised with, or
    the generation count is between 1 and [maxGenerationNumber]. *)
Theorem main_report `{StdSort} (cfg : Config)
    (libm_factor : Q → Q) (argc : Z) (file : option (list (Q * Q)))
    (indeterminate : Q) (random_s0 rand_s0 : list Z) (r : Report) :
  main cfg libm_factor argc file indeterminate random_s0 rand_s0
    = Completed r →
  length (rep_solution r) = 4%nat ∧
  ((rep_generations r = 0 ∧ rep_bestFitness r = PInf) ∨
   0 < rep_generations r <= maxGenerationNumber cfg).
Proof.
  intros Hmain. unfold main in Hmain.
  destruct (negb (argc =? 2)); [discriminate|].
  destruct (readData _ _ _) as [[points|]|]; try discriminate.
  destruct (main_run _ _ _ _ _ _) as [r'|] eqn:Hrun; [|discriminate].
  injection Hmain as ->. unfold main_run in Hrun.
  apply bind_Some in Hrun as ([pop0 rnd0] & _ & Hrun).
  apply bind_Some in Hrun as (st & Hloop & Hrun).
  apply bind_Some in Hrun as (c0 & _ & Hrun).
  apply bind_Some in Hrun as (c1 & _ & Hrun).
  apply bind_Some in Hrun as (c2 & _ & Hrun).
  apply bind_Some in Hrun as (c3 & _ & [= <-]). simpl.
  split; [done|].
  apply ga_loop_count in Hloop as [-> | Hcount]; [by left |].
  right. simpl in Hcount. lia.
Qed.

(** ** The comparator of selection *)

(** X25. myCmpPair, the comparator that selection passes to std::sort, is
    a strict weak ordering of the pairs (fitness, index), which is what
    std::sort requires of it: no pair is before itself, the order is
    transitive, and so is having the same fitness; the index takes no
    part in it. *)
Theorem myCmpPair_meets_sort_requirement :
  StrictWeakOrder myCmpPair ∧
  ∀ f1 f2 i1 i2 j1 j2,
    myCmpPair (f1, i1) (f2, i2) = myCmpPair (f1, j1) (f2, j2).
Proof.
  split; [apply myCmpPair_strict_weak_order | done].
Qed.

(** ** The further theorems at concrete inputs *)

(** Four individuals of 4 genes: the individuals 0 and 1 are copied. *)
Lemma crossover_keeps_elite_witness :
  ∃ new' rnd',
    crossover (sized_config 4 4 1 0) (index_array 64) (replicate 64 0%Q)
      [0; 1; 0] = Some (new', rnd') ∧
    rd new' 7 = Some 7%Q ∧
    length new' = length (replicate 64 0%Q) ∧
    ∀ i j, 0 <= i < Z.quot 4 2 → 0 <= j < 4 →
      rd new' (i * 4 + j) = rd (index_array 64) (i * 4 + j)
      ∧ is_Some (rd (index_array 64) (i * 4 + j)).
Proof.
  eexists _, _.
  split; [vm_compute; reflexivity|]. split; [vm_compute; reflexivity|].
  eapply (crossover_keeps_elite (sized_config 4 4 1 0) (index_array 64)
           (replicate 64 0%Q) [0; 1; 0]).
  - done.
  - vm_compute; reflexivity.
Defined.

(** Two individuals of 4 genes: the second child is written at the
    indices 8 to 11, after the population, and nothing from 12 on. *)
Lemma crossover_write_bounds_witness :
  ∃ new' rnd',
    crossover (sized_config 2 4 1 0) (index_array 16) (replicate 16 9%Q)
      [0; 0; 0] = Some (new', rnd') ∧
    rd new' 11 = Some 3%Q ∧
    ∀ idx, idx < 0 ∨ (2 + 1) * 4 <= idx →
      rd new' idx = rd (replicate 16 9%Q) idx.
Proof.
  eexists _, _.
  split; [vm_compute; reflexivity|]. split; [vm_compute; reflexivity|].
  eapply (crossover_write_bounds (sized_config 2 4 1 0) (index_array 16)
           (replicate 16 9%Q) [0; 0; 0]).
  - done.
  - done.
  - vm_compute; reflexivity.
Defined.

(** One pass of the second loop, three draws out of four. *)
Lemma crossover_draws_three_per_pair_witness :
  ∃ new' rnd',
    crossover (sized_config 4 4 1 0) (index_array 64) (replicate 64 0%Q)
      [0; 1; 0; 7] = Some (new', rnd') ∧
    rnd' = [7] ∧
    ∃ used, [0; 1; 0; 7] = used ++ rnd' ∧
      Z.of_nat (length used) = 3 * ((4 - Z.quot 4 2 + 1) `div` 2).
Proof.
  eexists _, _.
  split; [vm_compute; reflexivity|]. split; [reflexivity|].
  eapply (crossover_draws_three_per_pair (sized_config 4 4 1 0)
           (index_array 64) (replicate 64 0%Q) [0; 1; 0; 7]
           ([0; 1; 2; 3; 4; 5; 6; 7; 0; 17; 18; 19; 16; 1; 2; 3]%Q
            ++ replicate 48 0%Q)).
  - done.
  - done.
  - vm_compute; reflexivity.
Defined.

(** One individual: [POPULATION_SIZE/2] is 0. *)
Lemma crossover_undefined_modulo_zero_witness :
  Z.quot 1 2 = 0 ∧
  crossover (sized_config 1 4 1 0) (index_array 16) (replicate 16 0%Q)
    [0; 0; 0] = None.
Proof.
  split; [reflexivity|].
  eapply (crossover_undefined_modulo_zero (sized_config 1 4 1 0)).
  - done.
  - done.
  - left. reflexivity.
Defined.

(** The mutation of two individuals in an array of 10 values. *)
Lemma mutation_write_bounds_witness :
  ∃ individuals' rnd',
    mutation (sized_config 2 4 1 5) (λ _, 1%Q)
      [1; 2; 3; 4; 5; 6; 7; 8; 9; 10]%Q
      [1073741823; 1073741823;
       1073741823; 1073741823; 0;
       1073741823; 1073741823; 2147483647;
       1073741823; 1073741823; 1073741823;
       1073741823; 1073741823; 5] = Some (individuals', rnd') ∧
    length individuals' = length [1; 2; 3; 4; 5; 6; 7; 8; 9; 10]%Q ∧
    (∀ idx, 2 * 4 <= idx →
       rd individuals' idx = rd [1; 2; 3; 4; 5; 6; 7; 8; 9; 10]%Q idx) ∧
    (2 <= 1 →
     individuals' = [1; 2; 3; 4; 5; 6; 7; 8; 9; 10]%Q ∧
     rnd' = [1073741823; 1073741823;
             1073741823; 1073741823; 0;
             1073741823; 1073741823; 2147483647;
             1073741823; 1073741823; 1073741823;
             1073741823; 1073741823; 5]).
Proof.
  eexists _, _.
  split; [vm_compute; reflexivity|].
  eapply (mutation_write_bounds (sized_config 2 4 1 5) (λ _, 1%Q)
           [1; 2; 3; 4; 5; 6; 7; 8; 9; 10]%Q
           [1073741823; 1073741823;
            1073741823; 1073741823; 0;
            1073741823; 1073741823; 2147483647;
            1073741823; 1073741823; 1073741823;
            1073741823; 1073741823; 5]).
  vm_compute; reflexivity.
Defined.

(** The pair of draws (3 * 2^29, 2^30) is accepted: [V1] is 0.5 and [V2]
    is 0. *)
Lemma stdrand_accepted_in_unit_square_witness :
  ∃ r1 r2, r1 ∈ [1610612736; 1073741824; 8] ∧
    r2 ∈ [1610612736; 1073741824; 8] ∧
    IEEE.geb (IEEE.box_S (sized_config 4 4 1 0) IEEE.run_libm r1 r2)
      (IEEE.of_int 1) = false ∧
    SpecFloat.S754_finite false 13967949 (-23)
    = IEEE.box_X (sized_config 4 4 1 0) IEEE.run_libm r1 r2 ∧
    IEEE.at_most (IEEE.box_V (sized_config 4 4 1 0) r1) (IEEE.of_int 1) ∧
    IEEE.at_most (IEEE.box_V (sized_config 4 4 1 0) r2) (IEEE.of_int 1).
Proof.
  eapply (stdrand_accepted_in_unit_square (sized_config 4 4 1 0)
            IEEE.run_libm [1610612736; 1073741824; 8] _ [8]).
  - vm_compute; discriminate.
  - draws_in_range.
  - vm_compute; reflexivity.
Defined.

(** The draw 2^30 - 1. *)
Lemma frand_unit_interval_witness :
  ∃ r, [1073741823; 2147483647] = r :: [2147483647] ∧
    SpecFloat.S754_finite false 8388608 (-24)
    = IEEE.f_div (IEEE.of_int r) (IEEE.of_int 2147483647) ∧
    IEEE.is_number (SpecFloat.S754_finite false 8388608 (-24)) ∧
    (0 <= IEEE.exact (SpecFloat.S754_finite false 8388608 (-24)) <= 1)%Q.
Proof.
  eapply (frand_unit_interval (sized_config 4 4 1 0)
            [1073741823; 2147483647] _ [2147483647]).
  - vm_compute; discriminate.
  - draws_in_range.
  - vm_compute; reflexivity.
Defined.

(** One individual of 2 genes in an array of 4 values: the draws 0 and
    RAND_MAX give the genes -5 and 5. *)
Lemma init_population_range_witness :
  ∃ population' rnd',
    rand_range (sized_config 1 2 1 0) [0; 2147483647; 7] ∧
    init_population (sized_config 1 2 1 0) (replicate 4 9%Q)
      [0; 2147483647; 7] = Some (population', rnd') ∧
    rnd' = [7] ∧
    length population' = length (replicate 4 9%Q) ∧
    (∀ i, 0 <= i < 1 * 2 →
       ∃ g, rd population' i = Some g ∧ (-5 <= g)%Q ∧ (g <= 5)%Q) ∧
    (∀ i, ¬ (0 <= i < 1 * 2) → rd population' i = rd (replicate 4 9%Q) i) ∧
    ∃ used, [0; 2147483647; 7] = used ++ rnd' ∧
      Z.of_nat (length used) = Z.max 0 (1 * 2).
Proof.
  eexists _, _.
  split; [draws_in_range|].
  split; [vm_compute; reflexivity|]. split; [reflexivity|].
  eapply (init_population_range (sized_config 1 2 1 0) (replicate 4 9%Q)
           [0; 2147483647; 7]).
  - draws_in_range.
  - vm_compute; reflexivity.
Defined.

(** No points: both individuals have fitness 0. *)
Lemma fitness_without_points_witness :
  ∃ fits',
    fitness (sized_config 2 1 0 0) [1; 2]%Q [] [9; 9]%Q = Some fits' ∧
    length fits' = length [9; 9]%Q ∧
    ∀ i, 0 <= i < 2 → rd fits' i = Some 0%Q.
Proof.
  eapply (fitness_without_points (sized_config 2 1 0 0) [1; 2]%Q []
           [9; 9]%Q).
  - done.
  - vm_compute; split; discriminate.
Defined.

(** The genes 1, 2 as individual 0 of one array and individual 1 of
    another. *)
Lemma fitness_depends_on_genes_only_witness :
  ∃ fits_a' fits_b',
    fitness (sized_config 2 2 1 0) [1; 2; 3; 4]%Q [1; 0]%Q [0; 0]%Q
      = Some fits_a' ∧
    fitness (sized_config 2 2 1 0) [3; 4; 1; 2]%Q [1; 0]%Q [7; 7]%Q
      = Some fits_b' ∧
    rd fits_a' 0 = rd fits_b' 1 ∧ is_Some (rd fits_a' 0).
Proof.
  eexists _, _.
  split; [vm_compute; reflexivity|]. split; [vm_compute; reflexivity|].
  eapply (fitness_depends_on_genes_only (sized_config 2 2 1 0)
           [1; 2; 3; 4]%Q [3; 4; 1; 2]%Q [1; 0]%Q [0; 0]%Q [7; 7]%Q).
  - done.
  - vm_compute; split; [discriminate | reflexivity].
  - vm_compute; split; [discriminate | reflexivity].
  - vm_compute; reflexivity.
  - vm_compute; reflexivity.
  - intros j Hj. change (0 <= j < 2) in Hj.
    assert (j = 0 ∨ j = 1) as [-> | ->] by lia; reflexivity.
Defined.




(** A run with [maxGenerationNumber] 0. *)
Lemma main_without_generations_witness :
  ∃ r,
    main (H := merge_StdSort) no_generation_config (λ _, 1%Q) 2
      (Some [(1, 0)%Q]) 0%Q [] (replicate 16 0) = Completed r ∧
    rep_generations r = 0 ∧ rep_bestFitness r = PInf.
Proof.
  eexists. split; [vm_compute; reflexivity|].
  eapply (main_without_generations (H := merge_StdSort) no_generation_config
            (λ _, 1%Q) 2 (Some [(1, 0)%Q]) 0%Q [] (replicate 16 0)).
  - left. vm_compute; discriminate.
  - vm_compute; reflexivity.
Defined.

(** A file of two points. *)
Lemma readData_round_trip_witness :
  ∃ points,
    readData (Some [(1, 2); (3, 4)]%Q) 2 9%Q = Some (Some points) ∧
    Z.of_nat (length points) = 2 * 2 ∧
    point_set (sized_config 4 4 2 0) points = [(1, 2); (3, 4)]%Q.
Proof.
  eapply (readData_round_trip (sized_config 4 4 2 0) [(1, 2); (3, 4)]%Q 9%Q).
  reflexivity.
Defined.

(** Two pairs for one point. *)
Lemma readData_overruns_long_file_witness :
  readData (Some [(1, 2); (3, 4)]%Q) 1 9%Q = None.
Proof.
  eapply (readData_overruns_long_file [(1, 2); (3, 4)]%Q 1 9%Q).
  - done.
  - vm_compute; reflexivity.
Defined.

(** Four individuals of 4 genes, arrays of 64 values, three draws. *)
Lemma crossover_defined_witness :
  ∃ new' rnd',
    crossover (sized_config 4 4 1 0) (index_array 20) (replicate 16 0%Q)
      [0; 1; 0] = Some (new', rnd') ∧
    length new' = length (replicate 16 0%Q).
Proof.
  eapply (crossover_defined (sized_config 4 4 1 0) (index_array 20)
           (replicate 16 0%Q) [0; 1; 0]).
  - done.
  - done.
  - draws_in_range.
  - vm_compute; discriminate.
  - vm_compute; discriminate.
  - vm_compute; discriminate.
Defined.

(** The arrays of main for four individuals of 4 genes. *)
Lemma crossover_defined_on_main_arrays_witness :
  is_Some (crossover (sized_config 4 4 1 0) (index_array 64)
             (replicate 64 0%Q) [0; 1; 0]).
Proof.
  eapply (crossover_defined_on_main_arrays (sized_config 4 4 1 0)
           (index_array 64) (replicate 64 0%Q) [0; 1; 0]).
  - vm_compute; split; discriminate.
  - done.
  - vm_compute; reflexivity.
  - vm_compute; reflexivity.
  - draws_in_range.
  - vm_compute; discriminate.
Defined.

(** A file of one point where two are expected. *)
Lemma readData_short_file_witness :
  ∃ points,
    readData (Some [(1, 2)%Q]) 2 9%Q = Some (Some points) ∧
    Z.of_nat (length points) = 2 * 2 ∧
    ∀ k, Z.of_nat (length [(1, 2)%Q]) <= k < 2 →
      rd points k = Some 9%Q ∧ rd points (2 + k) = Some 9%Q.
Proof.
  eapply (readData_short_file [(1, 2)%Q] 2 9%Q).
  vm_compute; discriminate.
Defined.


(** The master and the worker of rank 1 of three processes. *)
Lemma mpi_messages_match_witness :
  recv_tags 1
    (mpi_main (sized_config 4 4 1 0) (λ _, three_workers)
       (process_of_three 0)).1
    = send_tags
        (mpi_main (sized_config 4 4 1 0) (λ _, three_workers)
           (process_of_three 1)).1 ∧
  send_tags
    (mpi_main (sized_config 4 4 1 0) (λ _, three_workers)
       (process_of_three 1)).1 = [11; 22; 33; 44] ∧
  (∀ ev, ev ∈ (mpi_main (sized_config 4 4 1 0) (λ _, three_workers)
                 (process_of_three 1)).1 →
     (∀ dest tag, ev = EvSend dest tag → dest = 0) ∧
     (∀ source tag, ev ≠ EvRecv source tag) ∧
     (∀ rank r, ev ≠ EvPrintGlobal rank r)) ∧
  (mpi_main (sized_config 4 4 1 0) (λ _, three_workers)
     (process_of_three 1)).2 = Return 0.
Proof.
  eapply (mpi_messages_match (sized_config 4 4 1 0) (λ _, three_workers)
           (process_of_three 0) (process_of_three 1)).
  - split_and!; try reflexivity.
    exists [(1, 0)%Q]. split; [reflexivity | vm_compute; discriminate].
  - split_and!; try reflexivity.
    exists [(1, 0)%Q]. split; [reflexivity | vm_compute; discriminate].
  - reflexivity.
  - vm_compute; discriminate.
  - reflexivity.
  - vm_compute; split; [discriminate | reflexivity].
Defined.


(** A run of one generation on no points; the draws of [rand()] after
    the first population are pairs that stdrand accepts. *)
Lemma main_report_witness :
  ∃ r,
    main (H := merge_StdSort) (sized_config 4 4 0 0) (λ _, 1%Q) 2 (Some [])
      0%Q [0; 0; 0]
      (replicate 16 0 ++ concat (replicate 15 [1610612736; 1073741824]))
    = Completed r ∧
    rep_generations r = 1 ∧
    length (rep_solution r) = 4%nat ∧
    ((rep_generations r = 0 ∧ rep_bestFitness r = PInf) ∨
     0 < rep_generations r <= 10).
Proof.
  eexists. split; [vm_compute; reflexivity|]. split; [reflexivity|].
  eapply (main_report (H := merge_StdSort) (sized_config 4 4 0 0) (λ _, 1%Q)
            2 (Some []) 0%Q [0; 0; 0]
            (replicate 16 0 ++ concat (replicate 15 [1610612736; 1073741824]))).
  vm_compute; reflexivity.
Defined.
